(** * trm-roche: the Python/C++ interface file [roche.cc]

    A shallow embedding of the binding layer of [src/trm/roche/roche.cc]:
    every [roche_*] entry point validates its arguments, calls the
    [Roche::] engine declared in [trm_roche.h] and builds a Python value.

    - An entry point is modelled from the point where [PyArg_ParseTuple]
      has succeeded: required arguments are values, optional ones are
      [option]s that fall back on the initialisers of the source.
    - C [double] arithmetic is an interface ([Arith]); its instance [ieee]
      is binary64, the numbers the compiled code computes with, given by
      Rocq's primitive floats and their specification in [SpecFloat].
    - The engine ([Roche::fblink], [Roche::lobe1], ...) and the [Subs::Vec3]
      type come from headers outside this file; they are the fields of the
      [Engine] interface.  [PyArray_SimpleNew] is the [Numpy] interface.
    - Calls to the engine and to the array allocator are recorded in a
      trace, so that "before any computation" and "exactly n times" are
      statements about the trace an entry point leaves.
    - The [while] loop of [roche_findq] runs on fuel; [Diverges] is the
      outcome of a loop still running when the fuel is spent. *)

From Stdlib Require Import ZArith List Bool String Ascii Lia.
From Stdlib Require Import Floats.
Import ListNotations.

Set Implicit Arguments.
Set Warnings "-inexact-float".

(* ================================================================== *)
(** ** C doubles *)

(** The operations [roche.cc] applies to [double] values. *)
Class Arith : Type := {
  double : Type;
  of_int : Z -> double;                 (* an integral constant, [2.], [-1.] *)
  add : double -> double -> double;
  sub : double -> double -> double;
  div : double -> double -> double;
  ltb : double -> double -> bool;       (* [a < b]  *)
  leb : double -> double -> bool        (* [a <= b] *)
}.

Declare Scope dbl_scope.
Delimit Scope dbl_scope with dbl.
Bind Scope dbl_scope with double.
Notation "a + b" := (add a b) : dbl_scope.
Notation "a - b" := (sub a b) : dbl_scope.
Notation "a / b" := (div a b) : dbl_scope.
Notation "a <? b" := (ltb a b) : dbl_scope.
Notation "a <=? b" := (leb a b) : dbl_scope.
Notation "a >? b" := (ltb b a) (only parsing) : dbl_scope.
Notation "a >=? b" := (leb b a) (only parsing) : dbl_scope.

(** A decimal constant [m e-k], as in [1.e-4] = [dec 1 4]: the quotient of
    two exactly representable integers, hence the double nearest to the
    decimal value. *)
Definition dec `{Arith} (m : Z) (k : Z) : double :=
  (of_int m / of_int (10 ^ k))%dbl.

(** The two order facts the validation code relies on: a value cannot be
    on both sides of a comparison. *)
Class ArithLaws (A : Arith) : Prop := {
  ltb_not_leb : forall a b : double, (a <? b)%dbl = true -> (b <=? a)%dbl = false;
  leb_not_ltb : forall a b : double, (a <=? b)%dbl = true -> (b <? a)%dbl = false
}.

(** *** binary64 *)

Definition float_of_Z (z : Z) : float :=
  match z with
  | Z0 => 0%float
  | Zpos _ => PrimFloat.of_uint63 (Uint63.of_Z z)
  | Zneg p => PrimFloat.opp (PrimFloat.of_uint63 (Uint63.of_Z (Zpos p)))
  end.

#[export] Instance ieee : Arith := {|
  double := float;
  of_int := float_of_Z;
  add := PrimFloat.add;
  sub := PrimFloat.sub;
  div := PrimFloat.div;
  ltb := PrimFloat.ltb;
  leb := PrimFloat.leb
|}.

(* ================================================================== *)
(** ** The engine and the array allocator *)

(** [Roche::PRIMARY] and [Roche::SECONDARY]. *)
Inductive Star : Type := PRIMARY | SECONDARY.

(** What [roche.cc] uses of [trm_roche.h]: the [Subs::Vec3] type and the
    [Roche::] routines.  A routine that stores through [float*] arguments
    is the pair of sequences it stores through [x] and through [y], from
    index 0 on; a routine with reference arguments returns their new
    values; [Roche::vstrreg] may throw a [Roche::Roche_Error], which the
    source concatenates to a string. *)
Class Engine (A : Arith) : Type := {
  Vec3 : Type;
  Vec3_new : Vec3;                                  (* [Subs::Vec3 r;] *)
  Vec3_xyz : double -> double -> double -> Vec3;    (* [Subs::Vec3 r(x,y,z);] *)
  Vec3_x : Vec3 -> double;
  Vec3_y : Vec3 -> double;
  cfloat : Type;                                    (* C [float] *)
  Roche_fblink :
    double -> double -> double -> Vec3 -> Star -> double -> double -> bool;
  Roche_ingress_egress :
    double -> double -> double -> Vec3 -> double -> Star ->
    option (double * double);
  Roche_lobe1 : double -> Z -> list cfloat * list cfloat;
  Roche_lobe2 : double -> Z -> list cfloat * list cfloat;
  Roche_streamr : double -> double -> Z -> list cfloat * list cfloat;
  Roche_vlobe1 : double -> Z -> list cfloat * list cfloat;
  Roche_vlobe2 : double -> Z -> list cfloat * list cfloat;
  Roche_vstrreg :
    double -> double -> Z -> Z -> string + list cfloat * list cfloat;
  Roche_strinit : double -> Vec3 -> Vec3 -> Vec3 * Vec3;
  Roche_strmnx : double -> Vec3 -> Vec3 -> double -> Vec3 * Vec3;
  Roche_vtrans :
    double -> Z -> double -> double -> double -> double -> double * double
}.

(** What [roche.cc] uses of [numpy/arrayobject.h]: [PyArray_SimpleNew]
    either fails (NULL) or yields fresh memory, whose cells hold whatever
    [fresh_cell] says. *)
Class Numpy (A : Arith) (E : Engine A) : Type := {
  SimpleNew_ok : list Z -> bool;
  fresh_cell : nat -> cfloat
}.

(** The exception objects of [Python.h]; [roche.cc] names the first. *)
Inductive PyExc : Type :=
| PyExc_ValueError
| PyExc_TypeError
| PyExc_MemoryError
| PyExc_RuntimeError.

(** How a [roche_*] function ends. *)
Inductive Outcome (T : Type) : Type :=
| Returns (v : T)
| Raises (e : PyExc) (msg : string)   (* [PyErr_SetString(e, msg); return NULL;] *)
| Null                                (* [return NULL;], error set by the callee *)
| Diverges.                           (* the loop outlives the model's fuel *)

Arguments Returns {T} v.
Arguments Raises {T} e msg.
Arguments Null {T}.
Arguments Diverges {T}.

(** [store data off vals]: the cells of [data] after [vals] is written
    through a pointer to cell [off]; the block keeps its size. *)
Fixpoint store {T : Type} (data : list T) (off : nat) (vals : list T) : list T :=
  match data with
  | [] => []
  | d :: ds =>
      match off with
      | S k => d :: store ds k vals
      | O => match vals with
             | [] => d :: ds
             | v :: vs => v :: store ds O vs
             end
      end
  end.

(** An optional argument of [PyArg_ParseTuple]: the variable keeps its
    initialiser when the argument is omitted. *)
Definition optional {T : Type} (init : T) (arg : option T) : T :=
  match arg with
  | Some v => v
  | None => init
  end.

Section Binding.

Context {A : Arith} {E : Engine A} {N : Numpy E}.

(** Python values built by [Py_BuildValue] and [PyArray_Return]. *)
Inductive PyObject : Type :=
| PyFloat (d : double)
| PyInt (i : Z)
| PyTuple (items : list double)      (* a tuple of floats, formats "dd", "dddddd" *)
| PyArray (dims : list Z) (data : list cfloat).

(** Calls that leave [roche.cc]. *)
Inductive Event : Type :=
| Call_fblink (q iangle phi : double) (r : Vec3) (star : Star) (ffac acc : double)
| Call_ingress_egress (q ffac iangle : double) (r : Vec3) (delta : double) (star : Star)
| Call_SimpleNew (dims : list Z)
| Call_lobe1 (q : double) (n : Z)
| Call_lobe2 (q : double) (n : Z)
| Call_streamr (q rad : double) (n : Z)
| Call_vlobe1 (q : double) (n : Z)
| Call_vlobe2 (q : double) (n : Z)
| Call_vstrreg (q step : double) (n stype : Z)
| Call_strinit (q : double) (r v : Vec3)
| Call_strmnx (q : double) (r v : Vec3) (acc : double)
| Call_vtrans (q : double) (star : Z) (x y vx vy : double).

(** A computation: its outcome and the calls it made, in order. *)
Definition M (T : Type) : Type := (Outcome T * list Event)%type.

Definition ret {T : Type} (v : T) : M T := (Returns v, []).

Definition raise {T : Type} (e : PyExc) (msg : string) : M T := (Raises e msg, []).

Definition call {T : Type} (ev : Event) (v : T) : M T := (Returns v, [ev]).

Definition bind {T U : Type} (m : M T) (k : T -> M U) : M U :=
  match m with
  | (Returns v, t) => let (o, t') := k v in (o, t ++ t')
  | (Raises e msg, t) => (Raises e msg, t)
  | (Null, t) => (Null, t)
  | (Diverges, t) => (Diverges, t)
  end.

Notation "x <- m ;; k" := (bind m (fun x => k))
  (at level 61, m at next level, right associativity).
Notation "' p <- m ;; k" := (bind m (fun x => let p := x in k))
  (at level 61, p pattern, m at next level, right associativity).

Definition outcome {T : Type} (m : M T) : Outcome T := fst m.
Definition trace {T : Type} (m : M T) : list Event := snd m.

(** Rejected as an invalid argument, before any call is made. *)
Definition rejected {T : Type} (m : M T) : Prop :=
  exists msg, m = (Raises PyExc_ValueError msg, []).

(** The exception a computation ends with, if any. *)
Definition raised {T : Type} (m : M T) : option PyExc :=
  match outcome m with
  | Raises e _ => Some e
  | _ => None
  end.

Local Open Scope string_scope.
Local Open Scope dbl_scope.

(** *** findq *)

(** The [while(qhi - qlo > dq)] loop; it returns the final bracket. *)
Fixpoint findq_loop (fuel : nat) (iangle phi : double) (r : Vec3)
    (acc dq qlo qhi : double) : M (double * double) :=
  if qhi - qlo >? dq then
    match fuel with
    | O => (Diverges, [])
    | S fuel' =>
        let q := (qlo + qhi) / of_int 2 in
        b <- call (Call_fblink q iangle phi r SECONDARY (of_int 1) acc)
                  (Roche_fblink q iangle phi r SECONDARY (of_int 1) acc) ;;
        if b
        then findq_loop fuel' iangle phi r acc dq qlo q
        else findq_loop fuel' iangle phi r acc dq q qhi
    end
  else ret (qlo, qhi).

Definition roche_findq (fuel : nat) (iangle pwidth : double)
    (acc_arg dq_arg qlo_arg qhi_arg : option double) : M PyObject :=
  let acc := optional (dec 1 4) acc_arg in
  let dq := optional (dec 1 5) dq_arg in
  let qlo := optional (dec 1 3) qlo_arg in
  let qhi := optional (of_int 2) qhi_arg in
  if (iangle <=? of_int 0) || (iangle >? of_int 90) then
    raise PyExc_ValueError "roche.findq: iangle out of range 0 to 90"
  else if (pwidth <=? of_int 0) || (pwidth >? dec 25 2) then
    raise PyExc_ValueError "roche.findq: pwidth out of range 0 to 0.25"
  else if (acc <=? of_int 0) || (acc >? dec 1 1) then
    raise PyExc_ValueError "roche.findq: acc <= 0 or acc > 0.1"
  else if (dq <=? of_int 0) || (dq >? dec 1 1) then
    raise PyExc_ValueError "roche.findq: dq <= 0 or dq > 0.1"
  else
    let r := Vec3_new in
    let phi := pwidth / of_int 2 in
    elo <- call (Call_fblink qlo iangle phi r SECONDARY (of_int 1) acc)
                (Roche_fblink qlo iangle phi r SECONDARY (of_int 1) acc) ;;
    ehi <- call (Call_fblink qhi iangle phi r SECONDARY (of_int 1) acc)
                (Roche_fblink qhi iangle phi r SECONDARY (of_int 1) acc) ;;
    q <- (if elo && ehi then ret (of_int (-2))
          else if negb elo && negb ehi then ret (of_int (-1))
          else
            ' (qlo', qhi') <- findq_loop fuel iangle phi r acc dq qlo qhi ;;
            ret ((qlo' + qhi') / of_int 2)) ;;
    ret (PyFloat q).

(** *** fblink *)

Definition roche_fblink (q iangle phi x y z : double)
    (ffac_arg acc_arg : option double) (star_arg : option Z) : M PyObject :=
  let ffac := optional (of_int 1) ffac_arg in
  let acc := optional (dec 1 4) acc_arg in
  let star := optional 2%Z star_arg in
  if q <=? of_int 0 then
    raise PyExc_ValueError "roche.fblink: q <= 0"
  else if (iangle <=? of_int 0) || (iangle >? of_int 90) then
    raise PyExc_ValueError "roche.fblink: iangle out of range 0 to 90"
  else if (ffac <=? of_int 0) || (ffac >? of_int 1) then
    raise PyExc_ValueError "roche.fblink: ffac out of range 0 to 1"
  else if (acc <=? of_int 0) || (acc >? dec 1 1) then
    raise PyExc_ValueError "roche.fblink: acc <= 0 or acc > 0.1"
  else if (star <? 1)%Z || (star >? 2)%Z then
    raise PyExc_ValueError "roche.fblink: star must be either 1 or 2"
  else
    let r := Vec3_xyz x y z in
    let s := if (star =? 1)%Z then PRIMARY else SECONDARY in
    b <- call (Call_fblink q iangle phi r s ffac acc)
              (Roche_fblink q iangle phi r s ffac acc) ;;
    let eclipse := if b then 1%Z else 0%Z in
    ret (PyInt eclipse).

(** *** ineg *)

Definition roche_ineg (q iangle x y z : double)
    (ffac_arg delta_arg : option double) (star_arg : option Z) : M PyObject :=
  let ffac := optional (of_int 1) ffac_arg in
  let delta := optional (dec 1 7) delta_arg in
  let star := optional 2%Z star_arg in
  if q <=? of_int 0 then
    raise PyExc_ValueError "roche.ineg: q <= 0"
  else if (iangle <=? of_int 0) || (iangle >? of_int 90) then
    raise PyExc_ValueError "roche.ineg: iangle out of range 0 to 90"
  else if (ffac <=? of_int 0) || (ffac >? of_int 1) then
    raise PyExc_ValueError "roche.ineg: ffac out of range 0 to 1"
  else if delta <=? of_int 0 then
    raise PyExc_ValueError "roche.ineg: delta <= 0"
  else if (star <? 1)%Z || (star >? 2)%Z then
    raise PyExc_ValueError "roche.ineg: star must be either 1 or 2"
  else
    let r := Vec3_xyz x y z in
    let s := if (star =? 1)%Z then PRIMARY else SECONDARY in
    res <- call (Call_ingress_egress q ffac iangle r delta s)
                (Roche_ingress_egress q ffac iangle r delta s) ;;
    match res with
    | None => raise PyExc_ValueError "roche.ineg: point is not eclipsed"
    | Some (ingress, egress) => ret (PyTuple [ingress; egress])
    end.

(** *** Output arrays *)

(** [PyArray_SimpleNew(2, dim, PyArray_FLOAT)]: NULL, or the cells of a
    fresh block of [dim[0] * dim[1]] floats. *)
Definition PyArray_SimpleNew (dims : list Z) : M (option (list cfloat)) :=
  call (Call_SimpleNew dims)
       (if SimpleNew_ok dims
        then Some (map fresh_cell (seq 0 (Z.to_nat (fold_right Z.mul 1%Z dims))))
        else None).

(** [x = (float* )r->data; y = x + n;] and the engine storing through
    [x] and [y]. *)
Definition fill (data : list cfloat) (n : Z) (xy : list cfloat * list cfloat)
  : list cfloat :=
  store (store data 0 (fst xy)) (Z.to_nat n) (snd xy).

Definition roche_lobe1 (q : double) (n_arg : option Z) : M PyObject :=
  let n := optional 200%Z n_arg in
  if q <=? of_int 0 then
    raise PyExc_ValueError "roche.lobe1: q <= 0"
  else if (n <? 2)%Z then
    raise PyExc_ValueError "roche.lobe1: n < 2"
  else
    let dim := [2%Z; n] in
    r <- PyArray_SimpleNew dim ;;
    match r with
    | None => (Null, [])
    | Some data =>
        xy <- call (Call_lobe1 q n) (Roche_lobe1 q n) ;;
        ret (PyArray dim (fill data n xy))
    end.

Definition roche_lobe2 (q : double) (n_arg : option Z) : M PyObject :=
  let n := optional 200%Z n_arg in
  if q <=? of_int 0 then
    raise PyExc_ValueError "roche.lobe2: q <= 0"
  else if (n <? 2)%Z then
    raise PyExc_ValueError "roche.lobe2: n < 2 in"
  else
    let dim := [2%Z; n] in
    r <- PyArray_SimpleNew dim ;;
    match r with
    | None => (Null, [])
    | Some data =>
        xy <- call (Call_lobe2 q n) (Roche_lobe2 q n) ;;
        ret (PyArray dim (fill data n xy))
    end.

Definition roche_stream (q rad : double) (n_arg : option Z) : M PyObject :=
  let n := optional 200%Z n_arg in
  if q <=? of_int 0 then
    raise PyExc_ValueError "roche.stream: q <= 0"
  else if (rad <? of_int 0) || (rad >? of_int 1) then
    raise PyExc_ValueError "roche.stream: rad < 0 or > 1."
  else if (n <? 2)%Z then
    raise PyExc_ValueError "roche.stream: n < 2"
  else
    let dim := [2%Z; n] in
    r <- PyArray_SimpleNew dim ;;
    match r with
    | None => (Null, [])
    | Some data =>
        xy <- call (Call_streamr q rad n) (Roche_streamr q rad n) ;;
        ret (PyArray dim (fill data n xy))
    end.

(** *** strmnx *)

(** [for(int i=0; i<n; i++) Roche::strmnx(q, r, v, acc);], which runs its
    body [n] times for [n >= 0]; [count] is that number. *)
Fixpoint strmnx_loop (count : nat) (q : double) (r v : Vec3) (acc : double)
  : M (Vec3 * Vec3) :=
  match count with
  | O => ret (r, v)
  | S count' =>
      ' (r', v') <- call (Call_strmnx q r v acc) (Roche_strmnx q r v acc) ;;
      strmnx_loop count' q r' v' acc
  end.

Definition roche_strmnx (q : double) (n_arg : option Z) (acc_arg : option double)
  : M PyObject :=
  let n := optional 1%Z n_arg in
  let acc := optional (dec 1 7) acc_arg in
  if q <? of_int 0 then
    raise PyExc_ValueError "roche.strmnx: q <= 0"
  else if (n <? 1)%Z then
    raise PyExc_ValueError "roche.strmnx: n < 1"
  else if acc <=? of_int 0 then
    raise PyExc_ValueError "roche.strmnx: acc <= 0"
  else
    ' (r0, v0) <- call (Call_strinit q Vec3_new Vec3_new)
                       (Roche_strinit q Vec3_new Vec3_new) ;;
    ' (r, v) <- strmnx_loop (Z.to_nat n) q r0 v0 acc ;;
    ' (tvx1, tvy1) <-
        call (Call_vtrans q 1 (Vec3_x r) (Vec3_y r) (Vec3_x v) (Vec3_y v))
             (Roche_vtrans q 1 (Vec3_x r) (Vec3_y r) (Vec3_x v) (Vec3_y v)) ;;
    ' (tvx2, tvy2) <-
        call (Call_vtrans q 2 (Vec3_x r) (Vec3_y r) (Vec3_x v) (Vec3_y v))
             (Roche_vtrans q 2 (Vec3_x r) (Vec3_y r) (Vec3_x v) (Vec3_y v)) ;;
    ret (PyTuple [Vec3_x r; Vec3_y r; tvx1; tvy1; tvx2; tvy2]).

(** *** Velocity space *)

Definition roche_vlobe1 (q : double) (n_arg : option Z) : M PyObject :=
  let n := optional 200%Z n_arg in
  if q <=? of_int 0 then
    raise PyExc_ValueError "roche.vlobe1: q <= 0"
  else if (n <? 2)%Z then
    raise PyExc_ValueError "roche.vlobe1: n < 2"
  else
    let dim := [2%Z; n] in
    v <- PyArray_SimpleNew dim ;;
    match v with
    | None => (Null, [])
    | Some data =>
        xy <- call (Call_vlobe1 q n) (Roche_vlobe1 q n) ;;
        ret (PyArray dim (fill data n xy))
    end.

Definition roche_vlobe2 (q : double) (n_arg : option Z) : M PyObject :=
  let n := optional 200%Z n_arg in
  if q <=? of_int 0 then
    raise PyExc_ValueError "roche.vlobe2: q <= 0"
  else if (n <? 2)%Z then
    raise PyExc_ValueError "roche.vlobe2: n < 2"
  else
    let dim := [2%Z; n] in
    v <- PyArray_SimpleNew dim ;;
    match v with
    | None => (Null, [])
    | Some data =>
        xy <- call (Call_vlobe2 q n) (Roche_vlobe2 q n) ;;
        ret (PyArray dim (fill data n xy))
    end.

Definition roche_vstream (q : double) (step_arg : option double)
    (stype_arg n_arg : option Z) : M PyObject :=
  let step := optional (dec 1 2) step_arg in
  let stype := optional 1%Z stype_arg in
  let n := optional 60%Z n_arg in
  if q <=? of_int 0 then
    raise PyExc_ValueError "roche.vstream: q <= 0"
  else if (step <=? of_int 0) || (step >=? of_int 1) then
    raise PyExc_ValueError "roche.vstream: step <= 0 or >= 1."
  else if (stype <? 1)%Z && (stype >? 2)%Z then
    raise PyExc_ValueError "roche.vstream: stype must be 1 or 2"
  else if (n <? 2)%Z then
    raise PyExc_ValueError "roche.vstream: n < 2"
  else
    let dim := [2%Z; n] in
    v <- PyArray_SimpleNew dim ;;
    match v with
    | None => (Null, [])
    | Some data =>
        res <- call (Call_vstrreg q step n stype) (Roche_vstrreg q step n stype) ;;
        match res with
        | inl err => raise PyExc_ValueError ("roche.vstream: " ++ err)
        | inr xy => ret (PyArray dim (fill data n xy))
        end
    end.

End Binding.

(** *** The method table: name and docstring of each entry *)

Definition RocheMethods : list (string * string) := [
  ("findq",
   "findq(i, pwidth, acc=1.e-4, dq=1.e-5, qlo=0.005, qhi=2.), computes mass ratio q for a given phase width and inclination");
  ("fblink",
   "fblink(q, i, phi, x, y, z, ffac=1., acc=1.e-4, star=2), computes whether a point is eclipsed or not");
  ("ineg",
   "(in,out) = ineg(q, i, x, y, z, ffac=1., delta=1.e-7, star=2), computes ingress and egress phase of a point");
  ("lobe1",
   "r = lobe1(q, n=200), q = M2/M1. Returns 2xn array of primary star's Roche lobe.");
  ("lobe2",
   "r = lobe2(q, n=200), q = M2/M1. Returns 2xn array of secondary star's Roche lobe.");
  ("stream",
   "r = stream(q, rad, n=200), q = M2/M1. Returns 2xn array of the gas stream.");
  ("strmnx",
   "(x,y,vx1,vy1,vx2,vy2) = strmnx(q, n=1, acc=1.e-7), q = M2/M1. Calculates position & velocity of n-th turning point of stream.");
  ("vlobe1",
   "v = vlobe1(q, n=200), q = M2/M1. Returns 2xn array of primary star's Roche lobe in velocity space.");
  ("vlobe2",
   "v = vlobe2(q, n=200), q = M2/M1. Returns 2xn array of secondary star's Roche lobe in velocity space.");
  ("vstream",
   "v = vstream(q, step=0.01, type=1, n=60), q = M2/M1. Returns 2xn array of positions of the gas stream in velocity space.");
  ("xl1", "xl1(q), q = M2/M1. Calculate the inner Lagrangian point distance.");
  ("xl2", "xl2(q), q = M2/M1. Calculate the L2 point distance.");
  ("xl3", "xl3(q), q = M2/M1. Calculate the L3 point distance.")
]%string.

(** The docstring registered under a method name. *)
Fixpoint docstring (name : string) (table : list (string * string)) : option string :=
  match table with
  | [] => None
  | (n, d) :: rest => if String.eqb n name then Some d else docstring name rest
  end.

(** [contains s sub]: [sub] occurs in [s]. *)
Fixpoint contains (s sub : string) : bool :=
  String.prefix sub s ||
  match s with
  | EmptyString => false
  | String _ s' => contains s' sub
  end.

(* ================================================================== *)
(** ** A stand-in engine for running the binding on concrete inputs *)

(** An engine whose eclipse test sees only the mass ratio ([blink]), whose
    ingress/egress search answers [inout], and whose velocity-space
    integration throws [verr] when it is given. *)
Definition stub_engine (A : Arith) (blink : double -> bool)
    (inout : option (double * double)) (verr : option string) : Engine A := {|
  Vec3 := double * double * double;
  Vec3_new := (of_int 0, of_int 0, of_int 0);
  Vec3_xyz := fun x y z => (x, y, z);
  Vec3_x := fun r => fst (fst r);
  Vec3_y := fun r => snd (fst r);
  cfloat := double;
  Roche_fblink := fun q _ _ _ _ _ _ => blink q;
  Roche_ingress_egress := fun _ _ _ _ _ _ => inout;
  Roche_lobe1 := fun q n => (repeat q (Z.to_nat n), repeat q (Z.to_nat n));
  Roche_lobe2 := fun q n => (repeat q (Z.to_nat n), repeat q (Z.to_nat n));
  Roche_streamr := fun q rad n => (repeat q (Z.to_nat n), repeat rad (Z.to_nat n));
  Roche_vlobe1 := fun q n => (repeat q (Z.to_nat n), repeat q (Z.to_nat n));
  Roche_vlobe2 := fun q n => (repeat q (Z.to_nat n), repeat q (Z.to_nat n));
  Roche_vstrreg := fun q step n _ =>
    match verr with
    | Some e => inl e
    | None => inr (repeat q (Z.to_nat n), repeat step (Z.to_nat n))
    end;
  Roche_strinit := fun q _ v => ((q, of_int 0, of_int 0), v);
  Roche_strmnx := fun q r v acc =>
    ((add (fst (fst r)) acc, snd (fst r), snd r), r);
  Roche_vtrans := fun q star x y vx vy =>
    (sub vx (of_int star), sub vy (of_int star))
|}.

Definition stub_numpy (A : Arith) (blink : double -> bool)
    (inout : option (double * double)) (verr : option string) (ok : bool)
  : Numpy (stub_engine A blink inout verr) :=
  @Build_Numpy A (stub_engine A blink inout verr)
    (fun _ => ok) (fun _ => @of_int A 0).

(* ================================================================== *)
(** ** Vocabulary of the statements *)

Section Vocabulary.

Context {A : Arith} {E : Engine A} {N : Numpy E}.

Local Open Scope dbl_scope.

(** The four range checks of [roche_findq] all come out false. *)
Definition findq_checks_pass (iangle pwidth acc dq : double) : Prop :=
  (iangle <=? of_int 0) || (iangle >? of_int 90) = false /\
  (pwidth <=? of_int 0) || (pwidth >? dec 25 2) = false /\
  (acc <=? of_int 0) || (acc >? dec 1 1) = false /\
  (dq <=? of_int 0) || (dq >? dec 1 1) = false.

(** The eclipse test as [roche_findq] applies it to a mass ratio, and the
    call it leaves in the trace. *)
Definition findq_blink (iangle pwidth acc q : double) : bool :=
  Roche_fblink q iangle (pwidth / of_int 2) Vec3_new SECONDARY (of_int 1) acc.

Definition findq_probe (iangle pwidth acc q : double) : Event :=
  Call_fblink q iangle (pwidth / of_int 2) Vec3_new SECONDARY (of_int 1) acc.

(** One pass of the loop body on a bracket, and [n] passes made while
    the loop condition holds. *)
Definition findq_next (iangle pwidth acc : double) (s : double * double)
  : double * double :=
  let q := (fst s + snd s) / of_int 2 in
  if findq_blink iangle pwidth acc q then (fst s, q) else (q, snd s).

Fixpoint findq_advance (n : nat) (iangle pwidth acc dq : double)
    (s : double * double) : option (double * double) :=
  match n with
  | O => Some s
  | S n' =>
      if snd s - fst s >? dq
      then findq_advance n' iangle pwidth acc dq (findq_next iangle pwidth acc s)
      else None
  end.

(** The coordinate pairs held by a 2-by-[n] block: pair [i] is
    ([x[i]], [y[i]]) with [y = x + n]. *)
Definition pairs (n : Z) (data : list cfloat) : list (cfloat * cfloat) :=
  combine (firstn (Z.to_nat n) data) (skipn (Z.to_nat n) data).

(** An entry point returns a 2-by-[n] array: it asks the allocator for
    the dimensions {2, n}, then calls the engine ([ev]), which stores
    [xy] into the block; the array holds [n] pairs. *)
Definition returns_2_by_n (n : Z) (ev : Event) (xy : list cfloat * list cfloat)
    (m : M PyObject) : Prop :=
  exists data,
    m = (Returns (PyArray [2%Z; n] data), [Call_SimpleNew [2%Z; n]; ev]) /\
    data = fill (map fresh_cell (seq 0 (Z.to_nat (2 * n)))) n xy /\
    List.length data = (2 * Z.to_nat n)%nat /\
    List.length (pairs n data) = Z.to_nat n.

(** One turning-point search, on the pair (position, velocity). *)
Definition search (q acc : double) (rv : Vec3 * Vec3) : Vec3 * Vec3 :=
  Roche_strmnx q (fst rv) (snd rv) acc.

(** The states from which [k] successive searches start. *)
Fixpoint search_starts (k : nat) (q acc : double) (rv : Vec3 * Vec3)
  : list (Vec3 * Vec3) :=
  match k with
  | O => []
  | S k' => rv :: search_starts k' q acc (search q acc rv)
  end.

Definition search_call (q acc : double) (rv : Vec3 * Vec3) : Event :=
  Call_strmnx q (fst rv) (snd rv) acc.

(** C4 as stated: a domain failure and an argument failure are of
    different kinds. *)
Definition distinguishable {T : Type}
    (domain_failure argument_failure : M T) : Prop :=
  raised domain_failure <> raised argument_failure.

End Vocabulary.

(** The messages of the argument checks of [roche_ineg] and
    [roche_vstream]. *)
Definition ineg_argument_messages : list string :=
  ["roche.ineg: q <= 0";
   "roche.ineg: iangle out of range 0 to 90";
   "roche.ineg: ffac out of range 0 to 1";
   "roche.ineg: delta <= 0";
   "roche.ineg: star must be either 1 or 2"]%string.

Definition vstream_argument_messages : list string :=
  ["roche.vstream: q <= 0";
   "roche.vstream: step <= 0 or >= 1.";
   "roche.vstream: stype must be 1 or 2";
   "roche.vstream: n < 2"]%string.

(* ================================================================== *)
(** ** Binary64 arithmetic, for the bisection of findq *)

Section Binary64Values.

Local Open Scope Z_scope.

(** The number of binary digits of a positive integer. *)
Definition digits (v : Z) : Z := Z.log2 v + 1.

(** Round to nearest, ties to even: the quotient [q], moved up when the
    remainder [r] is above the half [h], or equal to it with [q] odd. *)
Definition RNE (q r h : Z) : Z :=
  if r <? h then q
  else if r =? h then (if Z.even q then q else q + 1)
  else q + 1.

(** A positive integer rounded to 53 significant bits, as binary64 rounds
    a value that is a multiple of its smallest unit. *)
Definition rnd53 (v : Z) : Z :=
  let n := digits v - 53 in
  if n <=? 0 then v
  else RNE (v / 2 ^ n) (v mod 2 ^ n) (2 ^ (n - 1)) * 2 ^ n.

(** A shift record after [k] right shifts of the mantissa [M]: the
    quotient, the bit shifted out last and whether a lower bit was set. *)
Definition shifted (M k : Z) (mrs : shr_record) : Prop :=
  0 <= shr_m mrs /\
  exists sigma,
    M = shr_m mrs * 2 ^ k + (if shr_r mrs then 2 ^ (k - 1) else 0) + sigma /\
    0 <= sigma < 2 ^ (k - 1) /\
    shr_s mrs = negb (sigma =? 0).

(** Positive finite doubles, and their value in units of [2^-1074], the
    smallest positive double. *)
Definition posf (x : float) : bool :=
  match Prim2SF x with S754_finite false _ _ => true | _ => false end.

Definition value (x : float) : Z :=
  match Prim2SF x with
  | S754_finite false m e => Zpos m * 2 ^ (e + 1074)
  | _ => 0
  end.

(** The double [2^k], for [k] from -1022 to 1023. *)
Definition two_to (k : Z) : float :=
  SF2Prim (S754_finite false 4503599627370496 (k - 52)).

End Binary64Values.


(* ================================================================== *)
(** ** The Lagrangian points *)

(** [Roche::xl1], [Roche::xl2] and [Roche::xl3] of [trm_roche.h], and the
    value [Py_BuildValue] builds for the format "f" from the double it is
    passed. *)
Class Lagrange (A : Arith) (E : Engine A) : Type := {
  Roche_xl1 : double -> double;
  Roche_xl2 : double -> double;
  Roche_xl3 : double -> double;
  Py_BuildValue_f : double -> PyObject
}.

Section LagrangePoints.

Context {A : Arith} {E : Engine A} {X : Lagrange E}.

Local Open Scope string_scope.
Local Open Scope dbl_scope.

(** The engine calls of these three entry points. *)
Inductive XLCall : Type :=
| Call_xl1 (q : double)
| Call_xl2 (q : double)
| Call_xl3 (q : double).

Definition roche_xl1 (q : double) : Outcome PyObject * list XLCall :=
  if q <? of_int 0 then
    (Raises PyExc_ValueError "roche.xl1: q <= 0", [])
  else
    let x := Roche_xl1 q in
    (Returns (Py_BuildValue_f x), [Call_xl1 q]).

Definition roche_xl2 (q : double) : Outcome PyObject * list XLCall :=
  if q <? of_int 0 then
    (Raises PyExc_ValueError "roche.xl2: q <= 0", [])
  else
    let x := Roche_xl2 q in
    (Returns (Py_BuildValue_f x), [Call_xl2 q]).

Definition roche_xl3 (q : double) : Outcome PyObject * list XLCall :=
  if q <? of_int 0 then
    (Raises PyExc_ValueError "roche.cl3: q <= 0", [])
  else
    let x := Roche_xl3 q in
    (Returns (Py_BuildValue_f x), [Call_xl3 q]).

End LagrangePoints.

(** Lagrangian points for the stand-in engine. *)
Definition stub_lagrange (A : Arith) (blink : double -> bool)
    (inout : option (double * double)) (verr : option string)
  : Lagrange (stub_engine A blink inout verr) :=
  @Build_Lagrange A (stub_engine A blink inout verr)
    (fun q => q) (fun q => add q (of_int 1)) (fun q => sub q (of_int 1))
    (fun x => PyFloat x).

(* ================================================================== *)
(** ** Further vocabulary *)

Section MoreVocabulary.

Context {A : Arith} {E : Engine A} {N : Numpy E}.

Local Open Scope dbl_scope.

(** The range checks of [roche_fblink] and of [roche_ineg] all come out
    false. *)
Definition fblink_checks_pass (q iangle ffac acc : double) (star : Z) : Prop :=
  (q <=? of_int 0) = false /\
  (iangle <=? of_int 0) || (iangle >? of_int 90) = false /\
  (ffac <=? of_int 0) || (ffac >? of_int 1) = false /\
  (acc <=? of_int 0) || (acc >? dec 1 1) = false /\
  (star = 1 \/ star = 2)%Z.

Definition ineg_checks_pass (q iangle ffac delta : double) (star : Z) : Prop :=
  (q <=? of_int 0) = false /\
  (iangle <=? of_int 0) || (iangle >? of_int 90) = false /\
  (ffac <=? of_int 0) || (ffac >? of_int 1) = false /\
  (delta <=? of_int 0) = false /\
  (star = 1 \/ star = 2)%Z.

(** The range checks of [roche_strmnx] all come out false. *)
Definition strmnx_checks_pass (q : double) (n : Z) (acc : double) : Prop :=
  (q <? of_int 0) = false /\ (1 <= n)%Z /\ (acc <=? of_int 0) = false.

(** The star an integer selector stands for, once validated. *)
Definition star_of (star : Z) : Star :=
  if (star =? 1)%Z then PRIMARY else SECONDARY.

(** The engine stores [n] values through [x] and [n] through [y]. *)
Definition stores_n (n : Z) (xy : list cfloat * list cfloat) : Prop :=
  List.length (fst xy) = Z.to_nat n /\ List.length (snd xy) = Z.to_nat n.

(** An entry point returns the array whose row 0 is [fst xy] and whose
    row 1 is [snd xy]; its pair [i] is the [i]-th point. *)
Definition returns_points (n : Z) (xy : list cfloat * list cfloat)
    (m : M PyObject) : Prop :=
  outcome m = Returns (PyArray [2%Z; n] (fst xy ++ snd xy)) /\
  pairs n (fst xy ++ snd xy) = combine (fst xy) (snd xy).

(** Every call of a trace is an eclipse test as [roche_findq] makes it. *)
Definition probes_only (iangle pwidth acc : double) (t : list Event) : Prop :=
  Forall (fun ev => exists q, ev = findq_probe iangle pwidth acc q) t.

End MoreVocabulary.

(* ================================================================== *)
(** ** Single precision *)

(** Rounding to single precision (binary32: 24 significant bits, largest
    exponent 128), to nearest with ties to even: the conversion of a C
    [double] to a C [float]. *)
Definition SFsingle (x : spec_float) : spec_float :=
  match x with
  | S754_finite s m e =>
      binary_normalize 24 128 (if s then Zneg m else Zpos m) e s
  | _ => x
  end.

Definition to_single (x : float) : float := SF2Prim (SFsingle (Prim2SF x)).

(** [Py_BuildValue] with the format "f", as CPython has it: a [float]
    argument of a variadic function arrives as a [double], so "f" reads a
    [double] from the argument list, like "d", and builds the Python float
    that holds it ([PyFloat_FromDouble]). *)
Definition builds_float_as_cpython {A : Arith} {E : Engine A}
    (X : Lagrange E) : Prop :=
  forall x : double, Py_BuildValue_f x = PyFloat x.

(** C10 as stated: for every [q >= 0] the value delivered is the engine's
    result rounded to single precision. *)
Definition single_precision_claim (E : Engine ieee) (X : Lagrange E) : Prop :=
  forall q : float,
    (0 <=? q)%float = true ->
    fst (roche_xl1 q) = Returns (PyFloat (to_single (Roche_xl1 q))) /\
    fst (roche_xl2 q) = Returns (PyFloat (to_single (Roche_xl2 q))) /\
    fst (roche_xl3 q) = Returns (PyFloat (to_single (Roche_xl3 q))).

(* ================================================================== *)
(** ** Order laws of binary64 *)

Lemma finite_compare_swap (c : comparison) (sx sy : bool) (mx my : positive) (ex ey : Z) :
  SFcompare (S754_finite sx mx ex) (S754_finite sy my ey) = Some c ->
  SFcompare (S754_finite sy my ey) (S754_finite sx mx ex) = Some (CompOpp c).
Proof.
  unfold SFcompare.
  change (Pos.compare_cont Eq mx my) with (mx ?= my)%positive.
  change (Pos.compare_cont Eq my mx) with (my ?= mx)%positive.
  rewrite (Z.compare_antisym ex ey), (Pos.compare_antisym mx my).
  intros E; injection E as <-.
  destruct sx, sy, (ex ?= ey)%Z, (mx ?= my)%positive; reflexivity.
Qed.

Lemma SFcompare_swap (c : comparison) (x y : spec_float) :
  SFcompare x y = Some c -> SFcompare y x = Some (CompOpp c).
Proof.
  destruct x as [sx|sx| |sx mx ex], y as [sy|sy| |sy my ey];
    try apply finite_compare_swap;
    unfold SFcompare; intros E; try discriminate;
    injection E as <-;
    try destruct sx; try destruct sy; reflexivity.
Qed.

#[export] Instance ieee_laws : ArithLaws ieee.
Proof.
  split; intros a b; simpl; rewrite !ltb_spec, !leb_spec;
    unfold SFltb, SFleb.
  - destruct (SFcompare (Prim2SF a) (Prim2SF b)) as [[]|] eqn:E;
      try discriminate.
    intros _. now rewrite (SFcompare_swap _ _ E).
  - destruct (SFcompare (Prim2SF a) (Prim2SF b)) as [[]|] eqn:E;
      try discriminate; intros _.
    + now rewrite (SFcompare_swap _ _ E).
    + now rewrite (SFcompare_swap _ _ E).
Qed.

(** The decimal constants of the source, as [dec] builds them on doubles,
    are the doubles a C compiler reads them as. *)
Lemma ieee_constants :
  @dec ieee 1 4 = 1e-4%float /\ @dec ieee 1 5 = 1e-5%float /\
  @dec ieee 1 3 = 0.001%float /\ @dec ieee 25 2 = 0.25%float /\
  @dec ieee 1 1 = 0.1%float /\ @dec ieee 1 7 = 1e-7%float /\
  @dec ieee 1 2 = 0.01%float /\
  @of_int ieee (-2) = (-2)%float /\ @of_int ieee (-1) = (-1)%float /\
  @of_int ieee 90 = 90%float.
Proof. repeat split; reflexivity. Qed.

(* ================================================================== *)
(** ** findq: validation and the degenerate brackets *)

Section Findq.

Context {A : Arith} {E : Engine A} {N : Numpy E}.

Local Open Scope dbl_scope.

(** Past validation with a bracket whose ends disagree, [roche_findq]
    is its two probes followed by the loop. *)
Lemma roche_findq_runs_loop (fuel : nat) (iangle pwidth : double)
    (acc_arg dq_arg qlo_arg qhi_arg : option double)
    (lo hi : double) (t : list Event) :
  let acc := optional (dec 1 4) acc_arg in
  let dq := optional (dec 1 5) dq_arg in
  let qlo := optional (dec 1 3) qlo_arg in
  let qhi := optional (of_int 2) qhi_arg in
  findq_checks_pass iangle pwidth acc dq ->
  findq_blink iangle pwidth acc qlo <> findq_blink iangle pwidth acc qhi ->
  findq_loop fuel iangle (pwidth / of_int 2) Vec3_new acc dq qlo qhi
    = (Returns (lo, hi), t) ->
  roche_findq fuel iangle pwidth acc_arg dq_arg qlo_arg qhi_arg
    = (Returns (PyFloat ((lo + hi) / of_int 2)),
       findq_probe iangle pwidth acc qlo
         :: findq_probe iangle pwidth acc qhi :: t).
Proof.
  intros acc dq qlo qhi (H1 & H2 & H3 & H4) Hne Hloop.
  unfold roche_findq. fold acc dq qlo qhi.
  rewrite H1, H2, H3, H4.
  unfold findq_blink in Hne. unfold findq_probe, call, ret, bind.
  destruct (Roche_fblink qlo _ _ _ _ _ _), (Roche_fblink qhi _ _ _ _ _ _);
    try congruence; simpl; rewrite Hloop; simpl; now rewrite !app_nil_r.
Qed.

(** C1. With arguments that pass validation and any bracket: when the
    eclipse test is true at both ends of the bracket, [roche_findq]
    returns -2; when it is false at both ends, it returns -1.  Either way
    the only calls made are the two probes of the bracket ends, so no
    bisection step is taken (and no fuel is used). *)
Theorem findq_degenerate_bracket (fuel : nat) (iangle pwidth : double)
    (acc_arg dq_arg qlo_arg qhi_arg : option double) :
  let acc := optional (dec 1 4) acc_arg in
  let dq := optional (dec 1 5) dq_arg in
  let qlo := optional (dec 1 3) qlo_arg in
  let qhi := optional (of_int 2) qhi_arg in
  let probes := [findq_probe iangle pwidth acc qlo;
                 findq_probe iangle pwidth acc qhi] in
  findq_checks_pass iangle pwidth acc dq ->
  (findq_blink iangle pwidth acc qlo = true ->
   findq_blink iangle pwidth acc qhi = true ->
   roche_findq fuel iangle pwidth acc_arg dq_arg qlo_arg qhi_arg
     = (Returns (PyFloat (of_int (-2))), probes))
  /\
  (findq_blink iangle pwidth acc qlo = false ->
   findq_blink iangle pwidth acc qhi = false ->
   roche_findq fuel iangle pwidth acc_arg dq_arg qlo_arg qhi_arg
     = (Returns (PyFloat (of_int (-1))), probes)).
Proof.
  intros acc dq qlo qhi probes (H1 & H2 & H3 & H4).
  unfold roche_findq. fold acc dq qlo qhi.
  rewrite H1, H2, H3, H4.
  unfold findq_blink, probes, findq_probe, call, ret, bind.
  split; intros -> ->; reflexivity.
Qed.

(** The loop itself raises nothing: it ends with a bracket or it is still
    running when the fuel is spent. *)
Lemma findq_loop_outcome (fuel : nat) (iangle phi : double) (r : Vec3)
    (acc dq qlo qhi : double) :
  (exists b t, findq_loop fuel iangle phi r acc dq qlo qhi = (Returns b, t)) \/
  (exists t, findq_loop fuel iangle phi r acc dq qlo qhi = (Diverges, t)).
Proof.
  revert qlo qhi. induction fuel as [|fuel IH]; intros qlo qhi; simpl;
    unfold ret.
  - destruct (dq <? qhi - qlo); [right | left]; eauto.
  - destruct (dq <? qhi - qlo); [|left; eauto].
    unfold call, bind.
    destruct (Roche_fblink _ _ _ _ _ _ _).
    + destruct (IH qlo ((qlo + qhi) / of_int 2)) as [(b & t & ->)|(t & ->)];
        [left | right]; eauto.
    + destruct (IH ((qlo + qhi) / of_int 2) qhi) as [(b & t & ->)|(t & ->)];
        [left | right]; eauto.
Qed.

(** C8. [roche_findq] does not validate the bracket: an error it raises
    is raised, before any call, whatever bracket and fuel it is given, so
    it is never about [qlo] or [qhi] (which may be in any order and of any
    sign).  With arguments that pass validation, when [qhi - qlo <= dq]
    holds at the start and the eclipse test differs at the two ends, the
    loop body does not run: the only calls are the two probes and the
    result is the midpoint [(qlo+qhi)/2]. *)
Theorem findq_bracket_unchecked {L : ArithLaws A} (fuel : nat)
    (iangle pwidth : double) (acc_arg dq_arg qlo_arg qhi_arg : option double) :
  let acc := optional (dec 1 4) acc_arg in
  let dq := optional (dec 1 5) dq_arg in
  let qlo := optional (dec 1 3) qlo_arg in
  let qhi := optional (of_int 2) qhi_arg in
  findq_checks_pass iangle pwidth acc dq ->
  (forall fuel' qlo_arg' qhi_arg' e msg,
     outcome (roche_findq fuel' iangle pwidth acc_arg dq_arg qlo_arg' qhi_arg')
       <> Raises e msg)
  /\
  ((qhi - qlo <=? dq) = true ->
   findq_blink iangle pwidth acc qlo <> findq_blink iangle pwidth acc qhi ->
   roche_findq fuel iangle pwidth acc_arg dq_arg qlo_arg qhi_arg
     = (Returns (PyFloat ((qlo + qhi) / of_int 2)),
        [findq_probe iangle pwidth acc qlo;
         findq_probe iangle pwidth acc qhi])).
Proof.
  intros acc dq qlo qhi Hpass. split.
  - intros fuel' qlo_arg' qhi_arg' e msg.
    destruct Hpass as (H1 & H2 & H3 & H4).
    unfold roche_findq. fold acc dq. rewrite H1, H2, H3, H4.
    unfold call, ret, bind, outcome.
    destruct (Roche_fblink (optional (dec 1 3) qlo_arg') _ _ _ _ _ _),
             (Roche_fblink (optional (of_int 2) qhi_arg') _ _ _ _ _ _);
      simpl; try discriminate;
      match goal with
      | |- context [findq_loop ?f ?i ?p ?r ?a ?d ?l ?h] =>
          destruct (findq_loop_outcome f i p r a d l h)
            as [([lo hi] & t & ->)|(t & ->)]
      end; simpl; discriminate.
  - intros Hle Hne.
    apply roche_findq_runs_loop; trivial.
    fold acc dq qlo qhi.
    apply leb_not_ltb in Hle.
    destruct fuel; simpl; now rewrite Hle.
Qed.

End Findq.

(** A bracket given upside down and already narrower than [dq]. *)
Lemma findq_bracket_unchecked_witness :
  let E := stub_engine ieee (fun q => PrimFloat.ltb 1.5 q) None None in
  @findq_checks_pass ieee (of_int 80) (dec 1 1) (dec 1 4) (dec 1 5) /\
  @roche_findq ieee E 0 (of_int 80) (dec 1 1) None None
     (Some 2%float) (Some 1%float)
    = (Returns (PyFloat 1.5%float),
       [Call_fblink (E := E) 2%float 80%float 0.05%float
          (0, 0, 0)%float SECONDARY 1%float 0.0001%float;
        Call_fblink (E := E) 1%float 80%float 0.05%float
          (0, 0, 0)%float SECONDARY 1%float 0.0001%float]).
Proof.
  intros E.
  assert (H : @findq_checks_pass ieee (of_int 80) (dec 1 1) (dec 1 4) (dec 1 5))
    by (repeat split; vm_compute; reflexivity).
  split; [exact H|].
  refine (proj2 (@findq_bracket_unchecked ieee E ieee_laws 0 (of_int 80) (dec 1 1)
                   None None (Some 2%float) (Some 1%float) H) eq_refl _).
  vm_compute. discriminate.
Defined.

(** Always eclipsed: both ends of the default bracket are eclipsed. *)
Lemma findq_degenerate_bracket_witness :
  let E := stub_engine ieee (fun _ => true) None None in
  @findq_checks_pass ieee (of_int 80) (dec 1 1) (dec 1 4) (dec 1 5) /\
  @roche_findq ieee E 0 (of_int 80) (dec 1 1) None None None None
    = (Returns (PyFloat (-2)%float),
       [Call_fblink (E := E) 0.001%float 80%float 0.05%float
          (0, 0, 0)%float SECONDARY 1%float 0.0001%float;
        Call_fblink (E := E) 2%float 80%float 0.05%float
          (0, 0, 0)%float SECONDARY 1%float 0.0001%float]).
Proof.
  intros E.
  assert (H : @findq_checks_pass ieee (of_int 80) (dec 1 1) (dec 1 4) (dec 1 5))
    by (repeat split; vm_compute; reflexivity).
  split; [exact H|].
  exact (proj1 (@findq_degenerate_bracket ieee E 0 (of_int 80) (dec 1 1)
                  None None None None H) eq_refl eq_refl).
Defined.
(* ================================================================== *)
(** ** findq: default arguments *)

(** C9. A call of [roche_findq] on doubles that omits the optional
    arguments and passes the checks of [iangle] and [pwidth] is not
    rejected: the defaults [acc = 1e-4] and [dq = 1e-5] pass their range
    checks.  Its first two calls are the eclipse tests at [qlo = 0.001] and
    at [qhi = 2.0], both with [acc = 1e-4]; when the two tests agree
    nothing else is called and -2 or -1 is returned, otherwise the loop
    runs on the bracket [0.001, 2.0] with [dq = 1e-5] and [acc = 1e-4], and
    the midpoint of the bracket it ends on is returned.  The docstring of
    the method table advertises [qlo=0.005] instead.  The difference shows
    on a test that is true above 0.003: the call without arguments takes 18
    bisection steps and returns a value within 1e-5 of 0.003, the call
    with the advertised [qlo = 0.005] returns -2. *)
Theorem findq_defaults (E : Engine ieee) (fuel : nat) (iangle pwidth : float) :
  let omitted := @roche_findq ieee E fuel iangle pwidth None None None None in
  let phi := (pwidth / 2)%float in
  let probe := fun q : float =>
    Call_fblink q iangle phi Vec3_new SECONDARY 1%float 1e-4%float in
  let eclipsed := fun q : float =>
    Roche_fblink q iangle phi Vec3_new SECONDARY 1%float 1e-4%float in
  let loop :=
    @findq_loop ieee E fuel iangle phi Vec3_new 1e-4%float 1e-5%float
      0.001%float 2%float in
  (iangle <=? 0)%float || (90 <? iangle)%float = false ->
  (pwidth <=? 0)%float || (0.25 <? pwidth)%float = false ->
  (trace omitted
   = probe 0.001%float :: probe 2%float
       :: (if Bool.eqb (eclipsed 0.001%float) (eclipsed 2%float)
           then [] else trace loop))
  /\
  (outcome omitted
   = if eclipsed 0.001%float && eclipsed 2%float
     then Returns (PyFloat (-2)%float)
     else if negb (eclipsed 0.001%float) && negb (eclipsed 2%float)
     then Returns (PyFloat (-1)%float)
     else match outcome loop with
          | Returns (lo, hi) => Returns (PyFloat ((lo + hi) / 2)%float)
          | Raises e msg => Raises e msg
          | Null => Null
          | Diverges => Diverges
          end)
  /\
  (exists doc, docstring "findq" RocheMethods = Some doc /\
               contains doc "qlo=0.005" = true /\
               contains doc "qlo=0.001" = false)
  /\
  (let E' := stub_engine ieee (fun q => PrimFloat.ltb 0.003 q) None None in
   (exists (q : float) (t : list Event),
      @roche_findq ieee E' 20 80%float 0.1%float None None None None
        = (Returns (PyFloat q), t) /\
      (0.00299 <? q)%float = true /\ (q <? 0.00301)%float = true /\
      List.length t = 20%nat) /\
   outcome (@roche_findq ieee E' 20 80%float 0.1%float None None
              (Some 0.005%float) None)
     = Returns (PyFloat (-2)%float)).
Proof.
  intros omitted phi probe eclipsed loop Hi Hp.
  assert (Hrun : omitted
    = if eclipsed 0.001%float && eclipsed 2%float
      then (Returns (PyFloat (-2)%float), [probe 0.001%float; probe 2%float])
      else if negb (eclipsed 0.001%float) && negb (eclipsed 2%float)
      then (Returns (PyFloat (-1)%float), [probe 0.001%float; probe 2%float])
      else (match outcome loop with
            | Returns (lo, hi) => Returns (PyFloat ((lo + hi) / 2)%float)
            | Raises e msg => Raises e msg
            | Null => Null
            | Diverges => Diverges
            end, probe 0.001%float :: probe 2%float :: trace loop)).
  { unfold omitted, roche_findq, optional.
    change (@leb ieee iangle (@of_int ieee 0)) with (iangle <=? 0)%float.
    change (@ltb ieee (@of_int ieee 90) iangle) with (90 <? iangle)%float.
    change (@leb ieee pwidth (@of_int ieee 0)) with (pwidth <=? 0)%float.
    change (@ltb ieee (@dec ieee 25 2) pwidth) with (0.25 <? pwidth)%float.
    rewrite Hi, Hp.
    change (@leb ieee (@dec ieee 1 4) (@of_int ieee 0)) with false.
    change (@ltb ieee (@dec ieee 1 1) (@dec ieee 1 4)) with false.
    change (@leb ieee (@dec ieee 1 5) (@of_int ieee 0)) with false.
    change (@ltb ieee (@dec ieee 1 1) (@dec ieee 1 5)) with false.
    cbn [orb].
    change (@dec ieee 1 4) with 1e-4%float.
    change (@dec ieee 1 5) with 1e-5%float.
    change (@dec ieee 1 3) with 0.001%float.
    change (@of_int ieee 2) with 2%float.
    change (@of_int ieee 1) with 1%float.
    change (@of_int ieee (-2)) with (-2)%float.
    change (@of_int ieee (-1)) with (-1)%float.
    change (@div ieee pwidth 2%float) with phi.
    fold loop.
    unfold call, bind, ret. fold (probe 0.001%float) (probe 2%float).
    fold (eclipsed 0.001%float) (eclipsed 2%float).
    destruct (eclipsed 0.001%float), (eclipsed 2%float); cbn;
      try reflexivity;
      destruct loop as [[[lo hi]| | |] t]; cbn; rewrite ?app_nil_r;
      reflexivity. }
  split; [|split; [|split]].
  - rewrite Hrun.
    destruct (eclipsed 0.001%float), (eclipsed 2%float); reflexivity.
  - rewrite Hrun.
    destruct (eclipsed 0.001%float), (eclipsed 2%float); reflexivity.
  - eexists. repeat split; reflexivity.
  - split; [|vm_compute; reflexivity].
    eexists. eexists. split; [vm_compute; reflexivity|].
    repeat split; vm_compute; reflexivity.
Qed.

(** The defaults on a test that is true above 0.003. *)
Lemma findq_defaults_witness :
  let E := stub_engine ieee (fun q => PrimFloat.ltb 0.003 q) None None in
  let omitted := @roche_findq ieee E 20 80%float 0.1%float None None None None in
  let probe := fun q : float =>
    Call_fblink (E := E) q 80%float 0.05%float (0, 0, 0)%float SECONDARY
      1%float 1e-4%float in
  trace omitted
    = probe 0.001%float :: probe 2%float
        :: trace (@findq_loop ieee E 20 80%float 0.05%float (0, 0, 0)%float
                    1e-4%float 1e-5%float 0.001%float 2%float)
  /\
  outcome omitted
    = match outcome (@findq_loop ieee E 20 80%float 0.05%float (0, 0, 0)%float
                       1e-4%float 1e-5%float 0.001%float 2%float) with
      | Returns (lo, hi) => Returns (PyFloat ((lo + hi) / 2)%float)
      | Raises e msg => Raises e msg
      | Null => Null
      | Diverges => Diverges
      end.
Proof.
  intros E omitted probe.
  pose proof (@findq_defaults E 20 80%float 0.1%float eq_refl eq_refl)
    as (Ht & Ho & _).
  exact (conj Ht Ho).
Defined.

(* ================================================================== *)
(** ** Boundary values of the validation *)

Section Boundary.

Context {E : Engine ieee} {N : Numpy E}.

Lemma raise_rejected {T : Type} (msg : string) :
  rejected (raise (T := T) PyExc_ValueError msg).
Proof. now exists msg. Qed.

(** Decide the range checks one after the other, in the order of the
    source. *)
Ltac run_checks :=
  repeat match goal with
         | |- rejected (raise _ _) => apply raise_rejected
         | |- rejected (if ?c then _ else _) =>
             let b := eval vm_compute in c in
             match b with
             | true => change c with true; cbv iota
             | false => change c with false; cbv iota
             end
         | |- rejected (if ?c || _ then _ else _) =>
             destruct c; simpl orb; cbv iota
         | |- rejected (if ?c then _ else _) => destruct c
         end.

(** C5. The boundary values of the specification are rejected with
    ValueError before the engine or the allocator is called: a lobe
    boundary of [n = 1] points; an eclipse test at inclination 0 and at
    inclination 91; a velocity-space stream with [step = 1.0]; a mass-ratio
    inversion with [acc = 0.2]. *)
Theorem boundary_literals_rejected :
  (forall q, rejected (roche_lobe1 q (Some 1%Z)) /\
             rejected (roche_lobe2 q (Some 1%Z)))
  /\
  (forall q phi x y z ffac acc star,
     rejected (roche_fblink q (of_int 0) phi x y z ffac acc star))
  /\
  (forall q phi x y z ffac acc star,
     rejected (roche_fblink q (of_int 91) phi x y z ffac acc star))
  /\
  (forall q stype n,
     rejected (roche_vstream q (Some (of_int 1)) stype n))
  /\
  (forall fuel iangle pwidth dq qlo qhi,
     rejected (roche_findq fuel iangle pwidth (Some (dec 2 1)) dq qlo qhi)).
Proof.
  repeat split; intros.
  - unfold roche_lobe1, optional. run_checks.
  - unfold roche_lobe2, optional. run_checks.
  - unfold roche_fblink. run_checks.
  - unfold roche_fblink. run_checks.
  - unfold roche_vstream, optional. run_checks.
  - unfold roche_findq, optional. run_checks.
Qed.

End Boundary.

(* ================================================================== *)
(** ** Output arrays *)

Lemma length_store {T : Type} (data : list T) (off : nat) (vals : list T) :
  List.length (store data off vals) = List.length data.
Proof.
  revert off vals. induction data as [|d ds IH]; intros off vals; simpl.
  - reflexivity.
  - destruct off as [|k]; [destruct vals as [|v vs]|]; simpl;
      now rewrite ?IH.
Qed.

Section Arrays.

Context {A : Arith} {L : ArithLaws A} {E : Engine A} {N : Numpy E}.

Local Open Scope dbl_scope.

Lemma length_fill (n : Z) (xy : list cfloat * list cfloat) :
  (0 <= n)%Z ->
  List.length (fill (map fresh_cell (seq 0 (Z.to_nat (2 * n)))) n xy)
    = (2 * Z.to_nat n)%nat.
Proof.
  intros Hn. unfold fill.
  rewrite !length_store, length_map, length_seq. lia.
Qed.

Lemma length_pairs (n : Z) (data : list cfloat) :
  List.length data = (2 * Z.to_nat n)%nat -> List.length (pairs n data) = Z.to_nat n.
Proof.
  intros H. unfold pairs.
  rewrite length_combine, length_firstn, length_skipn. lia.
Qed.

Lemma SimpleNew_spec (n : Z) :
  SimpleNew_ok [2%Z; n] = true ->
  PyArray_SimpleNew [2%Z; n]
    = (Returns (Some (map fresh_cell (seq 0 (Z.to_nat (2 * n))))),
       [Call_SimpleNew [2%Z; n]]).
Proof.
  intros H. unfold PyArray_SimpleNew, call. rewrite H.
  simpl fold_right. now rewrite Z.mul_1_r.
Qed.

Lemma filled_array (n : Z) (ev : Event) (xy : list cfloat * list cfloat) :
  (2 <= n)%Z ->
  returns_2_by_n n ev xy
    (Returns
       (PyArray [2%Z; n] (fill (map fresh_cell (seq 0 (Z.to_nat (2 * n)))) n xy)),
     [Call_SimpleNew [2%Z; n]; ev]).
Proof.
  intros Hn. eexists. split; [reflexivity|]. split; [reflexivity|].
  assert (Hl := @length_fill n xy ltac:(lia)).
  split; [exact Hl | now apply length_pairs].
Qed.

Ltac into_array Hq Hn Hok :=
  rewrite ?(ltb_not_leb _ _ Hq); rewrite (proj2 (Z.ltb_ge _ _) Hn);
  unfold bind; rewrite (SimpleNew_spec _ Hok); unfold call, ret.

(** C6. For [q > 0] and [n >= 2] (and, where the operation has them, a
    stream extent in [0, 1], a step in (0, 1) and an integration that does
    not throw), with the allocation succeeding: the lobe, velocity-space
    lobe, stream and velocity-space stream operations return a 2-by-[n]
    array of exactly [n] coordinate pairs, allocated with dimensions
    {2, n} before the engine is called to fill it. *)
Theorem arrays_hold_n_pairs (q : double) (n : Z) :
  (of_int 0 <? q) = true -> (2 <= n)%Z -> SimpleNew_ok [2%Z; n] = true ->
  returns_2_by_n n (Call_lobe1 q n) (Roche_lobe1 q n) (roche_lobe1 q (Some n))
  /\
  returns_2_by_n n (Call_lobe2 q n) (Roche_lobe2 q n) (roche_lobe2 q (Some n))
  /\
  returns_2_by_n n (Call_vlobe1 q n) (Roche_vlobe1 q n) (roche_vlobe1 q (Some n))
  /\
  returns_2_by_n n (Call_vlobe2 q n) (Roche_vlobe2 q n) (roche_vlobe2 q (Some n))
  /\
  (forall rad,
     (of_int 0 <=? rad) = true -> (rad <=? of_int 1) = true ->
     returns_2_by_n n (Call_streamr q rad n) (Roche_streamr q rad n)
       (roche_stream q rad (Some n)))
  /\
  (forall step stype xy,
     (of_int 0 <? step) = true -> (step <? of_int 1) = true ->
     Roche_vstrreg q step n stype = inr xy ->
     returns_2_by_n n (Call_vstrreg q step n stype) xy
       (roche_vstream q (Some step) (Some stype) (Some n))).
Proof.
  intros Hq Hn Hok. repeat split.
  - unfold roche_lobe1, optional. into_array Hq Hn Hok.
    now apply filled_array.
  - unfold roche_lobe2, optional. into_array Hq Hn Hok.
    now apply filled_array.
  - unfold roche_vlobe1, optional. into_array Hq Hn Hok.
    now apply filled_array.
  - unfold roche_vlobe2, optional. into_array Hq Hn Hok.
    now apply filled_array.
  - intros rad H0 H1. unfold roche_stream, optional.
    rewrite (leb_not_ltb _ _ H0), (leb_not_ltb _ _ H1). simpl orb.
    into_array Hq Hn Hok. now apply filled_array.
  - intros step stype xy H0 H1 Hxy. unfold roche_vstream, optional.
    rewrite (ltb_not_leb _ _ H0), (ltb_not_leb _ _ H1). simpl orb.
    replace ((stype <? 1)%Z && (stype >? 2)%Z) with false
      by (symmetry; apply andb_false_iff; lia).
    into_array Hq Hn Hok. rewrite Hxy. now apply filled_array.
Qed.

End Arrays.

(* ================================================================== *)
(** ** strmnx: the n-th turning point *)

Section TurningPoint.

Context {A : Arith} {L : ArithLaws A} {E : Engine A}.

Local Open Scope dbl_scope.

Lemma length_search_starts (k : nat) (q acc : double) (rv : Vec3 * Vec3) :
  List.length (search_starts k q acc rv) = k.
Proof.
  revert rv. induction k as [|k IH]; intros rv; simpl; now rewrite ?IH.
Qed.

Lemma strmnx_loop_spec (k : nat) (q acc : double) (r v : Vec3) :
  strmnx_loop k q r v acc
    = (Returns (Nat.iter k (search q acc) (r, v)),
       map (search_call q acc) (search_starts k q acc (r, v))).
Proof.
  revert r v. induction k as [|k IH]; intros r v.
  - reflexivity.
  - rewrite Nat.iter_succ_r. cbn [strmnx_loop search_starts map].
    unfold call, bind.
    destruct (Roche_strmnx q r v acc) as [r' v'] eqn:Hs.
    rewrite IH.
    replace (search q acc (r, v)) with (r', v')
      by (symmetry; exact Hs).
    reflexivity.
Qed.

(** C7. For [q >= 0], [n >= 1] and [acc > 0], [roche_strmnx] starts from
    the state set by [Roche::strinit], applies the turning-point search
    [Roche::strmnx] exactly [n] times, each from the state the previous
    one left (so [n = 1] is one search: the first turning point), and
    returns the final position with the final velocity passed through
    [Roche::vtrans] once for star 1 and once for star 2. *)
Theorem strmnx_nth_turning_point (q : double) (n : Z) (acc : double) :
  (of_int 0 <=? q) = true -> (1 <= n)%Z -> (of_int 0 <? acc) = true ->
  let start := Roche_strinit q Vec3_new Vec3_new in
  let final := Nat.iter (Z.to_nat n) (search q acc) start in
  let r := fst final in
  let v := snd final in
  let tv1 := Roche_vtrans q 1 (Vec3_x r) (Vec3_y r) (Vec3_x v) (Vec3_y v) in
  let tv2 := Roche_vtrans q 2 (Vec3_x r) (Vec3_y r) (Vec3_x v) (Vec3_y v) in
  let searches := search_starts (Z.to_nat n) q acc start in
  roche_strmnx q (Some n) (Some acc)
    = (Returns (PyTuple [Vec3_x r; Vec3_y r; fst tv1; snd tv1; fst tv2; snd tv2]),
       Call_strinit q Vec3_new Vec3_new
         :: map (search_call q acc) searches
         ++ [Call_vtrans q 1 (Vec3_x r) (Vec3_y r) (Vec3_x v) (Vec3_y v);
             Call_vtrans q 2 (Vec3_x r) (Vec3_y r) (Vec3_x v) (Vec3_y v)])
  /\ List.length searches = Z.to_nat n
  /\ (n = 1%Z -> final = search q acc start).
Proof.
  intros Hq Hn Hacc start final r v tv1 tv2 searches.
  split; [|split].
  - unfold roche_strmnx, optional.
    rewrite (leb_not_ltb _ _ Hq), (ltb_not_leb _ _ Hacc),
      (proj2 (Z.ltb_ge _ _) Hn).
    unfold call, bind at 1. fold start.
    destruct start as [r0 v0] eqn:Hstart.
    unfold bind at 1. rewrite strmnx_loop_spec.
    fold final searches.
    destruct final as [rf vf] eqn:Hfinal.
    subst r v; simpl fst in *; simpl snd in *.
    unfold bind, ret. fold tv1 tv2.
    destruct tv1, tv2. reflexivity.
  - apply length_search_starts.
  - intros ->. reflexivity.
Qed.

End TurningPoint.

(* ================================================================== *)
(** ** vstream and ineg: what is checked and what is raised *)

Section Errors.

Context {A : Arith} {L : ArithLaws A} {E : Engine A} {N : Numpy E}.

Local Open Scope string_scope.
Local Open Scope dbl_scope.

Lemma stype_check_never_fires (stype : Z) :
  (stype <? 1)%Z && (stype >? 2)%Z = false.
Proof. apply andb_false_iff. lia. Qed.

(** C3 (what the code does). For [q > 0], [0 < step < 1] and [n >= 2],
    [roche_vstream] rejects no stream type: whatever [stype] is, in
    particular outside {1, 2}, the array is allocated and
    [Roche::vstrreg] is called with that [stype]. *)
Theorem vstream_stype_unchecked (q step : double) (stype n : Z) :
  (of_int 0 <? q) = true ->
  (of_int 0 <? step) = true -> (step <? of_int 1) = true ->
  (2 <= n)%Z ->
  roche_vstream q (Some step) (Some stype) (Some n)
    = (if SimpleNew_ok [2%Z; n]
       then
         match Roche_vstrreg q step n stype with
         | inl err =>
             (Raises PyExc_ValueError ("roche.vstream: " ++ err),
              [Call_SimpleNew [2%Z; n]; Call_vstrreg q step n stype])
         | inr xy =>
             (Returns
                (PyArray [2%Z; n]
                   (fill (map fresh_cell
                            (seq 0 (Z.to_nat (fold_right Z.mul 1%Z [2%Z; n]))))
                      n xy)),
              [Call_SimpleNew [2%Z; n]; Call_vstrreg q step n stype])
         end
       else (Null, [Call_SimpleNew [2%Z; n]]))
  /\ ~ rejected (roche_vstream q (Some step) (Some stype) (Some n)).
Proof.
  intros Hq H0 H1 Hn.
  assert (Hrun : roche_vstream q (Some step) (Some stype) (Some n)
                 = bind (PyArray_SimpleNew [2%Z; n])
                     (fun v =>
                        match v with
                        | None => (Null, [])
                        | Some data =>
                            bind (call (Call_vstrreg q step n stype)
                                    (Roche_vstrreg q step n stype))
                              (fun res =>
                                 match res with
                                 | inl err =>
                                     raise PyExc_ValueError
                                       ("roche.vstream: " ++ err)
                                 | inr xy => ret (PyArray [2%Z; n] (fill data n xy))
                                 end)
                        end)).
  { unfold roche_vstream, optional.
    rewrite (ltb_not_leb _ _ Hq), (ltb_not_leb _ _ H0), (ltb_not_leb _ _ H1),
      stype_check_never_fires, (proj2 (Z.ltb_ge _ _) Hn).
    reflexivity. }
  rewrite Hrun. unfold PyArray_SimpleNew, call, bind, raise, ret.
  split.
  - destruct (SimpleNew_ok [2%Z; n]); [|reflexivity].
    destruct (Roche_vstrreg q step n stype); reflexivity.
  - intros [msg Hrej].
    destruct (SimpleNew_ok [2%Z; n]);
      [destruct (Roche_vstrreg q step n stype)|]; discriminate.
Qed.

(** C4, as the code has it. Every error of [roche_ineg] and of
    [roche_vstream] is a ValueError, the domain errors included: a point
    that is never eclipsed raises ValueError with the message
    "roche.ineg: point is not eclipsed", after the engine was called; a
    failed integration raises ValueError with "roche.vstream: " followed
    by the engine's message; an argument check raises ValueError, before
    any call, with one of the messages above.  The kind is the same; the
    not-eclipsed message is none of the argument messages of
    [roche_ineg]. *)
Theorem domain_errors_are_value_errors :
  (forall q iangle x y z ffac delta star e msg,
     outcome (roche_ineg q iangle x y z ffac delta star) = Raises e msg ->
     e = PyExc_ValueError /\
     ((In msg ineg_argument_messages /\
       trace (roche_ineg q iangle x y z ffac delta star) = [])
      \/
      (msg = "roche.ineg: point is not eclipsed" /\
       exists ffac' r delta' s,
         Roche_ingress_egress q ffac' iangle r delta' s = None /\
         trace (roche_ineg q iangle x y z ffac delta star)
           = [Call_ingress_egress q ffac' iangle r delta' s])))
  /\
  ~ In "roche.ineg: point is not eclipsed" ineg_argument_messages
  /\
  (forall q step stype n e msg,
     outcome (roche_vstream q step stype n) = Raises e msg ->
     e = PyExc_ValueError /\
     ((In msg vstream_argument_messages /\
       trace (roche_vstream q step stype n) = [])
      \/
      (exists step' n' stype' err,
         Roche_vstrreg q step' n' stype' = inl err /\
         msg = "roche.vstream: " ++ err /\
         trace (roche_vstream q step stype n)
           = [Call_SimpleNew [2%Z; n']; Call_vstrreg q step' n' stype']))).
Proof.
  split; [|split].
  - intros q iangle x y z ffac delta star e msg.
    unfold roche_ineg, outcome, trace, call, bind, raise, ret.
    intros H.
    repeat match type of H with
           | context [if ?c then _ else _] =>
               destruct c eqn:?; simpl in H |- *
           end;
      try (injection H as <- <-; split; [reflexivity|];
           left; split; [simpl; tauto | reflexivity]).
    all: destruct (Roche_ingress_egress _ _ _ _ _ _) as [[i o]|] eqn:Hie;
      simpl in H |- *; [discriminate|].
    all: injection H as <- <-; split; [reflexivity|].
    all: right; split; [reflexivity|]; eauto 8.
  - simpl. intros H.
    repeat (destruct H as [H|H]; [discriminate|]). exact H.
  - intros q step stype n e msg.
    unfold roche_vstream, PyArray_SimpleNew, outcome, trace, call, bind,
      raise, ret.
    intros H.
    repeat match type of H with
           | context [if ?c then _ else _] =>
               destruct c eqn:?; simpl in H |- *
           end;
      try discriminate;
      try (injection H as <- <-; split; [reflexivity|];
           left; split; [simpl; tauto | reflexivity]).
    all: destruct (Roche_vstrreg _ _ _ _) as [err|xy] eqn:Hv;
      simpl in H |- *; [|discriminate].
    all: injection H as <- <-; split; [reflexivity|].
    all: right; eauto 8.
Qed.

End Errors.

(* ================================================================== *)
(** ** findq: the bisection *)

Section FindqFuel.

Context {A : Arith} {E : Engine A}.

Local Open Scope dbl_scope.

(** Fuel is only a bound on the model: a loop that ended ends the same way
    with more of it. *)
Lemma findq_loop_more_fuel (fuel fuel' : nat) (iangle phi : double) (r : Vec3)
    (acc dq qlo qhi : double) (b : double * double) (t : list Event) :
  findq_loop fuel iangle phi r acc dq qlo qhi = (Returns b, t) ->
  (fuel <= fuel')%nat ->
  findq_loop fuel' iangle phi r acc dq qlo qhi = (Returns b, t).
Proof.
  revert fuel' qlo qhi b t.
  induction fuel as [|fuel IH]; intros fuel' qlo qhi b t Hrun Hle.
  - simpl in Hrun. destruct (dq <? qhi - qlo) eqn:Hg; [discriminate|].
    destruct fuel'; simpl; now rewrite Hg.
  - destruct fuel' as [|fuel']; [lia|].
    simpl in Hrun |- *. destruct (dq <? qhi - qlo); [|exact Hrun].
    unfold call, bind in Hrun |- *.
    destruct (Roche_fblink _ _ _ _ _ _ _).
    + destruct (findq_loop fuel _ _ _ _ _ qlo _) as [[v| | |] t0] eqn:Hrec;
        try discriminate.
      rewrite (IH fuel' _ _ _ _ Hrec ltac:(lia)). exact Hrun.
    + destruct (findq_loop fuel _ _ _ _ _ _ qhi) as [[v| | |] t0] eqn:Hrec;
        try discriminate.
      rewrite (IH fuel' _ _ _ _ Hrec ltac:(lia)). exact Hrun.
Qed.


(** The loop is written for a test that is false at the lower end and
    true at the upper end: it keeps the bracket that way, whatever the
    arithmetic, and leaves only when [qhi - qlo > dq] is false. *)
Lemma findq_loop_invariant (fuel : nat) (iangle pwidth acc dq : double)
    (qlo qhi lo hi : double) (t : list Event) :
  findq_blink iangle pwidth acc qlo = false ->
  findq_blink iangle pwidth acc qhi = true ->
  findq_loop fuel iangle (pwidth / of_int 2) Vec3_new acc dq qlo qhi
    = (Returns (lo, hi), t) ->
  findq_blink iangle pwidth acc lo = false /\
  findq_blink iangle pwidth acc hi = true /\
  (dq <? hi - lo) = false.
Proof.
  revert qlo qhi t. induction fuel as [|fuel IH]; intros qlo qhi t Hlo Hhi;
    simpl; destruct (dq <? qhi - qlo) eqn:Hg; try discriminate;
    try (unfold ret; intros [= <- <- <-]; auto).
  unfold call, bind.
  destruct (Roche_fblink ((qlo + qhi) / of_int 2) _ _ _ _ _ _) eqn:Hm.
  - destruct (findq_loop fuel _ _ _ _ _ qlo _) as [[v| | |] t0] eqn:Hrec;
      try discriminate.
    intros [= -> <-]. now apply (IH _ _ _ Hlo Hm Hrec).
  - destruct (findq_loop fuel _ _ _ _ _ _ qhi) as [[v| | |] t0] eqn:Hrec;
      try discriminate.
    intros [= -> <-]. now apply (IH _ _ _ Hm Hhi Hrec).
Qed.

(** Conversely, a loop that is still running was running with less
    fuel. *)
Lemma findq_loop_less_fuel (fuel fuel' : nat) (iangle phi : double) (r : Vec3)
    (acc dq qlo qhi : double) :
  outcome (findq_loop fuel' iangle phi r acc dq qlo qhi) = Diverges ->
  (fuel <= fuel')%nat ->
  outcome (findq_loop fuel iangle phi r acc dq qlo qhi) = Diverges.
Proof.
  intros Hdiv Hle.
  destruct (findq_loop_outcome fuel iangle phi r acc dq qlo qhi)
    as [(b & t & Hrun)|(t & Hrun)].
  - rewrite (findq_loop_more_fuel _ _ _ _ _ _ _ Hrun Hle) in Hdiv.
    discriminate.
  - now rewrite Hrun.
Qed.

(** [n] passes of the loop use [n] units of fuel. *)
Lemma findq_loop_advance (n k : nat) (iangle pwidth acc dq : double)
    (s s' : double * double) :
  findq_advance n iangle pwidth acc dq s = Some s' ->
  outcome (findq_loop (n + k) iangle (pwidth / of_int 2) Vec3_new acc dq
             (fst s) (snd s))
  = outcome (findq_loop k iangle (pwidth / of_int 2) Vec3_new acc dq
               (fst s') (snd s')).
Proof.
  revert s. induction n as [|n IH]; intros s; simpl.
  - now intros [= ->].
  - destruct (dq <? snd s - fst s); [|discriminate].
    intros Hadv. rewrite <- (IH _ Hadv).
    unfold findq_next, findq_blink, call, bind.
    destruct (Roche_fblink ((fst s + snd s) / of_int 2) _ _ _ _ _ _); simpl;
      match goal with
      | |- context [findq_loop ?f ?i ?p ?r ?a ?d ?l ?h] =>
          destruct (findq_loop f i p r a d l h) as [[v| | |] t]
      end; reflexivity.
Qed.

(** A bracket that a pass of the loop leaves as it is, while the loop
    condition holds, is never left. *)
Lemma findq_loop_stuck (fuel : nat) (iangle pwidth acc dq : double)
    (s : double * double) :
  (dq <? snd s - fst s) = true ->
  findq_next iangle pwidth acc s = s ->
  outcome (findq_loop fuel iangle (pwidth / of_int 2) Vec3_new acc dq
             (fst s) (snd s)) = Diverges.
Proof.
  intros Hg Hfix. induction fuel as [|fuel IH]; simpl; rewrite Hg.
  - reflexivity.
  - unfold findq_next, findq_blink in Hfix. unfold call, bind.
    destruct (Roche_fblink ((fst s + snd s) / of_int 2) _ _ _ _ _ _);
      rewrite <- Hfix in IH at 1 2; simpl in IH;
      match goal with
      | |- context [findq_loop ?f ?i ?p ?r ?a ?d ?l ?h] =>
          destruct (findq_loop f i p r a d l h) as [[v| | |] t]
      end; simpl in IH |- *; congruence.
Qed.

(** [roche_findq] runs as long as its loop does. *)
Lemma roche_findq_diverges (fuel : nat) (iangle pwidth : double)
    (acc_arg dq_arg qlo_arg qhi_arg : option double) :
  let acc := optional (dec 1 4) acc_arg in
  let dq := optional (dec 1 5) dq_arg in
  let qlo := optional (dec 1 3) qlo_arg in
  let qhi := optional (of_int 2) qhi_arg in
  findq_checks_pass iangle pwidth acc dq ->
  findq_blink iangle pwidth acc qlo <> findq_blink iangle pwidth acc qhi ->
  outcome (findq_loop fuel iangle (pwidth / of_int 2) Vec3_new acc dq qlo qhi)
    = Diverges ->
  outcome (roche_findq fuel iangle pwidth acc_arg dq_arg qlo_arg qhi_arg)
    = Diverges.
Proof.
  intros acc dq qlo qhi (H1 & H2 & H3 & H4) Hne.
  unfold roche_findq. fold acc dq qlo qhi.
  rewrite H1, H2, H3, H4.
  unfold findq_blink in Hne. unfold call, ret, bind, outcome.
  destruct (Roche_fblink qlo _ _ _ _ _ _), (Roche_fblink qhi _ _ _ _ _ _);
    try congruence; simpl;
    destruct (findq_loop fuel _ _ _ _ _ qlo qhi) as [[v| | |] t];
    simpl; congruence.
Qed.

End FindqFuel.

(** *** Convergence, on doubles *)

(** The bisection is followed on doubles through [SpecFloat], the
    specification of Rocq's primitive floats.  A positive finite double is
    taken as its [value], a whole number of units of [2^-1074]; the sum
    and the difference of two doubles are the sum and the difference of
    their values rounded to 53 bits ([rnd53]); halving is exact except on
    the smallest exponent, where it rounds to a whole number of units. *)

Ltac splits := repeat match goal with |- _ /\ _ => split end.

Unset Implicit Arguments.

Section Binary64Rounding.

Local Open Scope Z_scope.

(** **** Rounding an integer to 53 bits *)

Lemma RNE_bounds (q r h : Z) : q <= RNE q r h <= q + 1.
Proof.
  unfold RNE. destruct (r <? h), (r =? h), (Z.even q); lia.
Qed.

(** [digits v] is the number of binary digits of a positive [v]. *)
Lemma digits_spec (v : Z) : 0 < v -> 2 ^ (digits v - 1) <= v < 2 ^ digits v.
Proof.
  intros Hv. unfold digits. replace (Z.log2 v + 1 - 1) with (Z.log2 v) by lia.
  replace (Z.log2 v + 1) with (Z.succ (Z.log2 v)) by lia.
  apply Z.log2_spec. exact Hv.
Qed.

Lemma digits_pos (v : Z) : 0 < v -> 0 < digits v.
Proof. intros Hv. unfold digits. pose proof (Z.log2_nonneg v). lia. Qed.

Lemma digits_unique (v d : Z) :
  0 < v -> 2 ^ (d - 1) <= v < 2 ^ d -> digits v = d.
Proof.
  intros Hv H. unfold digits.
  assert (0 <= d - 1).
  { destruct (Z.le_gt_cases 0 (d - 1)) as [?|Hneg]; trivial.
    assert (d <= 0) by lia.
    assert (2 ^ d <= 1).
    { destruct (Z.eq_dec d 0) as [->|]; [simpl; lia|].
      rewrite Z.pow_neg_r by lia. lia. }
    lia. }
  rewrite (Z.log2_unique v (d - 1)); try lia.
  replace (Z.succ (d - 1)) with d by lia. exact H.
Qed.

Lemma digits_scale (v t : Z) :
  0 < v -> 0 <= t -> digits (v * 2 ^ t) = digits v + t.
Proof.
  intros Hv Ht. pose proof (digits_spec v Hv) as [H1 H2].
  pose proof (digits_pos v Hv).
  assert (0 < 2 ^ t) by (apply Z.pow_pos_nonneg; lia).
  apply digits_unique; [nia|].
  replace (digits v + t - 1) with ((digits v - 1) + t) by lia.
  rewrite !Z.pow_add_r by lia. nia.
Qed.

Lemma digits_mono (v w : Z) : 0 < v -> v <= w -> digits v <= digits w.
Proof.
  intros Hv Hvw. unfold digits. pose proof (Z.log2_le_mono v w Hvw). lia.
Qed.

Lemma digits_le (v j : Z) : 0 < v -> v < 2 ^ j -> digits v <= j.
Proof.
  intros Hv Hlt. pose proof (digits_spec v Hv) as [H1 _].
  pose proof (digits_pos v Hv).
  destruct (Z.le_gt_cases (digits v) j) as [?|Hgt]; trivial.
  assert (2 ^ j <= 2 ^ (digits v - 1)) by (apply Z.pow_le_mono_r; lia). lia.
Qed.

Lemma rnd53_small (v : Z) : digits v <= 53 -> rnd53 v = v.
Proof.
  intros H. unfold rnd53.
  destruct (digits v - 53 <=? 0) eqn:E; [reflexivity|].
  apply Z.leb_gt in E. lia.
Qed.

Lemma rnd53_big (v : Z) :
  53 < digits v ->
  let n := digits v - 53 in
  rnd53 v = RNE (v / 2 ^ n) (v mod 2 ^ n) (2 ^ (n - 1)) * 2 ^ n.
Proof.
  intros H n. unfold rnd53. fold n.
  destruct (n <=? 0) eqn:E; [|reflexivity].
  apply Z.leb_le in E. lia.
Qed.

Lemma quot_range (v n : Z) :
  0 < v -> 0 < n -> n = digits v - 53 ->
  2 ^ 52 <= v / 2 ^ n < 2 ^ 53.
Proof.
  intros Hv Hn Hd. pose proof (digits_spec v Hv) as [H1 H2].
  assert (Hp : 0 < 2 ^ n) by (apply Z.pow_pos_nonneg; lia).
  replace (digits v - 1) with (52 + n) in H1 by lia.
  replace (digits v) with (53 + n) in H2 by lia.
  rewrite Z.pow_add_r in H1, H2 by lia.
  split.
  - apply Z.div_le_lower_bound; lia.
  - apply Z.div_lt_upper_bound; lia.
Qed.

(** Rounding stays within the binade. *)
Lemma rnd53_bounds (v : Z) :
  0 < v -> 2 ^ (digits v - 1) <= rnd53 v <= 2 ^ digits v.
Proof.
  intros Hv. pose proof (digits_spec v Hv) as [H1 H2].
  destruct (Z.le_gt_cases (digits v) 53) as [Hs|Hb].
  - rewrite rnd53_small by trivial. lia.
  - rewrite rnd53_big by trivial. cbv zeta.
    set (n := digits v - 53).
    assert (Hn : 0 < n) by (unfold n; lia).
    pose proof (quot_range v n Hv Hn eq_refl) as [Q1 Q2].
    pose proof (RNE_bounds (v / 2 ^ n) (v mod 2 ^ n) (2 ^ (n - 1))) as [B1 B2].
    assert (Hp : 0 < 2 ^ n) by (apply Z.pow_pos_nonneg; lia).
    replace (digits v - 1) with (52 + n) by (unfold n; lia).
    replace (digits v) with (53 + n) by (unfold n; lia).
    rewrite !Z.pow_add_r by lia. nia.
Qed.

Lemma RNE_mono (q1 r1 q2 r2 h : Z) :
  0 <= r1 < 2 * h -> 0 <= r2 < 2 * h ->
  q1 * (2 * h) + r1 <= q2 * (2 * h) + r2 ->
  RNE q1 r1 h <= RNE q2 r2 h.
Proof.
  intros H1 H2 Hle.
  assert (Hq : q1 <= q2) by nia.
  destruct (Z.eq_dec q1 q2) as [->|Hne].
  - assert (r1 <= r2) by nia. unfold RNE.
    destruct (r1 <? h) eqn:E1, (r2 <? h) eqn:E2,
             (r1 =? h) eqn:E3, (r2 =? h) eqn:E4, (Z.even q2); lia.
  - pose proof (RNE_bounds q1 r1 h). pose proof (RNE_bounds q2 r2 h). lia.
Qed.

(** Rounding is monotone. *)
Lemma rnd53_mono (v w : Z) : 0 < v -> v <= w -> rnd53 v <= rnd53 w.
Proof.
  intros Hv Hvw. assert (Hw : 0 < w) by lia.
  pose proof (digits_mono v w Hv Hvw) as Hd.
  destruct (Z.eq_dec (digits v) (digits w)) as [He|Hne].
  - destruct (Z.le_gt_cases (digits v) 53) as [Hs|Hb].
    + rewrite !rnd53_small by lia. lia.
    + rewrite !rnd53_big by lia. cbv zeta. rewrite <- He.
      set (n := digits v - 53).
      assert (Hn : 0 < n) by (unfold n; lia).
      assert (Hp : 0 < 2 ^ n) by (apply Z.pow_pos_nonneg; lia).
      assert (Hh : 2 ^ n = 2 * 2 ^ (n - 1)).
      { replace n with (1 + (n - 1)) at 1 by lia.
        rewrite Z.pow_add_r by lia. reflexivity. }
      apply Z.mul_le_mono_nonneg_r; [lia|].
      pose proof (Z.mod_pos_bound v (2 ^ n) Hp).
      pose proof (Z.mod_pos_bound w (2 ^ n) Hp).
      apply RNE_mono; try lia.
      rewrite <- Hh.
      rewrite (Z.mul_comm (v / 2 ^ n)), (Z.mul_comm (w / 2 ^ n)).
      rewrite <- !Z.div_mod by lia. exact Hvw.
  - pose proof (rnd53_bounds v Hv) as [_ B1].
    pose proof (rnd53_bounds w Hw) as [B2 _].
    assert (2 ^ digits v <= 2 ^ (digits w - 1))
      by (apply Z.pow_le_mono_r; lia).
    lia.
Qed.

(** Integers with at most 53 significant bits are not changed. *)
Lemma rnd53_exact (v : Z) :
  0 < v -> v mod 2 ^ (digits v - 53) = 0 -> rnd53 v = v.
Proof.
  intros Hv Hm.
  destruct (Z.le_gt_cases (digits v) 53) as [Hs|Hb].
  - now apply rnd53_small.
  - rewrite rnd53_big by trivial. cbv zeta.
    set (n := digits v - 53) in *.
    assert (Hn : 0 < n) by (unfold n; lia).
    assert (Hp : 0 < 2 ^ n) by (apply Z.pow_pos_nonneg; lia).
    assert (Hh : 0 < 2 ^ (n - 1)) by (apply Z.pow_pos_nonneg; lia).
    rewrite Hm. unfold RNE.
    destruct (0 <? 2 ^ (n - 1)) eqn:E; [|apply Z.ltb_ge in E; lia].
    pose proof (Z.div_mod v (2 ^ n) ltac:(lia)). lia.
Qed.

Lemma rnd53_multiple (v t : Z) :
  0 < v -> 0 <= t -> digits v - 53 <= t -> v mod 2 ^ t = 0 -> rnd53 v = v.
Proof.
  intros Hv Ht Hd Hm.
  destruct (Z.le_gt_cases (digits v) 53) as [Hs|Hb].
  - now apply rnd53_small.
  - apply rnd53_exact; trivial.
    set (n := digits v - 53) in *.
    apply Z.mod_divide in Hm; [|apply Z.pow_nonzero; lia].
    apply Z.mod_divide; [apply Z.pow_nonzero; lia|].
    destruct Hm as [c Hc]. exists (c * 2 ^ (t - n)).
    rewrite <- Z.mul_assoc, <- Z.pow_add_r by lia.
    replace (t - n + n) with t by lia. exact Hc.
Qed.

(** Rounding commutes with scaling by a power of two. *)
Lemma rnd53_scale (v t : Z) :
  0 < v -> 0 <= t -> rnd53 (v * 2 ^ t) = rnd53 v * 2 ^ t.
Proof.
  intros Hv Ht.
  assert (Hpt : 0 < 2 ^ t) by (apply Z.pow_pos_nonneg; lia).
  destruct (Z.le_gt_cases (digits v) 53) as [Hs|Hb].
  - rewrite (rnd53_small v) by trivial.
    apply (rnd53_multiple _ t); trivial; try nia.
    + rewrite digits_scale by trivial. lia.
    + apply Z.mod_mul. lia.
  - rewrite (rnd53_big v) by trivial.
    rewrite rnd53_big by (rewrite digits_scale by trivial; lia).
    cbv zeta. rewrite digits_scale by trivial.
    set (n := digits v - 53).
    assert (Hn : 0 < n) by (unfold n; lia).
    replace (digits v + t - 53) with (n + t) by (unfold n; lia).
    assert (Hp : 0 < 2 ^ n) by (apply Z.pow_pos_nonneg; lia).
    rewrite !Z.pow_add_r by lia.
    rewrite Z.div_mul_cancel_r by lia.
    rewrite Z.mul_mod_distr_r by lia.
    replace (n + t - 1) with ((n - 1) + t) by lia.
    rewrite Z.pow_add_r by lia.
    assert (Hh : 0 < 2 ^ (n - 1)) by (apply Z.pow_pos_nonneg; lia).
    assert (HR : RNE (v / 2 ^ n) (v mod 2 ^ n * 2 ^ t) (2 ^ (n - 1) * 2 ^ t)
                 = RNE (v / 2 ^ n) (v mod 2 ^ n) (2 ^ (n - 1))).
    { unfold RNE.
      assert (E1 : (v mod 2 ^ n * 2 ^ t <? 2 ^ (n - 1) * 2 ^ t)
                   = (v mod 2 ^ n <? 2 ^ (n - 1))).
      { destruct (v mod 2 ^ n <? 2 ^ (n - 1)) eqn:E;
          [apply Z.ltb_lt in E; apply Z.ltb_lt; nia
          |apply Z.ltb_ge in E; apply Z.ltb_ge; nia]. }
      assert (E2 : (v mod 2 ^ n * 2 ^ t =? 2 ^ (n - 1) * 2 ^ t)
                   = (v mod 2 ^ n =? 2 ^ (n - 1))).
      { destruct (v mod 2 ^ n =? 2 ^ (n - 1)) eqn:E;
          [apply Z.eqb_eq in E; apply Z.eqb_eq; nia
          |apply Z.eqb_neq in E; apply Z.eqb_neq; nia]. }
      now rewrite E1, E2. }
    rewrite HR. ring.
Qed.

Lemma rnd53_pow2 (j : Z) : 0 <= j -> rnd53 (2 ^ j) = 2 ^ j.
Proof.
  intros Hj. rewrite <- (Z.mul_1_l (2 ^ j)).
  rewrite rnd53_scale by lia. reflexivity.
Qed.

Lemma rnd53_double (v : Z) : 0 < v -> rnd53 v = v -> rnd53 (2 * v) = 2 * v.
Proof.
  intros Hv He. rewrite (Z.mul_comm 2 v).
  change 2 with (2 ^ 1). rewrite rnd53_scale by lia. now rewrite He.
Qed.

Lemma rnd53_le_exact (v c : Z) : 0 < v -> v <= c -> rnd53 c = c -> rnd53 v <= c.
Proof. intros Hv Hle Hc. rewrite <- Hc. now apply rnd53_mono. Qed.

Lemma rnd53_ge_exact (v c : Z) : 0 < c -> c <= v -> rnd53 c = c -> c <= rnd53 v.
Proof. intros Hv Hle Hc. rewrite <- Hc at 1. now apply rnd53_mono. Qed.

(** Rounding moves a value by at most half the spacing of its binade. *)
Lemma rnd53_near (v j : Z) :
  0 < v -> 0 <= j -> v < 2 ^ (j + 54) ->
  v - 2 ^ j <= rnd53 v <= v + 2 ^ j.
Proof.
  intros Hv Hj Hlt.
  assert (Hpj : 0 < 2 ^ j) by (apply Z.pow_pos_nonneg; lia).
  destruct (Z.le_gt_cases (digits v) 53) as [Hs|Hb].
  - rewrite rnd53_small by trivial. lia.
  - rewrite rnd53_big by trivial. cbv zeta.
    pose proof (digits_le v (j + 54) Hv Hlt) as Hd.
    set (n := digits v - 53) in *.
    assert (Hn : 0 < n) by (unfold n; lia).
    assert (Hp : 0 < 2 ^ n) by (apply Z.pow_pos_nonneg; lia).
    assert (Hh : 2 ^ n = 2 * 2 ^ (n - 1)).
    { replace n with (1 + (n - 1)) at 1 by lia.
      rewrite Z.pow_add_r by lia. reflexivity. }
    assert (Hhj : 2 ^ (n - 1) <= 2 ^ j) by (apply Z.pow_le_mono_r; lia).
    pose proof (Z.div_mod v (2 ^ n) ltac:(lia)) as Hdm.
    pose proof (Z.mod_pos_bound v (2 ^ n) Hp) as Hr.
    set (q := v / 2 ^ n) in *. set (r := v mod 2 ^ n) in *.
    unfold RNE.
    destruct (r <? 2 ^ (n - 1)) eqn:E1;
      [apply Z.ltb_lt in E1; lia|apply Z.ltb_ge in E1].
    destruct (r =? 2 ^ (n - 1)) eqn:E2;
      [apply Z.eqb_eq in E2; destruct (Z.even q); lia|lia].
Qed.

(** **** [SpecFloat]'s rounding is [rnd53] *)

Lemma digits2_pos_digits (p : positive) :
  Zpos (digits2_pos p) = digits (Zpos p).
Proof.
  unfold digits.
  assert (H : forall q, digits2_pos q = Pos.size q)
    by (induction q; simpl; congruence).
  rewrite H. destruct p; simpl; lia.
Qed.

Lemma Zdigits2_digits (z : Z) : 0 < z -> Zdigits2 z = digits z.
Proof.
  destruct z; try lia. intros _. simpl. apply digits2_pos_digits.
Qed.

(** [iter_pos] iterates as many times as its argument says. *)
Lemma iter_pos_nat (A : Type) (f : A -> A) (p : positive) (x : A) :
  iter_pos f p x = Nat.iter (Pos.to_nat p) f x.
Proof.
  revert x. induction p as [p IH|p IH|]; intros x; cbn [iter_pos].
  - rewrite !IH. rewrite Pos2Nat.inj_xI.
    replace (S (2 * Pos.to_nat p)) with (Pos.to_nat p + Pos.to_nat p + 1)%nat by lia.
    rewrite !Nat.iter_add. reflexivity.
  - rewrite !IH. rewrite Pos2Nat.inj_xO.
    replace (2 * Pos.to_nat p)%nat with (Pos.to_nat p + Pos.to_nat p)%nat by lia.
    rewrite Nat.iter_add. reflexivity.
  - reflexivity.
Qed.

(** One right shift of a shift record. *)
Lemma shr_1_spec (m : Z) (r s : bool) :
  0 <= m -> shr_1 (Build_shr_record m r s) = Build_shr_record (Z.div2 m) (Z.odd m) (r || s).
Proof.
  intros Hm. destruct m as [|[p|p|]|p]; try lia; reflexivity.
Qed.

Lemma shifted_step (M k : Z) (mrs : shr_record) :
  0 < k -> shifted M k mrs -> shifted M (k + 1) (shr_1 mrs).
Proof.
  intros Hk [Hm [sigma (HM & Hs & Hss)]].
  destruct mrs as [m r s]. cbn [shr_m shr_r shr_s] in *.
  rewrite shr_1_spec by trivial. unfold shifted. cbn [shr_m shr_r shr_s].
  pose proof (Z.div2_odd m) as Hd.
  assert (0 <= Z.div2 m) by (apply Z.div2_nonneg; trivial).
  split; [trivial|].
  assert (Hp : 2 ^ k = 2 * 2 ^ (k - 1)).
  { replace k with (1 + (k - 1)) at 1 by lia. rewrite Z.pow_add_r by lia. reflexivity. }
  assert (Hp1 : 2 ^ (k + 1) = 2 * 2 ^ k) by (rewrite Z.pow_add_r by lia; lia).
  replace (k + 1 - 1) with k by lia.
  exists ((if r then 2 ^ (k - 1) else 0) + sigma).
  assert (Hpos : 0 < 2 ^ (k - 1)) by (apply Z.pow_pos_nonneg; lia).
  split; [|split].
  - rewrite HM, Hp1. rewrite Hd at 1.
    destruct (Z.odd m); simpl Z.b2z; ring.
  - destruct r; lia.
  - subst s. destruct r; simpl.
    + symmetry. apply negb_true_iff, Z.eqb_neq. lia.
    + reflexivity.
Qed.

(** [k] right shifts leave the quotient by [2^k], the round bit and the
    sticky bit. *)
Lemma shifted_iter (M : Z) (n : nat) :
  0 <= M ->
  shifted M (Z.of_nat (S n)) (Nat.iter (S n) shr_1 (Build_shr_record M false false)).
Proof.
  intros HM. induction n as [|n IH].
  - cbn [Nat.iter nat_rect]. rewrite shr_1_spec by trivial. unfold shifted.
    cbn [shr_m shr_r shr_s Z.of_nat Pos.of_succ_nat].
    split; [apply Z.div2_nonneg; trivial|].
    exists 0. pose proof (Z.div2_odd M) as Hd.
    split; [|split; [lia|reflexivity]].
    rewrite Hd at 1. destruct (Z.odd M); simpl Z.b2z; lia.
  - replace (Z.of_nat (S (S n))) with (Z.of_nat (S n) + 1) by lia.
    change (Nat.iter (S (S n)) shr_1 (Build_shr_record M false false))
      with (shr_1 (Nat.iter (S n) shr_1 (Build_shr_record M false false))).
    apply shifted_step; [lia|exact IH].
Qed.

(** Rounding a shifted record to nearest even is [RNE] on quotient and
    remainder. *)
Lemma shifted_round (M k : Z) (mrs : shr_record) :
  0 < k -> shifted M k mrs ->
  shr_m mrs = M / 2 ^ k /\
  round_nearest_even (shr_m mrs) (loc_of_shr_record mrs)
  = RNE (M / 2 ^ k) (M mod 2 ^ k) (2 ^ (k - 1)).
Proof.
  intros Hk [Hm [sigma (HM & Hs & Hss)]].
  destruct mrs as [m r s]. cbn [shr_m shr_r shr_s] in *.
  assert (Hp : 2 ^ k = 2 * 2 ^ (k - 1)).
  { replace k with (1 + (k - 1)) at 1 by lia. rewrite Z.pow_add_r by lia. reflexivity. }
  assert (Hpos : 0 < 2 ^ (k - 1)) by (apply Z.pow_pos_nonneg; lia).
  set (rho := (if r then 2 ^ (k - 1) else 0) + sigma).
  assert (Hrho : 0 <= rho < 2 ^ k) by (unfold rho; destruct r; lia).
  assert (HM' : M = 2 ^ k * m + rho) by (unfold rho; lia).
  assert (Hq : M / 2 ^ k = m) by (symmetry; apply (Z.div_unique_pos M (2 ^ k) m rho); lia).
  assert (Hr : M mod 2 ^ k = rho) by (symmetry; apply (Z.mod_unique_pos M (2 ^ k) m rho); lia).
  rewrite Hq, Hr. split; [reflexivity|].
  unfold RNE, rho. destruct r, s; simpl.
  - symmetry in Hss. apply negb_true_iff, Z.eqb_neq in Hss.
    destruct (_ <? _) eqn:E1; [apply Z.ltb_lt in E1; lia|].
    destruct (_ =? _) eqn:E2; [apply Z.eqb_eq in E2; lia|]. reflexivity.
  - symmetry in Hss. apply negb_false_iff, Z.eqb_eq in Hss. subst sigma.
    destruct (_ <? _) eqn:E1; [apply Z.ltb_lt in E1; lia|].
    destruct (_ =? _) eqn:E2; [|apply Z.eqb_neq in E2; lia]. reflexivity.
  - destruct (_ <? _) eqn:E1; [|apply Z.ltb_ge in E1; lia]. reflexivity.
  - destruct (_ <? _) eqn:E1; [|apply Z.ltb_ge in E1; lia]. reflexivity.
Qed.

Lemma fexp_eq (z : Z) : fexp prec emax z = Z.max (z - 53) (-1074).
Proof. reflexivity. Qed.

(** [binary_round_aux] on an exact positive mantissa, already aligned:
    the result holds [rnd53] of the mantissa, unless its exponent is too
    large, when it is infinity. *)
Lemma binary_round_aux_exact (M : positive) (e : Z) :
  -1074 <= e -> (53 <= digits (Zpos M) \/ e = -1074) ->
  exists m' e',
    binary_round_aux prec emax false (Zpos M) e loc_Exact
    = (if e' <=? 971 then S754_finite false m' e' else S754_infinity false) /\
    e <= e' /\ Zpos m' * 2 ^ (e' - e) = rnd53 (Zpos M) /\
    (e' = -1074 \/ 2 ^ 52 <= Zpos m') /\ Zpos m' < 2 ^ 53.
Proof.
  intros He Hd.
  unfold binary_round_aux, shr_fexp.
  rewrite Zdigits2_digits by lia. rewrite fexp_eq.
  set (d := digits (Zpos M)) in *.
  destruct (Z.le_gt_cases d 53) as [Hs|Hb].
  - replace (Z.max (d + e - 53) (-1074) - e) with 0 by lia.
    cbn [shr shr_record_of_loc shr_m loc_of_shr_record round_nearest_even].
    rewrite Zdigits2_digits by lia. fold d. rewrite fexp_eq.
    replace (Z.max (d + e - 53) (-1074) - e) with 0 by lia.
    cbn [shr shr_record_of_loc shr_m].
    pose proof (digits_spec (Zpos M) ltac:(lia)) as [H1 H2]. fold d in H1, H2.
    exists M, e. split; [reflexivity|]. split; [lia|]. split; [|split].
    + rewrite Z.sub_diag, Z.mul_1_r. symmetry. apply rnd53_small. exact Hs.
    + destruct Hd as [Hd| ->]; [right|now left].
      assert (d = 53) by lia.
      replace (d - 1) with 52 in H1 by lia. exact H1.
    + assert (2 ^ d <= 2 ^ 53) by (apply Z.pow_le_mono_r; lia). lia.
  - destruct (d - 53) as [|p|p] eqn:En; try lia.
    replace (Z.max (d + e - 53) (-1074) - e) with (Zpos p) by lia.
    cbn [shr shr_record_of_loc]. rewrite iter_pos_nat.
    destruct (Pos2Nat.is_succ p) as [n' Hn']. rewrite Hn'.
    pose proof (shifted_iter (Zpos M) n' ltac:(lia)) as Hsh.
    assert (Hk : Z.of_nat (S n') = Zpos p) by (rewrite <- Hn'; apply positive_nat_Z).
    rewrite Hk in Hsh.
    set (mrs := Nat.iter (S n') shr_1 _) in *.
    destruct (shifted_round (Zpos M) (Zpos p) mrs ltac:(lia) Hsh) as [Hq HR].
    rewrite HR.
    pose proof (quot_range (Zpos M) (Zpos p) ltac:(lia) ltac:(lia) ltac:(fold d; lia)) as [Q1 Q2].
    pose proof (RNE_bounds (Zpos M / 2 ^ Zpos p) (Zpos M mod 2 ^ Zpos p) (2 ^ (Zpos p - 1))) as [B1 B2].
    assert (Hrnd : rnd53 (Zpos M) = RNE (Zpos M / 2 ^ Zpos p) (Zpos M mod 2 ^ Zpos p) (2 ^ (Zpos p - 1)) * 2 ^ Zpos p).
    { rewrite rnd53_big by (fold d; lia). cbv zeta. fold d. rewrite En. reflexivity. }
    set (m1 := RNE _ _ _) in *.
    assert (Hm1 : 0 < m1) by lia.
    rewrite Zdigits2_digits by lia. rewrite fexp_eq.
    destruct (Z.eq_dec m1 (2 ^ 53)) as [E53|N53].
    + rewrite E53.
      change (digits (2 ^ 53)) with 54.
      replace (Z.max (54 + (e + Zpos p) - 53) (-1074) - (e + Zpos p)) with 1 by lia.
      change (2 ^ 53) with 9007199254740992.
      cbn [shr shr_record_of_loc iter_pos shr_1 shr_m].
      exists 4503599627370496%positive, (e + Zpos p + 1).
      split; [reflexivity|]. split; [lia|].
      split; [|split; [right|]; reflexivity].
      rewrite Hrnd, E53.
      replace (e + Zpos p + 1 - e) with (1 + Zpos p) by lia.
      rewrite Z.pow_add_r by lia.
      change (2 ^ 53) with (4503599627370496 * 2 ^ 1). ring.
    + assert (Hdm : digits m1 = 53) by (apply digits_unique; lia).
      rewrite Hdm.
      replace (Z.max (53 + (e + Zpos p) - 53) (-1074) - (e + Zpos p)) with 0 by lia.
      cbn [shr shr_record_of_loc shr_m].
      destruct m1 as [|m'|m'] eqn:Em; try lia.
      exists m', (e + Zpos p).
      split; [reflexivity|]. split; [lia|]. split; [|split; [right|]; lia].
      rewrite Hrnd. replace (e + Zpos p - e) with (Zpos p) by lia. reflexivity.
Qed.

(** The same with values counted in units of [2^-1074]: overflow is a
    rounded value of [2^1024] or more. *)
Lemma round_aux_cases (M : positive) (e : Z) :
  -1074 <= e -> (53 <= digits (Zpos M) \/ e = -1074) ->
  exists m' e',
    -1074 <= e' /\
    Zpos m' * 2 ^ (e' + 1074) = rnd53 (Zpos M * 2 ^ (e + 1074)) /\
    binary_round_aux prec emax false (Zpos M) e loc_Exact
    = (if rnd53 (Zpos M * 2 ^ (e + 1074)) <? 2 ^ 2098
       then S754_finite false m' e' else S754_infinity false).
Proof.
  intros He Hd.
  destruct (binary_round_aux_exact M e He Hd) as (m' & e' & Hr & Hle & Hv & Hn & Hm).
  rewrite rnd53_scale by lia.
  assert (Hval : Zpos m' * 2 ^ (e' + 1074) = rnd53 (Zpos M) * 2 ^ (e + 1074)).
  { rewrite <- Hv, <- Z.mul_assoc, <- Z.pow_add_r by lia.
    f_equal. f_equal. lia. }
  exists m', e'. split; [lia|]. split; [exact Hval|].
  rewrite Hr, <- Hval.
  assert (Hp : 0 < 2 ^ (e' + 1074)) by (apply Z.pow_pos_nonneg; lia).
  destruct (e' <=? 971) eqn:E.
  - apply Z.leb_le in E.
    assert (2 ^ (e' + 1074) <= 2 ^ 2045) by (apply Z.pow_le_mono_r; lia).
    destruct (_ <? _) eqn:L; [reflexivity|]. apply Z.ltb_ge in L.
    change (2 ^ 2098) with (2 ^ 53 * 2 ^ 2045) in L. nia.
  - apply Z.leb_gt in E.
    destruct Hn as [->|Hn]; [lia|].
    assert (2 ^ 2046 <= 2 ^ (e' + 1074)) by (apply Z.pow_le_mono_r; lia).
    destruct (_ <? _) eqn:L; [|reflexivity]. apply Z.ltb_lt in L.
    change (2 ^ 2098) with (2 ^ 52 * 2 ^ 2046) in L. nia.
Qed.

Lemma round_aux_value (M : positive) (e : Z) :
  -1074 <= e -> (53 <= digits (Zpos M) \/ e = -1074) ->
  rnd53 (Zpos M * 2 ^ (e + 1074)) < 2 ^ 2098 ->
  exists m' e',
    binary_round_aux prec emax false (Zpos M) e loc_Exact = S754_finite false m' e' /\
    -1074 <= e' /\
    Zpos m' * 2 ^ (e' + 1074) = rnd53 (Zpos M * 2 ^ (e + 1074)).
Proof.
  intros He Hd Hmax.
  destruct (round_aux_cases M e He Hd) as (m' & e' & He' & Hv & Hr).
  exists m', e'. split; [|split; trivial].
  rewrite Hr. apply Z.ltb_lt in Hmax. now rewrite Hmax.
Qed.

Lemma Pos_iter_xO (m d : positive) :
  Zpos (Pos.iter xO m d) = Zpos m * 2 ^ Zpos d.
Proof.
  induction d as [|d IH] using Pos.peano_ind.
  - cbn [Pos.iter]. lia.
  - rewrite Pos.iter_succ, Pos2Z.inj_succ, Z.pow_succ_r by lia.
    rewrite Pos2Z.inj_xO, IH. ring.
Qed.

(** [binary_normalize] rounds the value [S * 2^e] to nearest even. *)
Lemma binary_normalize_cases (S : positive) (e : Z) :
  -1074 <= e ->
  exists m' e',
    -1074 <= e' /\
    Zpos m' * 2 ^ (e' + 1074) = rnd53 (Zpos S * 2 ^ (e + 1074)) /\
    binary_normalize prec emax (Zpos S) e false
    = (if rnd53 (Zpos S * 2 ^ (e + 1074)) <? 2 ^ 2098
       then S754_finite false m' e' else S754_infinity false).
Proof.
  intros He.
  unfold binary_normalize, binary_round, shl_align.
  rewrite digits2_pos_digits, fexp_eq.
  set (d := digits (Zpos S)).
  destruct (Z.max (d + e - 53) (-1074) - e) as [|p|p] eqn:E.
  - apply round_aux_cases; trivial. fold d. lia.
  - apply round_aux_cases; trivial. fold d. lia.
  - assert (Hz : Zpos (Pos.iter xO S p) * 2 ^ (Z.max (d + e - 53) (-1074) + 1074)
                 = Zpos S * 2 ^ (e + 1074)).
    { rewrite Pos_iter_xO, <- Z.mul_assoc, <- Z.pow_add_r by lia.
      f_equal. f_equal. lia. }
    rewrite <- Hz.
    apply round_aux_cases; [lia|].
    rewrite Pos_iter_xO, digits_scale by lia. fold d. lia.
Qed.

Lemma binary_normalize_pos (S : positive) (e : Z) :
  -1074 <= e ->
  rnd53 (Zpos S * 2 ^ (e + 1074)) < 2 ^ 2098 ->
  exists m' e',
    binary_normalize prec emax (Zpos S) e false = S754_finite false m' e' /\
    -1074 <= e' /\
    Zpos m' * 2 ^ (e' + 1074) = rnd53 (Zpos S * 2 ^ (e + 1074)).
Proof.
  intros He Hmax.
  destruct (binary_normalize_cases S e He) as (m' & e' & He' & Hv & Hr).
  exists m', e'. split; [|split; trivial].
  rewrite Hr. apply Z.ltb_lt in Hmax. now rewrite Hmax.
Qed.

(** **** Positive finite doubles *)

(** A finite double is in canonical form. *)
Lemma valid_finite (x : float) (s : bool) (m : positive) (e : Z) :
  Prim2SF x = S754_finite s m e ->
  -1074 <= e <= 971 /\ digits (Zpos m) <= 53 /\
  (digits (Zpos m) = 53 \/ e = -1074).
Proof.
  intros Hx. pose proof (Prim2SF_valid x) as Hv. rewrite Hx in Hv.
  unfold SpecFloat.valid_binary, bounded, canonical_mantissa in Hv.
  apply andb_true_iff in Hv. destruct Hv as [Hc Hb].
  apply Z.eqb_eq in Hc. apply Z.leb_le in Hb.
  rewrite fexp_eq, digits2_pos_digits in Hc.
  change (emax - prec) with 971 in Hb.
  repeat split; lia.
Qed.

Lemma posf_inv (x : float) :
  posf x = true ->
  exists m e,
    Prim2SF x = S754_finite false m e /\
    -1074 <= e <= 971 /\ digits (Zpos m) <= 53 /\
    (digits (Zpos m) = 53 \/ e = -1074) /\
    value x = Zpos m * 2 ^ (e + 1074).
Proof.
  unfold posf, value.
  destruct (Prim2SF x) as [| | |[|] m e] eqn:Hx; try discriminate. intros _.
  exists m, e. split; [reflexivity|].
  destruct (valid_finite x _ _ _ Hx) as (He & Hd & Hc).
  repeat split; trivial; lia.
Qed.

Lemma finite_value (x : float) (m : positive) (e : Z) :
  Prim2SF x = S754_finite false m e ->
  posf x = true /\ value x = Zpos m * 2 ^ (e + 1074).
Proof. intros H. unfold posf, value. rewrite H. split; reflexivity. Qed.

Lemma value_pos (x : float) : posf x = true -> 0 < value x.
Proof.
  intros H. destruct (posf_inv x H) as (m & e & _ & He & _ & _ & ->).
  assert (0 < 2 ^ (e + 1074)) by (apply Z.pow_pos_nonneg; lia). lia.
Qed.

Lemma value_max (x : float) : posf x = true -> value x < 2 ^ 2098.
Proof.
  intros H. destruct (posf_inv x H) as (m & e & _ & He & Hd & _ & ->).
  pose proof (digits_spec (Zpos m) ltac:(lia)) as [_ H2].
  assert (2 ^ digits (Zpos m) <= 2 ^ 53) by (apply Z.pow_le_mono_r; lia).
  assert (2 ^ (e + 1074) <= 2 ^ 2045) by (apply Z.pow_le_mono_r; lia).
  assert (0 < 2 ^ (e + 1074)) by (apply Z.pow_pos_nonneg; lia).
  change (2 ^ 2098) with (2 ^ 53 * 2 ^ 2045). nia.
Qed.

Lemma value_exact (x : float) : posf x = true -> rnd53 (value x) = value x.
Proof.
  intros H. destruct (posf_inv x H) as (m & e & _ & He & Hd & _ & ->).
  rewrite rnd53_scale by lia. now rewrite rnd53_small.
Qed.

(** Canonical forms compare as their values do. *)
Lemma canonical_compare (m1 : positive) (e1 : Z) (m2 : positive) (e2 : Z) :
  -1074 <= e1 -> digits (Zpos m1) <= 53 -> (digits (Zpos m1) = 53 \/ e1 = -1074) ->
  -1074 <= e2 -> digits (Zpos m2) <= 53 -> (digits (Zpos m2) = 53 \/ e2 = -1074) ->
  match e1 ?= e2 with
  | Lt => Lt | Gt => Gt | Eq => Pos.compare_cont Eq m1 m2
  end = (Zpos m1 * 2 ^ (e1 + 1074) ?= Zpos m2 * 2 ^ (e2 + 1074)).
Proof.
  intros He1 Hd1 Hc1 He2 Hd2 Hc2.
  assert (Hlt : forall ma ea mb eb,
    -1074 <= ea -> digits (Zpos ma) <= 53 ->
    digits (Zpos mb) = 53 -> ea < eb ->
    Zpos ma * 2 ^ (ea + 1074) < Zpos mb * 2 ^ (eb + 1074)).
  { intros ma ea mb eb Hea Hda Hdb Hlt.
    pose proof (digits_spec (Zpos ma) ltac:(lia)) as [_ A2].
    pose proof (digits_spec (Zpos mb) ltac:(lia)) as [B1 _].
    rewrite Hdb in B1. change (2 ^ (53 - 1)) with (2 ^ 52) in B1.
    assert (2 ^ digits (Zpos ma) <= 2 ^ 53) by (apply Z.pow_le_mono_r; lia).
    assert (Ha : 0 < 2 ^ (ea + 1074)) by (apply Z.pow_pos_nonneg; lia).
    replace (eb + 1074) with ((eb - ea - 1) + 1 + (ea + 1074)) by lia.
    rewrite (Z.pow_add_r 2 (eb - ea - 1 + 1)), (Z.pow_add_r 2 (eb - ea - 1)) by lia.
    assert (0 < 2 ^ (eb - ea - 1)) by (apply Z.pow_pos_nonneg; lia).
    change (2 ^ 53) with (2 ^ 52 * 2) in *. change (2 ^ 1) with 2.
    set (A := 2 ^ (ea + 1074)) in *. set (B := 2 ^ (eb - ea - 1)) in *.
    set (P := 2 ^ 52) in *.
    assert (Zpos ma * A < P * 2 * A) by nia.
    assert (P * 2 * A <= Zpos mb * 2 * A) by nia.
    assert (Zpos mb * 2 * A <= Zpos mb * (B * 2 * A)) by nia.
    lia. }
  destruct (Z.compare_spec e1 e2) as [->|Hl|Hg].
  - change (Pos.compare_cont Eq m1 m2) with (Zpos m1 ?= Zpos m2).
    assert (0 < 2 ^ (e2 + 1074)) by (apply Z.pow_pos_nonneg; lia).
    symmetry. destruct (Z.compare_spec (Zpos m1) (Zpos m2)) as [E|L|G].
    + apply Z.compare_eq_iff. now rewrite E.
    + apply Z.compare_lt_iff. nia.
    + apply Z.compare_gt_iff. nia.
  - symmetry. apply Z.compare_lt_iff. apply Hlt; lia.
  - symmetry. apply Z.compare_gt_iff. apply Hlt; lia.
Qed.

(** The order of positive finite doubles is the order of their values. *)
Lemma compare_value (x y : float) :
  posf x = true -> posf y = true ->
  SFcompare (Prim2SF x) (Prim2SF y) = Some (value x ?= value y).
Proof.
  intros Hx Hy.
  destruct (posf_inv x Hx) as (m1 & e1 & E1 & He1 & Hd1 & Hc1 & ->).
  destruct (posf_inv y Hy) as (m2 & e2 & E2 & He2 & Hd2 & Hc2 & ->).
  rewrite E1, E2. cbn [SFcompare]. f_equal.
  apply canonical_compare; lia.
Qed.

Lemma ltb_value (x y : float) :
  posf x = true -> posf y = true -> (x <? y)%float = (value x <? value y).
Proof.
  intros Hx Hy. rewrite ltb_spec. unfold SFltb, Z.ltb.
  rewrite compare_value by trivial. reflexivity.
Qed.

Lemma leb_value (x y : float) :
  posf x = true -> posf y = true -> (x <=? y)%float = (value x <=? value y).
Proof.
  intros Hx Hy. rewrite leb_spec. unfold SFleb, Z.leb.
  rewrite compare_value by trivial. reflexivity.
Qed.

Lemma shl_align_fst (m : positive) (e e' : Z) :
  e' <= e -> Zpos (fst (shl_align m e e')) = Zpos m * 2 ^ (e - e').
Proof.
  intros H. unfold shl_align.
  destruct (e' - e) as [|p|p] eqn:E; try lia; cbn [fst].
  - replace (e - e') with 0 by lia. lia.
  - rewrite Pos_iter_xO. f_equal. f_equal. lia.
Qed.

Lemma aligned_value (m : positive) (e e' : Z) :
  -1074 <= e' <= e ->
  Zpos (fst (shl_align m e e')) * 2 ^ (e' + 1074) = Zpos m * 2 ^ (e + 1074).
Proof.
  intros H. rewrite shl_align_fst by lia.
  rewrite <- Z.mul_assoc, <- Z.pow_add_r by lia. f_equal. f_equal. lia.
Qed.

(** The sum of two positive doubles is the rounded sum of their values,
    short of overflow. *)
Lemma add_value (x y : float) :
  posf x = true -> posf y = true ->
  rnd53 (value x + value y) < 2 ^ 2098 ->
  posf (x + y) = true /\ value (x + y) = rnd53 (value x + value y).
Proof.
  intros Hx Hy Hmax.
  destruct (posf_inv x Hx) as (m1 & e1 & E1 & He1 & _ & _ & V1).
  destruct (posf_inv y Hy) as (m2 & e2 & E2 & He2 & _ & _ & V2).
  pose proof (add_spec x y) as Hadd.
  rewrite E1, E2 in Hadd. unfold SF64add, SFadd in Hadd.
  cbn [cond_Zopp] in Hadd.
  set (ez := Z.min e1 e2) in *.
  pose proof (aligned_value m1 e1 ez ltac:(lia)) as A1.
  pose proof (aligned_value m2 e2 ez ltac:(lia)) as A2.
  set (a := fst (shl_align m1 e1 ez)) in *.
  set (b := fst (shl_align m2 e2 ez)) in *.
  change (Zpos a + Zpos b) with (Zpos (a + b)) in Hadd.
  assert (Hs : Zpos (a + b) * 2 ^ (ez + 1074) = value x + value y).
  { rewrite V1, V2, Pos2Z.inj_add. lia. }
  destruct (binary_normalize_pos (a + b) ez ltac:(lia)) as (m' & e' & Hr & He' & Hv).
  - rewrite Hs. exact Hmax.
  - rewrite Hr in Hadd. rewrite Hs in Hv.
    destruct (finite_value _ _ _ Hadd) as [P V]. split; [exact P|]. lia.
Qed.

(** The difference of two positive doubles, the larger first, is the
    rounded difference of their values. *)
Lemma sub_value (x y : float) :
  posf x = true -> posf y = true -> value y < value x ->
  posf (x - y) = true /\ value (x - y) = rnd53 (value x - value y).
Proof.
  intros Hx Hy Hlt.
  destruct (posf_inv x Hx) as (m1 & e1 & E1 & He1 & _ & _ & V1).
  destruct (posf_inv y Hy) as (m2 & e2 & E2 & He2 & _ & _ & V2).
  pose proof (sub_spec x y) as Hsub.
  rewrite E1, E2 in Hsub. unfold SF64sub, SFsub in Hsub.
  cbn [cond_Zopp] in Hsub.
  set (ez := Z.min e1 e2) in *.
  pose proof (aligned_value m1 e1 ez ltac:(lia)) as A1.
  pose proof (aligned_value m2 e2 ez ltac:(lia)) as A2.
  set (a := fst (shl_align m1 e1 ez)) in *.
  set (b := fst (shl_align m2 e2 ez)) in *.
  assert (Hp : 0 < 2 ^ (ez + 1074)) by (apply Z.pow_pos_nonneg; lia).
  assert (Hab : 0 < Zpos a - Zpos b) by nia.
  destruct (Zpos a - Zpos b) as [|S|S] eqn:ES; try lia.
  assert (Hs : Zpos S * 2 ^ (ez + 1074) = value x - value y).
  { rewrite V1, V2, <- ES. lia. }
  assert (Hmax : rnd53 (value x - value y) < 2 ^ 2098).
  { pose proof (rnd53_mono (value x - value y) (value x) ltac:(lia)
                  ltac:(pose proof (value_pos y Hy); lia)).
    rewrite value_exact in * by trivial.
    pose proof (value_max x Hx). lia. }
  destruct (binary_normalize_pos S ez ltac:(lia)) as (m' & e' & Hr & He' & Hv).
  - rewrite Hs. exact Hmax.
  - rewrite Hr in Hsub. rewrite Hs in Hv.
    destruct (finite_value _ _ _ Hsub) as [P V]. split; [exact P|]. lia.
Qed.

Lemma div_eucl_pair (a b : Z) : Z.div_eucl a b = (a / b, a mod b).
Proof. unfold Z.div, Z.modulo. destruct (Z.div_eucl a b). reflexivity. Qed.

(** Halving a double above the smallest exponent is exact. *)
Lemma half_normal (x t : float) (m : positive) (e : Z) :
  Prim2SF t = S754_finite false 4503599627370496 (-51) ->
  Prim2SF x = S754_finite false m e -> -1073 <= e ->
  posf (x / t) = true /\ 2 * value (x / t) = value x.
Proof.
  intros Ht E He1.
  destruct (finite_value _ _ _ E) as [Hx V].
  destruct (valid_finite x _ _ _ E) as (He & Hd & Hc).
  assert (Hd53 : digits (Zpos m) = 53) by lia.
  pose proof (div_spec x t) as Hdiv.
  rewrite E, Ht in Hdiv. unfold SF64div, SFdiv, SFdiv_core_binary in Hdiv.
  cbn [xorb] in Hdiv.
  rewrite fexp_eq in Hdiv.
  cbn [Zdigits2] in Hdiv. rewrite digits2_pos_digits, Hd53 in Hdiv.
  change (Zpos (digits2_pos 4503599627370496)) with 53 in Hdiv.
  set (e' := Z.max (e - 2) (-1074)).
  replace (Z.min (Z.max (53 + e - (53 + -51) - 53) (-1074)) (e - -51)) with e' in Hdiv
    by (unfold e'; lia).
  set (s := e - -51 - e') in *.
  assert (Hs : 52 <= s) by (unfold s, e'; lia).
  destruct s as [|ps|ps] eqn:Es; try lia. rewrite <- Es in *.
  change IntDef.Z.shiftl with Z.shiftl in Hdiv.
  change IntDef.Z.div_eucl with Z.div_eucl in Hdiv.
  rewrite Z.shiftl_mul_pow2 in Hdiv by lia.
  rewrite div_eucl_pair in Hdiv.
  replace (Zpos m * 2 ^ s) with (Zpos m * 2 ^ (s - 52) * 4503599627370496) in Hdiv.
  2:{ change 4503599627370496 with (2 ^ 52).
      rewrite <- Z.mul_assoc, <- Z.pow_add_r by lia. f_equal. f_equal. lia. }
  rewrite Z.div_mul, Z.mod_mul in Hdiv by lia.
  change (new_location 4503599627370496 0) with loc_Exact in Hdiv.
  assert (Hp : 0 < 2 ^ (s - 52)) by (apply Z.pow_pos_nonneg; lia).
  destruct (Zpos m * 2 ^ (s - 52)) as [|Q|Q] eqn:EQ; try lia.
  assert (HQ : Zpos Q * 2 ^ (e' + 1074) = Zpos m * 2 ^ (e - 1 + 1074)).
  { rewrite <- EQ, <- Z.mul_assoc, <- Z.pow_add_r by (unfold e'; lia).
    f_equal. f_equal. unfold s. lia. }
  assert (HR : rnd53 (Zpos Q * 2 ^ (e' + 1074)) = Zpos m * 2 ^ (e - 1 + 1074)).
  { rewrite HQ, rnd53_scale by lia. now rewrite rnd53_small. }
  assert (Hhalf : 2 * (Zpos m * 2 ^ (e - 1 + 1074)) = value x).
  { rewrite V. replace (e + 1074) with (1 + (e - 1 + 1074)) by lia.
    rewrite (Z.pow_add_r 2 1) by lia. change (2 ^ 1) with 2. ring. }
  destruct (round_aux_value Q e') as (m' & e'' & Hr & He'' & Hv).
  - unfold e'; lia.
  - left. rewrite <- EQ, digits_scale by lia. lia.
  - rewrite HR. pose proof (value_max x Hx). lia.
  - rewrite Hr in Hdiv. destruct (finite_value _ _ _ Hdiv) as [P Vd].
    split; [exact P|]. rewrite Vd, Hv, HR. exact Hhalf.
Qed.

(** Halving a double of the smallest exponent rounds its mantissa to an
    integer, ties to even. *)
Lemma half_subnormal (x t : float) (m : positive) :
  Prim2SF t = S754_finite false 4503599627370496 (-51) ->
  Prim2SF x = S754_finite false m (-1074) -> 2 <= Zpos m ->
  posf (x / t) = true /\
  value x - 1 <= 2 * value (x / t) <= value x + 1.
Proof.
  intros Ht E Hm.
  destruct (finite_value _ _ _ E) as [Hx V].
  change (2 ^ (-1074 + 1074)) with 1 in V. rewrite Z.mul_1_r in V.
  destruct (valid_finite x _ _ _ E) as (_ & Hd & _).
  pose proof (digits_pos (Zpos m) ltac:(lia)) as Hd0.
  pose proof (digits_spec (Zpos m) ltac:(lia)) as [_ D2].
  assert (D53 : 2 ^ digits (Zpos m) <= 2 ^ 53) by (apply Z.pow_le_mono_r; lia).
  pose proof (div_spec x t) as Hdiv.
  rewrite E, Ht in Hdiv. unfold SF64div, SFdiv, SFdiv_core_binary in Hdiv.
  cbn [xorb] in Hdiv.
  rewrite fexp_eq in Hdiv.
  cbn [Zdigits2] in Hdiv. rewrite digits2_pos_digits in Hdiv.
  change (Zpos (digits2_pos 4503599627370496)) with 53 in Hdiv.
  replace (Z.min (Z.max (digits (Zpos m) + -1074 - (53 + -51) - 53) (-1074))
             (-1074 - -51)) with (-1074) in Hdiv by lia.
  change (-1074 - -51 - -1074) with 51 in Hdiv. cbv iota in Hdiv.
  change IntDef.Z.shiftl with Z.shiftl in Hdiv.
  change IntDef.Z.div_eucl with Z.div_eucl in Hdiv.
  rewrite Z.shiftl_mul_pow2 in Hdiv by lia.
  rewrite div_eucl_pair in Hdiv.
  change 4503599627370496 with (2 * 2 ^ 51) in Hdiv.
  rewrite Z.div_mul_cancel_r, Z.mul_mod_distr_r in Hdiv by lia.
  pose proof (Z.div_mod (Zpos m) 2 ltac:(lia)) as Hdm.
  pose proof (Z.mod_pos_bound (Zpos m) 2 ltac:(lia)) as Hmb.
  assert (HQ : 1 <= Zpos m / 2) by (apply Z.div_le_lower_bound; lia).
  destruct (Zpos m / 2) as [|Q|Q] eqn:EQ; try lia.
  assert (HQ53 : Zpos Q < 2 ^ 52).
  { change (2 ^ 53) with (2 * 2 ^ 52) in D53. lia. }
  assert (HdQ : digits (Zpos Q) <= 52) by (apply digits_le; lia).
  destruct (Z.eq_dec (Zpos m mod 2) 0) as [Hr|Hr].
  - (* an even mantissa: exact *)
    rewrite Hr in Hdiv.
    change (new_location (2 * 2 ^ 51) (0 * 2 ^ 51)) with loc_Exact in Hdiv.
    destruct (round_aux_value Q (-1074)) as (m' & e'' & Hrr & He'' & Hv);
      [lia|now right| |].
    + change (2 ^ (-1074 + 1074)) with 1. rewrite Z.mul_1_r.
      rewrite rnd53_small by lia. change (2 ^ 2098) with (2 ^ 2046 * 2 ^ 52).
      assert (0 < 2 ^ 2046) by (apply Z.pow_pos_nonneg; lia). nia.
    + rewrite Hrr in Hdiv. destruct (finite_value _ _ _ Hdiv) as [P Vd].
      split; [exact P|]. rewrite Vd, Hv.
      change (2 ^ (-1074 + 1074)) with 1. rewrite Z.mul_1_r.
      rewrite rnd53_small by lia. lia.
  - (* an odd mantissa: a tie *)
    assert (Hr1 : Zpos m mod 2 = 1) by lia. rewrite Hr1 in Hdiv.
    change (new_location (2 * 2 ^ 51) (1 * 2 ^ 51)) with (loc_Inexact Eq) in Hdiv.
    unfold binary_round_aux, shr_fexp in Hdiv.
    rewrite Zdigits2_digits, fexp_eq in Hdiv by lia.
    replace (Z.max (digits (Zpos Q) + -1074 - 53) (-1074) - -1074) with 0 in Hdiv
      by lia.
    cbn [shr shr_record_of_loc shr_m loc_of_shr_record round_nearest_even] in Hdiv.
    set (m1 := if Z.even (Zpos Q) then Zpos Q else Zpos Q + 1) in *.
    assert (Hm1 : Zpos Q <= m1 <= Zpos Q + 1)
      by (unfold m1; destruct (Z.even (Zpos Q)); lia).
    rewrite Zdigits2_digits, fexp_eq in Hdiv by lia.
    assert (Hdm1 : digits m1 <= 53).
    { apply digits_le; [lia|]. change (2 ^ 53) with (2 * 2 ^ 52). lia. }
    replace (Z.max (digits m1 + -1074 - 53) (-1074) - -1074) with 0 in Hdiv by lia.
    cbn [shr shr_record_of_loc shr_m] in Hdiv.
    destruct m1 as [|p1|p1] eqn:Em1; try lia.
    change (-1074 <=? emax - prec) with true in Hdiv. cbv iota in Hdiv.
    destruct (finite_value _ _ _ Hdiv) as [P Vd].
    split; [exact P|]. rewrite Vd.
    change (2 ^ (-1074 + 1074)) with 1. rewrite Z.mul_1_r. lia.
Qed.

(** Halving a double of value at least 2 gives half its value, rounded to
    an integer. *)
Lemma half_value (x t : float) :
  Prim2SF t = S754_finite false 4503599627370496 (-51) ->
  posf x = true -> 2 <= value x ->
  posf (x / t) = true /\
  value x - 1 <= 2 * value (x / t) <= value x + 1 /\
  (2 ^ 53 <= value x -> 2 * value (x / t) = value x).
Proof.
  intros Ht Hx Hbig.
  destruct (posf_inv x Hx) as (m & e & E & He & Hd & Hc & V).
  destruct (Z.eq_dec e (-1074)) as [->|Hne].
  - destruct (half_subnormal x t m Ht E) as [P Hh].
    { rewrite V in Hbig. change (2 ^ (-1074 + 1074)) with 1 in Hbig. lia. }
    split; [exact P|]. split; [exact Hh|].
    intros Hnormal. exfalso. rewrite V in Hnormal.
    change (2 ^ (-1074 + 1074)) with 1 in Hnormal.
    pose proof (digits_spec (Zpos m) ltac:(lia)) as [_ D2].
    assert (2 ^ digits (Zpos m) <= 2 ^ 53) by (apply Z.pow_le_mono_r; lia).
    lia.
  - destruct (half_normal x t m e Ht E ltac:(lia)) as [P Hh].
    split; [exact P|]. split; [lia|]. intros _. exact Hh.
Qed.

(** Subtracting equal doubles gives zero. *)
Lemma sub_equal (a b : float) :
  posf a = true -> posf b = true -> value a = value b ->
  Prim2SF (b - a) = S754_zero false.
Proof.
  intros Ha Hb Heq.
  destruct (posf_inv a Ha) as (m1 & e1 & E1 & He1 & _ & _ & V1).
  destruct (posf_inv b Hb) as (m2 & e2 & E2 & He2 & _ & _ & V2).
  rewrite sub_spec, E1, E2. unfold SF64sub, SFsub. cbn [cond_Zopp].
  set (ez := Z.min e2 e1).
  pose proof (aligned_value m1 e1 ez ltac:(lia)) as A1.
  pose proof (aligned_value m2 e2 ez ltac:(lia)) as A2.
  assert (Hp : 0 < 2 ^ (ez + 1074)) by (apply Z.pow_pos_nonneg; lia).
  assert (Hz : Zpos (fst (shl_align m2 e2 ez)) - Zpos (fst (shl_align m1 e1 ez)) = 0)
    by nia.
  rewrite Hz. reflexivity.
Qed.

(** [two_to k] is the double [2^k]. *)
Lemma two_to_spec (k : Z) :
  -1022 <= k <= 1023 ->
  Prim2SF (two_to k) = S754_finite false 4503599627370496 (k - 52).
Proof.
  intros Hk. unfold two_to. apply Prim2SF_SF2Prim.
  unfold SpecFloat.valid_binary, bounded, canonical_mantissa.
  rewrite fexp_eq.
  change (Zpos (digits2_pos 4503599627370496)) with 53.
  change (emax - prec) with 971.
  apply andb_true_iff. split; [apply Z.eqb_eq | apply Z.leb_le]; lia.
Qed.

Lemma two_to_value (k : Z) :
  -1022 <= k <= 1023 ->
  posf (two_to k) = true /\ value (two_to k) = 2 ^ (k + 1074).
Proof.
  intros Hk. destruct (finite_value _ _ _ (two_to_spec k Hk)) as [P V].
  split; [exact P|]. rewrite V.
  change 4503599627370496 with (2 ^ 52).
  rewrite <- Z.pow_add_r by lia. f_equal. lia.
Qed.

Lemma ltb_from_zero (x : float) :
  (0 <? x)%float = true ->
  posf x = true \/ Prim2SF x = S754_infinity false.
Proof.
  rewrite ltb_spec. change (Prim2SF 0) with (S754_zero false). unfold posf.
  destruct (Prim2SF x) as [[|]|[|]| |[|] mx ex]; cbn; intros H;
    try discriminate; auto.
Qed.

(** What lies above a positive finite double is positive and finite, or
    plus infinity. *)
Lemma leb_from_posf (c x : float) :
  posf c = true -> (c <=? x)%float = true ->
  posf x = true \/ Prim2SF x = S754_infinity false.
Proof.
  intros Hc. destruct (posf_inv c Hc) as (m & e & Ec & _).
  rewrite leb_spec, Ec. unfold posf.
  destruct (Prim2SF x) as [[|]|[|]| |[|] mx ex]; cbn; intros H;
    try discriminate; auto.
Qed.

Lemma leb_not_inf (x d : float) :
  posf d = true -> (x <=? d)%float = true -> Prim2SF x <> S754_infinity false.
Proof.
  intros Hd. destruct (posf_inv d Hd) as (m & e & Ed & _).
  rewrite leb_spec, Ed. intros H Hx. rewrite Hx in H. discriminate.
Qed.

Lemma ltb_not_inf (c x : float) :
  posf c = true -> (c <? x)%float = false -> Prim2SF x <> S754_infinity false.
Proof.
  intros Hc. destruct (posf_inv c Hc) as (m & e & Ec & _).
  rewrite ltb_spec, Ec. intros H Hx. rewrite Hx in H. discriminate.
Qed.

Lemma leb_inf_left (x y : float) :
  Prim2SF x = S754_infinity false -> (x <=? y)%float = true ->
  Prim2SF y = S754_infinity false.
Proof.
  intros Hx. rewrite leb_spec, Hx.
  destruct (Prim2SF y) as [[|]|[|]| |[|] my ey]; cbn; intros H;
    try discriminate; auto.
Qed.


(** The constant [2.] of the source. *)
Lemma two_spec : Prim2SF (@of_int ieee 2) = S754_finite false 4503599627370496 (-51).
Proof. vm_compute. reflexivity. Qed.

(** **** The midpoint and the loop condition *)

(** The midpoint as the loop computes it: half the rounded sum, exactly
    when the sum is a normal double; it lies within the bracket. *)
Lemma mid_value (a b t : float) :
  Prim2SF t = S754_finite false 4503599627370496 (-51) ->
  posf a = true -> posf b = true ->
  value a <= value b -> value b <= 2 ^ 2096 ->
  let s := rnd53 (value a + value b) in
  posf ((a + b) / t) = true /\
  s - 1 <= 2 * value ((a + b) / t) <= s + 1 /\
  (2 ^ 53 <= s -> 2 * value ((a + b) / t) = s) /\
  value a <= value ((a + b) / t) <= value b.
Proof.
  intros Ht Ha Hb Hab Hhigh s.
  pose proof (value_pos a Ha) as Va0.
  pose proof (value_exact a Ha) as Ea. pose proof (value_exact b Hb) as Eb.
  assert (Hlo2 : 2 * value a <= s).
  { apply rnd53_ge_exact; try lia. apply rnd53_double; [lia|exact Ea]. }
  assert (Hhi2 : s <= 2 * value b).
  { apply rnd53_le_exact; try lia. apply rnd53_double; [lia|exact Eb]. }
  destruct (add_value a b Ha Hb) as [Ps Vs].
  { fold s. change (2 ^ 2098) with (4 * 2 ^ 2096). lia. }
  fold s in Vs.
  destruct (half_value (a + b) t Ht Ps) as (Pm & Vm & Vx).
  { rewrite Vs. lia. }
  rewrite Vs in Vm, Vx.
  split; [exact Pm|]. split; [exact Vm|]. split; [exact Vx|]. lia.
Qed.

(** A bracket below [2^k] that is wider than [2^(k-53)], the spacing of
    the doubles just below [2^k], has its computed midpoint strictly
    inside. *)
Lemma mid_strict (a b t : float) (k : Z) :
  Prim2SF t = S754_finite false 4503599627370496 (-51) ->
  posf a = true -> posf b = true ->
  -1020 <= k <= 1022 ->
  value b <= 2 ^ (k + 1074) ->
  2 ^ (k + 1021) < value b - value a ->
  value a < value ((a + b) / t) < value b.
Proof.
  intros Ht Ha Hb Hk Hhigh Hwide.
  pose proof (value_pos a Ha) as Va0.
  assert (HK : 2 ^ (k + 1074) <= 2 ^ 2096) by (apply Z.pow_le_mono_r; lia).
  assert (HU : 2 ^ 1 <= 2 ^ (k + 1021)) by (apply Z.pow_le_mono_r; lia).
  change (2 ^ 1) with 2 in HU.
  destruct (mid_value a b t Ht Ha Hb ltac:(lia) ltac:(lia)) as (_ & Vm & Vx & _).
  cbv zeta in Vm, Vx.
  assert (HK2 : 2 ^ (k + 1021 + 54) = 2 * 2 ^ (k + 1074)).
  { replace (k + 1021 + 54) with (1 + (k + 1074)) by lia.
    rewrite Z.pow_add_r by lia. reflexivity. }
  pose proof (rnd53_near (value a + value b) (k + 1021) ltac:(lia) ltac:(lia)
                ltac:(lia)) as Hnear.
  set (s := rnd53 (value a + value b)) in *.
  destruct (Z.le_gt_cases (2 ^ 53) s) as [Hnormal|Hsmall].
  - pose proof (Vx Hnormal). lia.
  - assert (Hs : s = value a + value b).
    { unfold s. apply rnd53_small.
      destruct (Z.le_gt_cases (digits (value a + value b)) 53) as [?|Hbig];
        trivial.
      exfalso.
      pose proof (rnd53_bounds (value a + value b) ltac:(lia)) as [B1 _].
      fold s in B1.
      assert (2 ^ 53 <= 2 ^ (digits (value a + value b) - 1))
        by (apply Z.pow_le_mono_r; lia).
      lia. }
    lia.
Qed.

(** What the loop condition [qhi - qlo > dq] tells about the values. *)
Lemma guard_true (a b dq : float) :
  posf a = true -> posf b = true -> posf dq = true ->
  value a <= value b ->
  (dq <? b - a)%float = true ->
  value a < value b /\ value dq < rnd53 (value b - value a).
Proof.
  intros Ha Hb Hd Hle Hg.
  destruct (Z.eq_dec (value a) (value b)) as [Heq|Hne].
  - exfalso. rewrite ltb_spec, (sub_equal a b Ha Hb Heq) in Hg.
    destruct (posf_inv dq Hd) as (m & e & Ed & _). rewrite Ed in Hg.
    discriminate.
  - assert (Hlt : value a < value b) by lia. split; [exact Hlt|].
    destruct (sub_value b a Hb Ha Hlt) as [Ps Vs].
    rewrite ltb_value in Hg by trivial. apply Z.ltb_lt in Hg. lia.
Qed.

(** Once [qhi - qlo > dq] is false, [qhi - qlo <= dq] is true. *)
Lemma guard_false (a b dq : float) :
  posf a = true -> posf b = true -> posf dq = true ->
  value a <= value b ->
  (dq <? b - a)%float = false ->
  (b - a <=? dq)%float = true.
Proof.
  intros Ha Hb Hd Hle Hg.
  destruct (Z.eq_dec (value a) (value b)) as [Heq|Hne].
  - rewrite leb_spec, (sub_equal a b Ha Hb Heq).
    destruct (posf_inv dq Hd) as (m & e & -> & _). reflexivity.
  - destruct (sub_value b a Hb Ha ltac:(lia)) as [Ps Vs].
    rewrite ltb_value in Hg by trivial. apply Z.ltb_ge in Hg.
    rewrite leb_value by trivial. apply Z.leb_le. exact Hg.
Qed.


(** **** The loop *)

Section FindqBinary64.

Context {E : Engine ieee}.

Variables (iangle pwidth acc dq : float) (k : Z).

Hypothesis Hk : -969 <= k <= 1022.
Hypothesis Hdq : posf dq = true.
Hypothesis HU : 2 ^ (k + 1021) <= value dq.

Local Abbreviation blink := (@findq_blink ieee E iangle pwidth acc).
Local Abbreviation probe := (@findq_probe ieee E iangle pwidth acc).
Local Abbreviation loop fuel lo hi :=
  (@findq_loop ieee E fuel iangle (@div ieee pwidth (@of_int ieee 2)) Vec3_new
     acc dq lo hi).
Local Abbreviation mid lo hi := (@div ieee (@add ieee lo hi) (@of_int ieee 2)).

(** The loop on doubles, whatever the engine answers.  On a bracket of
    positive doubles below [2^k], with [dq] at least [2^(k-53)], every pass
    moves one end strictly inside, so the loop ends, on a bracket inside
    the first one; [n] bounds the number of doubles in the bracket. *)
Lemma findq_loop_returns (n : nat) :
  forall lo hi : float,
    posf lo = true -> posf hi = true ->
    value lo <= value hi -> value hi <= 2 ^ (k + 1074) ->
    value hi - value lo < Z.of_nat n ->
    exists (lo' hi' : float) (steps : list Event),
      (forall fuel, (List.length steps <= fuel)%nat ->
         loop fuel lo hi = (Returns (lo', hi'), steps)) /\
      posf lo' = true /\ posf hi' = true /\
      value lo <= value lo' /\ value lo' <= value hi' /\ value hi' <= value hi /\
      PrimFloat.ltb dq (PrimFloat.sub hi' lo') = false /\
      Forall (fun ev => exists m, ev = probe m /\ posf m = true /\
                                  value lo < value m < value hi) steps.
Proof.
  induction n as [|n IH]; intros lo hi Plo Phi Hle Hhigh Hn; [lia|].
  destruct (PrimFloat.ltb dq (PrimFloat.sub hi lo)) eqn:Hg.
  - destruct (guard_true lo hi dq Plo Phi Hdq Hle Hg) as [Hlt Hw].
    assert (Hwide : 2 ^ (k + 1021) < value hi - value lo).
    { destruct (Z.lt_ge_cases (2 ^ (k + 1021)) (value hi - value lo)) as [?|Hno];
        trivial.
      pose proof (rnd53_le_exact (value hi - value lo) (2 ^ (k + 1021))
                    ltac:(lia) Hno ltac:(apply rnd53_pow2; lia)).
      lia. }
    assert (HK : 2 ^ (k + 1074) <= 2 ^ 2096) by (apply Z.pow_le_mono_r; lia).
    destruct (mid_value lo hi _ two_spec Plo Phi Hle ltac:(lia))
      as (Pm & _).
    pose proof (mid_strict lo hi _ k two_spec Plo Phi ltac:(lia) Hhigh Hwide)
      as [Hm1 Hm2].
    set (m := PrimFloat.div (PrimFloat.add lo hi) (@of_int ieee 2)) in *.
    assert (Hstep : forall lo1 hi1 lo' hi' steps,
      (lo1 = lo /\ hi1 = m /\ blink m = true \/
       lo1 = m /\ hi1 = hi /\ blink m = false) ->
      (forall fuel, (List.length steps <= fuel)%nat ->
         loop fuel lo1 hi1 = (Returns (lo', hi'), steps)) ->
      forall fuel, (List.length (probe m :: steps) <= fuel)%nat ->
         loop fuel lo hi = (Returns (lo', hi'), probe m :: steps)).
    { intros lo1 hi1 lo' hi' steps Hside Hrun fuel Hfuel.
      destruct fuel as [|fuel]; [simpl in Hfuel; lia|].
      specialize (Hrun fuel ltac:(simpl in Hfuel; lia)).
      cbn [findq_loop]. unfold call, bind, findq_blink in *.
      change (@ltb ieee dq (@sub ieee hi lo))
        with (PrimFloat.ltb dq (PrimFloat.sub hi lo)).
      rewrite Hg.
      change (@div ieee (@add ieee lo hi) (@of_int ieee 2)) with m.
      destruct Hside as [(-> & -> & Bm)|(-> & -> & Bm)];
        now rewrite Bm, Hrun. }
    destruct (blink m) eqn:Bm.
    + destruct (IH lo m Plo Pm ltac:(lia) ltac:(lia) ltac:(lia))
        as (lo' & hi' & steps & Hrun & P1 & P2 & V1 & V2 & V3 & G & F).
      exists lo', hi', (probe m :: steps).
      split; [|repeat (split; [first [assumption | lia]|])].
      * apply (Hstep lo m); auto.
      * constructor.
        -- exists m. repeat split; trivial.
        -- eapply Forall_impl; [|exact F].
           intros ev (q & -> & Pq & Vq). exists q. repeat split; trivial; lia.
    + destruct (IH m hi Pm Phi ltac:(lia) Hhigh ltac:(lia))
        as (lo' & hi' & steps & Hrun & P1 & P2 & V1 & V2 & V3 & G & F).
      exists lo', hi', (probe m :: steps).
      split; [|repeat (split; [first [assumption | lia]|])].
      * apply (Hstep m hi); auto.
      * constructor.
        -- exists m. repeat split; trivial.
        -- eapply Forall_impl; [|exact F].
           intros ev (q & -> & Pq & Vq). exists q. repeat split; trivial; lia.
  - exists lo, hi, [].
    split; [|repeat (split; [first [assumption | lia]|]); constructor].
    intros fuel _. destruct fuel; cbn [findq_loop];
      change (@ltb ieee dq (@sub ieee hi lo))
        with (PrimFloat.ltb dq (PrimFloat.sub hi lo));
      now rewrite Hg.
Qed.

End FindqBinary64.

Lemma leb_value_le (x y : float) :
  posf x = true -> posf y = true -> value x <= value y -> (x <=? y)%float = true.
Proof. intros. rewrite leb_value by trivial. now apply Z.leb_le. Qed.

Lemma ltb_value_lt (x y : float) :
  posf x = true -> posf y = true -> value x < value y -> (x <? y)%float = true.
Proof. intros. rewrite ltb_value by trivial. now apply Z.ltb_lt. Qed.

Lemma posf_positive (x : float) : posf x = true -> (0 <? x)%float = true.
Proof.
  intros Hx. destruct (posf_inv x Hx) as (m & e & Ex & _).
  rewrite ltb_spec, Ex. reflexivity.
Qed.

(** The loop of [roche_findq] on doubles, in the terms of the source.  On
    a bracket of positive doubles, [0 < qlo <= qhi <= 2^k], with [dq] at
    least [2^(k-53)] and not above 0.1, the loop ends whatever the engine
    answers: it probes points strictly inside the bracket and ends on a
    bracket [[lo, hi]] within it, of computed width at most [dq], which
    holds the computed midpoint of [lo] and [hi]. *)
Lemma findq_loop_on_doubles (E : Engine ieee) (iangle pwidth acc dq qlo qhi : float)
    (k : Z) :
  -969 <= k <= 1022 ->
  (0 <? qlo)%float = true ->
  (qlo <=? qhi)%float = true ->
  (qhi <=? two_to k)%float = true ->
  (two_to (k - 53) <=? dq)%float = true ->
  (0.1 <? dq)%float = false ->
  exists (lo hi : float) (steps : list Event),
    (forall fuel, (List.length steps <= fuel)%nat ->
       @findq_loop ieee E fuel iangle (pwidth / 2)%float Vec3_new acc dq qlo qhi
       = (Returns (lo, hi), steps)) /\
    ((qlo <=? lo)%float = true /\
     (lo <=? (lo + hi) / 2)%float = true /\
     ((lo + hi) / 2 <=? hi)%float = true /\
     (hi <=? qhi)%float = true) /\
    (hi - lo <=? dq)%float = true /\
    ((0 <? (lo + hi) / 2)%float = true /\
     (qlo <=? (lo + hi) / 2)%float = true /\
     ((lo + hi) / 2 <=? qhi)%float = true) /\
    Forall (fun ev => exists m,
              ev = @findq_probe ieee E iangle pwidth acc m /\
              (qlo <? m)%float = true /\ (m <? qhi)%float = true) steps.
Proof.
  intros Hk Hlow Hle Hhigh Hstep Hdq.
  destruct (two_to_value k ltac:(lia)) as [Pmax Vmax].
  destruct (two_to_value (k - 53) ltac:(lia)) as [Pu Vu].
  assert (Plo : posf qlo = true).
  { destruct (ltb_from_zero _ Hlow) as [?|Hinf]; trivial.
    exfalso. apply (leb_not_inf _ _ Pmax Hhigh).
    exact (leb_inf_left _ _ Hinf Hle). }
  assert (Phi : posf qhi = true).
  { destruct (leb_from_posf _ _ Plo Hle) as [?|Hinf]; trivial.
    exfalso. exact (leb_not_inf _ _ Pmax Hhigh Hinf). }
  assert (Pdq : posf dq = true).
  { destruct (leb_from_posf _ _ Pu Hstep) as [?|Hinf]; trivial.
    exfalso. exact (ltb_not_inf 0.1%float dq eq_refl Hdq Hinf). }
  rewrite leb_value in Hle, Hhigh, Hstep by trivial.
  apply Z.leb_le in Hle, Hhigh, Hstep.
  rewrite Vmax in Hhigh. rewrite Vu in Hstep.
  replace (k - 53 + 1074) with (k + 1021) in Hstep by lia.
  destruct (@findq_loop_returns E iangle pwidth acc dq k Hk Pdq Hstep
              (S (Z.to_nat (value qhi - value qlo))) qlo qhi
              Plo Phi Hle Hhigh ltac:(lia))
    as (lo & hi & steps & Hrun & P1 & P2 & V1 & V2 & V3 & G & F).
  assert (HK : 2 ^ (k + 1074) <= 2 ^ 2096) by (apply Z.pow_le_mono_r; lia).
  destruct (mid_value lo hi _ two_spec P1 P2 V2 ltac:(lia))
    as (Pm & _ & _ & Vm1 & Vm2).
  change (@of_int ieee 2) with 2%float in Pm, Vm1, Vm2.
  exists lo, hi, steps.
  split; [exact Hrun|].
  split; [repeat split; apply leb_value_le; trivial|].
  split; [now apply guard_false|].
  split; [split; [now apply posf_positive|split; apply leb_value_le; trivial; lia]|].
  eapply Forall_impl; [|exact F].
  intros ev (m & -> & Pq & Vq). exists m.
  split; [reflexivity|]. split; apply ltb_value_lt; trivial; lia.
Qed.



(** **** Where the claim fails *)



(** **** More of findq on doubles *)

(** With arguments that pass validation and bracket ends that agree, the
    answer is the sentinel, after the two probes. *)
Lemma roche_findq_ends_agree (A : Arith) (E : Engine A) (fuel : nat)
    (iangle pwidth : double) (acc_arg dq_arg qlo_arg qhi_arg : option double)
    (b : bool) :
  let acc := optional (dec 1 4) acc_arg in
  let dq := optional (dec 1 5) dq_arg in
  let qlo := optional (dec 1 3) qlo_arg in
  let qhi := optional (of_int 2) qhi_arg in
  findq_checks_pass iangle pwidth acc dq ->
  findq_blink iangle pwidth acc qlo = b ->
  findq_blink iangle pwidth acc qhi = b ->
  roche_findq fuel iangle pwidth acc_arg dq_arg qlo_arg qhi_arg
  = (Returns (PyFloat (of_int (if b then -2 else -1))),
     [findq_probe iangle pwidth acc qlo; findq_probe iangle pwidth acc qhi]).
Proof.
  intros acc dq qlo qhi (H1 & H2 & H3 & H4) Hlo Hhi.
  unfold roche_findq. fold acc dq qlo qhi.
  rewrite H1, H2, H3, H4.
  unfold findq_blink in Hlo, Hhi. unfold findq_probe, call, ret, bind.
  rewrite Hlo, Hhi. destruct b; reflexivity.
Qed.

Section FindqOnDoubles.

Context {E : Engine ieee}.

Variables (iangle pwidth : float) (acc_arg dq_arg qlo_arg qhi_arg : option float).
Variable k : Z.

Local Abbreviation acc := (optional (@dec ieee 1 4) acc_arg).
Local Abbreviation dq := (optional (@dec ieee 1 5) dq_arg).
Local Abbreviation qlo := (optional (@dec ieee 1 3) qlo_arg).
Local Abbreviation qhi := (optional (@of_int ieee 2) qhi_arg).
Local Abbreviation elo := (@findq_blink ieee E iangle pwidth acc qlo).
Local Abbreviation ehi := (@findq_blink ieee E iangle pwidth acc qhi).
Local Abbreviation run fuel :=
  (@roche_findq ieee E fuel iangle pwidth acc_arg dq_arg qlo_arg qhi_arg).

(** A call on a bracket of positive doubles whose ends disagree: the
    two probes, the loop, and the midpoint of the bracket it ends on. *)
Lemma findq_bracket_run :
  @findq_checks_pass ieee iangle pwidth acc dq ->
  -969 <= k <= 1022 ->
  (0 <? qlo)%float = true ->
  (qlo <=? qhi)%float = true ->
  (qhi <=? two_to k)%float = true ->
  (two_to (k - 53) <=? dq)%float = true ->
  elo <> ehi ->
  exists (lo hi : float) (steps : list Event),
    (forall fuel, (List.length steps <= fuel)%nat ->
       run fuel
       = (Returns (PyFloat ((lo + hi) / 2)%float),
          @findq_probe ieee E iangle pwidth acc qlo
            :: @findq_probe ieee E iangle pwidth acc qhi :: steps) /\
       @findq_loop ieee E fuel iangle (pwidth / 2)%float Vec3_new acc dq qlo qhi
       = (Returns (lo, hi), steps)) /\
    ((qlo <=? lo)%float = true /\
     (lo <=? (lo + hi) / 2)%float = true /\
     ((lo + hi) / 2 <=? hi)%float = true /\
     (hi <=? qhi)%float = true) /\
    (hi - lo <=? dq)%float = true /\
    ((0 <? (lo + hi) / 2)%float = true /\
     (qlo <=? (lo + hi) / 2)%float = true /\
     ((lo + hi) / 2 <=? qhi)%float = true) /\
    Forall (fun ev => exists m,
              ev = @findq_probe ieee E iangle pwidth acc m /\
              (qlo <? m)%float = true /\ (m <? qhi)%float = true) steps.
Proof.
  intros Hpass Hk Hlow Hle Hhigh Hstep Hne.
  assert (Hdq : (0.1 <? dq)%float = false).
  { destruct Hpass as (_ & _ & _ & H4).
    apply orb_false_iff in H4. exact (proj2 H4). }
  destruct (findq_loop_on_doubles E iangle pwidth acc dq qlo qhi k
              Hk Hlow Hle Hhigh Hstep Hdq)
    as (lo & hi & steps & Hrun & R).
  exists lo, hi, steps. split; [|exact R].
  intros fuel Hf. split; [|exact (Hrun fuel Hf)].
  exact (@roche_findq_runs_loop ieee E fuel iangle pwidth
           acc_arg dq_arg qlo_arg qhi_arg lo hi steps Hpass Hne (Hrun fuel Hf)).
Qed.

(** The three ways a call on a bracket of positive doubles ends. *)
Lemma findq_cases_on_doubles :
  @findq_checks_pass ieee iangle pwidth acc dq ->
  -969 <= k <= 1022 ->
  (0 <? qlo)%float = true ->
  (qlo <=? qhi)%float = true ->
  (qhi <=? two_to k)%float = true ->
  (two_to (k - 53) <=? dq)%float = true ->
  exists (v : float) (t : list Event) (fuel0 : nat),
    (forall fuel, (fuel0 <= fuel)%nat -> run fuel = (Returns (PyFloat v), t)) /\
    ((elo = true /\ ehi = true /\ v = (-2)%float) \/
     (elo = false /\ ehi = false /\ v = (-1)%float) \/
     (elo <> ehi /\ (0 <? v)%float = true /\
      (qlo <=? v)%float = true /\ (v <=? qhi)%float = true)).
Proof.
  intros Hpass Hk Hlow Hle Hhigh Hstep.
  destruct (Bool.bool_dec elo ehi) as [Heq|Hne].
  - exists (@of_int ieee (if elo then -2 else -1)),
      [@findq_probe ieee E iangle pwidth acc qlo;
       @findq_probe ieee E iangle pwidth acc qhi], 0%nat.
    split.
    + intros fuel _.
      exact (@roche_findq_ends_agree ieee E fuel iangle pwidth
               acc_arg dq_arg qlo_arg qhi_arg elo Hpass eq_refl (eq_sym Heq)).
    + rewrite <- Heq. destruct elo; [left|right; left]; repeat split.
  - destruct (findq_bracket_run Hpass Hk Hlow Hle Hhigh Hstep Hne)
      as (lo & hi & steps & Hrun & _ & _ & (P & B1 & B2) & _).
    exists ((lo + hi) / 2)%float,
      (@findq_probe ieee E iangle pwidth acc qlo
         :: @findq_probe ieee E iangle pwidth acc qhi :: steps),
      (List.length steps).
    split.
    + intros fuel Hf. exact (proj1 (Hrun fuel Hf)).
    + right. right. repeat split; assumption.
Qed.

End FindqOnDoubles.

(** On a bracket of positive doubles [0 < qlo <= qhi <= 2^k], with [dq]
    at least [2^(k-53)], [roche_findq] returns on every input that passes
    validation, whatever the engine answers: with enough fuel the outcome
    is always the same float, which is -2, -1 or a value between the two
    bracket ends. *)
Theorem findq_returns_on_doubles (E : Engine ieee) (iangle pwidth : float)
    (acc_arg dq_arg qlo_arg qhi_arg : option float) (k : Z) :
  let acc := optional (@dec ieee 1 4) acc_arg in
  let dq := optional (@dec ieee 1 5) dq_arg in
  let qlo := optional (@dec ieee 1 3) qlo_arg in
  let qhi := optional (@of_int ieee 2) qhi_arg in
  @findq_checks_pass ieee iangle pwidth acc dq ->
  -969 <= k <= 1022 ->
  (0 <? qlo)%float = true ->
  (qlo <=? qhi)%float = true ->
  (qhi <=? two_to k)%float = true ->
  (two_to (k - 53) <=? dq)%float = true ->
  exists (v : float) (fuel0 : nat),
    (forall fuel, (fuel0 <= fuel)%nat ->
       outcome (@roche_findq ieee E fuel iangle pwidth
                  acc_arg dq_arg qlo_arg qhi_arg) = Returns (PyFloat v)) /\
    (v = (-2)%float \/ v = (-1)%float \/
     ((qlo <=? v)%float = true /\ (v <=? qhi)%float = true)).
Proof.
  intros acc dq qlo qhi Hpass Hk Hlow Hle Hhigh Hstep.
  destruct (@findq_cases_on_doubles E iangle pwidth acc_arg dq_arg qlo_arg qhi_arg
              k Hpass Hk Hlow Hle Hhigh Hstep)
    as (v & t & fuel0 & Hrun & Hcases).
  exists v, fuel0. split.
  - intros fuel Hf. now rewrite (Hrun fuel Hf).
  - destruct Hcases as [(_ & _ & ->)|[(_ & _ & ->)|(_ & _ & H)]]; auto.
Qed.

(** On a bracket of positive doubles the sentinels cannot be mistaken for
    a solution: the value returned is -2 exactly when both ends are
    eclipsed, -1 exactly when neither is, and positive otherwise. *)
Theorem findq_sentinels_decode (E : Engine ieee) (iangle pwidth : float)
    (acc_arg dq_arg qlo_arg qhi_arg : option float) (k : Z) :
  let acc := optional (@dec ieee 1 4) acc_arg in
  let dq := optional (@dec ieee 1 5) dq_arg in
  let qlo := optional (@dec ieee 1 3) qlo_arg in
  let qhi := optional (@of_int ieee 2) qhi_arg in
  let elo := @findq_blink ieee E iangle pwidth acc qlo in
  let ehi := @findq_blink ieee E iangle pwidth acc qhi in
  @findq_checks_pass ieee iangle pwidth acc dq ->
  -969 <= k <= 1022 ->
  (0 <? qlo)%float = true ->
  (qlo <=? qhi)%float = true ->
  (qhi <=? two_to k)%float = true ->
  (two_to (k - 53) <=? dq)%float = true ->
  exists (v : float) (fuel0 : nat),
    (forall fuel, (fuel0 <= fuel)%nat ->
       outcome (@roche_findq ieee E fuel iangle pwidth
                  acc_arg dq_arg qlo_arg qhi_arg) = Returns (PyFloat v)) /\
    (v = (-2)%float <-> elo = true /\ ehi = true) /\
    (v = (-1)%float <-> elo = false /\ ehi = false) /\
    ((0 <? v)%float = true <-> elo <> ehi).
Proof.
  intros acc dq qlo qhi elo ehi Hpass Hk Hlow Hle Hhigh Hstep.
  destruct (@findq_cases_on_doubles E iangle pwidth acc_arg dq_arg qlo_arg qhi_arg
              k Hpass Hk Hlow Hle Hhigh Hstep)
    as (v & t & fuel0 & Hrun & Hcases).
  fold acc qlo qhi elo ehi in Hcases.
  exists v, fuel0. split.
  - intros fuel Hf. now rewrite (Hrun fuel Hf).
  - assert (Hdiff : (-2)%float <> (-1)%float).
    { intros H. apply (f_equal (fun x => PrimFloat.ltb x (-1.5))) in H.
      vm_compute in H. discriminate. }
    destruct Hcases as [(H1 & H2 & ->)|[(H1 & H2 & ->)|(Hne & Hpos & _)]].
    + rewrite H1, H2. split; [|split]; split.
      * auto.
      * reflexivity.
      * intros H. now elim Hdiff.
      * intros [H _]. discriminate.
      * intros H. vm_compute in H. discriminate.
      * intros H. now elim H.
    + rewrite H1, H2. split; [|split]; split.
      * intros H. symmetry in H. now elim Hdiff.
      * intros [H _]. discriminate.
      * auto.
      * reflexivity.
      * intros H. vm_compute in H. discriminate.
      * intros H. now elim H.
    + split; [|split]; split.
      * intros ->. vm_compute in Hpos. discriminate.
      * intros [Ht1 Ht2]. exfalso. apply Hne. now rewrite Ht1, Ht2.
      * intros ->. vm_compute in Hpos. discriminate.
      * intros [Ht1 Ht2]. exfalso. apply Hne. now rewrite Ht1, Ht2.
      * intros _. exact Hne.
      * intros _. exact Hpos.
Qed.

(** When the eclipse test is monotone in the mass ratio (once eclipsed,
    eclipsed for every larger ratio), false at [qlo] and true at [qhi], on
    a bracket of positive doubles, the value [roche_findq] returns locates
    the change: it lies in a bracket [[lo, hi]] of computed width at most
    [dq], with the test false everywhere up to [lo] and true everywhere
    from [hi]. *)
Theorem findq_locates_threshold (E : Engine ieee) (iangle pwidth : float)
    (acc_arg dq_arg qlo_arg qhi_arg : option float) (k : Z) :
  let acc := optional (@dec ieee 1 4) acc_arg in
  let dq := optional (@dec ieee 1 5) dq_arg in
  let qlo := optional (@dec ieee 1 3) qlo_arg in
  let qhi := optional (@of_int ieee 2) qhi_arg in
  let blink := @findq_blink ieee E iangle pwidth acc in
  @findq_checks_pass ieee iangle pwidth acc dq ->
  -969 <= k <= 1022 ->
  (0 <? qlo)%float = true ->
  (qlo <=? qhi)%float = true ->
  (qhi <=? two_to k)%float = true ->
  (two_to (k - 53) <=? dq)%float = true ->
  (forall a b : float, (a <=? b)%float = true -> blink a = true -> blink b = true) ->
  blink qlo = false -> blink qhi = true ->
  exists (lo hi : float) (fuel0 : nat),
    (forall fuel, (fuel0 <= fuel)%nat ->
       outcome (@roche_findq ieee E fuel iangle pwidth
                  acc_arg dq_arg qlo_arg qhi_arg)
       = Returns (PyFloat ((lo + hi) / 2)%float)) /\
    (qlo <=? lo)%float = true /\
    (lo <=? (lo + hi) / 2)%float = true /\
    ((lo + hi) / 2 <=? hi)%float = true /\
    (hi <=? qhi)%float = true /\
    (hi - lo <=? dq)%float = true /\
    (forall x : float, (x <=? lo)%float = true -> blink x = false) /\
    (forall x : float, (hi <=? x)%float = true -> blink x = true).
Proof.
  intros acc dq qlo qhi blink Hpass Hk Hlow Hle Hhigh Hstep Hmono Hlo Hhi.
  assert (Hne : @findq_blink ieee E iangle pwidth acc qlo
                <> @findq_blink ieee E iangle pwidth acc qhi)
    by (fold blink; rewrite Hlo, Hhi; discriminate).
  destruct (@findq_bracket_run E iangle pwidth acc_arg dq_arg qlo_arg qhi_arg
              k Hpass Hk Hlow Hle Hhigh Hstep Hne)
    as (lo & hi & steps & Hrun & (B1 & B2 & B3 & B4) & Hw & _ & _).
  assert (Hfuel : (List.length steps <= List.length steps)%nat) by lia.
  destruct (@findq_loop_invariant ieee E (List.length steps) iangle pwidth acc dq
              qlo qhi lo hi steps Hlo Hhi (proj2 (Hrun _ Hfuel))) as (I1 & I2 & _).
  exists lo, hi, (List.length steps).
  split; [|repeat split; trivial].
  - intros fuel Hf. now rewrite (proj1 (Hrun fuel Hf)).
  - intros x Hx. destruct (blink x) eqn:Hbx; [|reflexivity].
    pose proof (Hmono x lo Hx Hbx) as Hcontra.
    fold blink in I1. rewrite I1 in Hcontra. discriminate.
  - intros x Hx. exact (Hmono hi x Hx I2).
Qed.

Lemma ltb_from_posf (c x : float) :
  posf c = true -> (c <? x)%float = true ->
  posf x = true \/ Prim2SF x = S754_infinity false.
Proof.
  intros Hc. destruct (posf_inv c Hc) as (m & e & Ec & _).
  rewrite ltb_spec, Ec. unfold posf.
  destruct (Prim2SF x) as [[|]|[|]| |[|] mx ex]; cbn; intros H;
    try discriminate; auto.
Qed.

(** A test of the form [c < q], with [c] a positive double, is monotone. *)
Lemma threshold_monotone (c a b : float) :
  posf c = true ->
  (a <=? b)%float = true -> (c <? a)%float = true -> (c <? b)%float = true.
Proof.
  intros Pc Hab Hca.
  destruct (posf_inv c Pc) as (m & e & Ec & _).
  destruct (ltb_from_posf c a Pc Hca) as [Pa|Ia].
  - destruct (leb_from_posf a b Pa Hab) as [Pb|Ib].
    + rewrite ltb_value in * by trivial. rewrite leb_value in Hab by trivial.
      apply Z.ltb_lt. apply Z.ltb_lt in Hca. apply Z.leb_le in Hab. lia.
    + rewrite ltb_spec, Ec, Ib. reflexivity.
  - rewrite ltb_spec, Ec, (leb_inf_left a b Ia Hab). reflexivity.
Qed.

(** The default call on a test that is true above 1.5. *)
Lemma findq_returns_on_doubles_witness :
  let E := stub_engine ieee (fun q => PrimFloat.ltb 1.5 q) None None in
  exists (v : float) (fuel0 : nat),
    (forall fuel, (fuel0 <= fuel)%nat ->
       outcome (@roche_findq ieee E fuel 80%float 0.1%float None None None None)
         = Returns (PyFloat v)) /\
    (v = (-2)%float \/ v = (-1)%float \/
     ((@dec ieee 1 3 <=? v)%float = true /\ (v <=? 2)%float = true)).
Proof.
  intros E.
  refine (@findq_returns_on_doubles E 80%float 0.1%float None None None None 1
            _ _ _ _ _ _).
  - repeat split; vm_compute; reflexivity.
  - lia.
  - vm_compute. reflexivity.
  - vm_compute. reflexivity.
  - vm_compute. reflexivity.
  - vm_compute. reflexivity.
Defined.

Lemma findq_sentinels_decode_witness :
  let E := stub_engine ieee (fun q => PrimFloat.ltb 1.5 q) None None in
  exists (v : float) (fuel0 : nat),
    (forall fuel, (fuel0 <= fuel)%nat ->
       outcome (@roche_findq ieee E fuel 80%float 0.1%float None None None None)
         = Returns (PyFloat v)) /\
    (v = (-2)%float <->
     @findq_blink ieee E 80%float 0.1%float (@dec ieee 1 4) (@dec ieee 1 3) = true /\
     @findq_blink ieee E 80%float 0.1%float (@dec ieee 1 4) 2%float = true) /\
    (v = (-1)%float <->
     @findq_blink ieee E 80%float 0.1%float (@dec ieee 1 4) (@dec ieee 1 3) = false /\
     @findq_blink ieee E 80%float 0.1%float (@dec ieee 1 4) 2%float = false) /\
    ((0 <? v)%float = true <->
     @findq_blink ieee E 80%float 0.1%float (@dec ieee 1 4) (@dec ieee 1 3)
     <> @findq_blink ieee E 80%float 0.1%float (@dec ieee 1 4) 2%float).
Proof.
  intros E.
  refine (@findq_sentinels_decode E 80%float 0.1%float None None None None 1
            _ _ _ _ _ _).
  - repeat split; vm_compute; reflexivity.
  - lia.
  - vm_compute. reflexivity.
  - vm_compute. reflexivity.
  - vm_compute. reflexivity.
  - vm_compute. reflexivity.
Defined.

Lemma findq_locates_threshold_witness :
  let E := stub_engine ieee (fun q => PrimFloat.ltb 1.5 q) None None in
  exists (lo hi : float) (fuel0 : nat),
    (forall fuel, (fuel0 <= fuel)%nat ->
       outcome (@roche_findq ieee E fuel 80%float 0.1%float None None None None)
       = Returns (PyFloat ((lo + hi) / 2)%float)) /\
    (@dec ieee 1 3 <=? lo)%float = true /\
    (lo <=? (lo + hi) / 2)%float = true /\
    ((lo + hi) / 2 <=? hi)%float = true /\
    (hi <=? 2)%float = true /\
    (hi - lo <=? @dec ieee 1 5)%float = true /\
    (forall x : float, (x <=? lo)%float = true -> (1.5 <? x)%float = false) /\
    (forall x : float, (hi <=? x)%float = true -> (1.5 <? x)%float = true).
Proof.
  intros E.
  refine (@findq_locates_threshold E 80%float 0.1%float None None None None 1
            _ _ _ _ _ _ _ _ _).
  - repeat split; vm_compute; reflexivity.
  - lia.
  - vm_compute. reflexivity.
  - vm_compute. reflexivity.
  - vm_compute. reflexivity.
  - vm_compute. reflexivity.
  - intros a b Hab Ha. exact (threshold_monotone 1.5 a b eq_refl Hab Ha).
  - vm_compute. reflexivity.
  - vm_compute. reflexivity.
Defined.

End Binary64Rounding.

Set Implicit Arguments.

(* ================================================================== *)
(** ** The binding run on concrete arguments *)

(** A stream type of 3 reaches the engine. *)
Lemma vstream_stype_unchecked_witness :
  let E := stub_engine ieee (fun _ => true) None None in
  let N := stub_numpy ieee (fun _ => true) None None true in
  @roche_vstream ieee E N 1%float (Some 0.01%float) (Some 3%Z) (Some 2%Z)
    = (Returns (PyArray [2%Z; 2%Z] [1; 1; 0.01; 0.01]%float),
       [Call_SimpleNew [2%Z; 2%Z];
        Call_vstrreg (E := E) 1%float 0.01%float 2 3])
  /\ ~ rejected (@roche_vstream ieee E N 1%float (Some 0.01%float)
                   (Some 3%Z) (Some 2%Z)).
Proof.
  intros E N.
  exact (@vstream_stype_unchecked ieee ieee_laws E N 1%float 0.01%float 3 2
           eq_refl eq_refl eq_refl ltac:(lia)).
Defined.

(** Lobe and velocity-space stream with three samples. *)
Lemma arrays_hold_n_pairs_witness :
  let E := stub_engine ieee (fun _ => true) None None in
  let N := stub_numpy ieee (fun _ => true) None None true in
  @returns_2_by_n ieee E N 3 (Call_lobe1 (E := E) 1%float 3)
    (@Roche_lobe1 ieee E 1%float 3)
    (@roche_lobe1 ieee E N 1%float (Some 3%Z))
  /\
  @returns_2_by_n ieee E N 3 (Call_vstrreg (E := E) 1%float 0.01%float 3 1)
    ([1; 1; 1]%float, [0.01; 0.01; 0.01]%float)
    (@roche_vstream ieee E N 1%float (Some 0.01%float) (Some 1%Z) (Some 3%Z)).
Proof.
  intros E N.
  pose proof (@arrays_hold_n_pairs ieee ieee_laws E N 1%float 3
                eq_refl ltac:(lia) eq_refl) as (H1 & _ & _ & _ & _ & H6).
  split; [exact H1|].
  exact (H6 0.01%float 1%Z _ eq_refl eq_refl eq_refl).
Defined.

(** The second turning point of the stand-in engine. *)
Lemma strmnx_nth_turning_point_witness :
  let E := stub_engine ieee (fun _ => true) None None in
  @roche_strmnx ieee E 1%float (Some 2%Z) (Some 0.5%float)
    = (Returns (PyTuple [2; 0; 0.5; -1; -0.5; -2]%float),
       [Call_strinit (E := E) 1%float (0, 0, 0)%float (0, 0, 0)%float;
        Call_strmnx (E := E) 1%float (1, 0, 0)%float (0, 0, 0)%float 0.5%float;
        Call_strmnx (E := E) 1%float (1.5, 0, 0)%float (1, 0, 0)%float 0.5%float;
        Call_vtrans (E := E) 1%float 1 2%float 0%float 1.5%float 0%float;
        Call_vtrans (E := E) 1%float 2 2%float 0%float 1.5%float 0%float]).
Proof.
  intros E.
  exact (proj1 (@strmnx_nth_turning_point ieee ieee_laws E 1%float 2 0.5%float
                  eq_refl ltac:(lia) eq_refl)).
Defined.

(** A point that is never eclipsed and [q = 0] both end [roche_ineg] with
    ValueError; an integration that throws and [q = 0] both end
    [roche_vstream] with ValueError. *)
Lemma error_kinds_counterexample :
  let E := stub_engine ieee (fun _ => true) None (Some "step too small"%string) in
  let N := stub_numpy ieee (fun _ => true) None (Some "step too small"%string) true in
  (raised (@roche_ineg ieee E 1 80 0 0 0 None None None)%float
     = Some PyExc_ValueError /\
   raised (@roche_ineg ieee E 0 80 0 0 0 None None None)%float
     = Some PyExc_ValueError /\
   ~ distinguishable
       (@roche_ineg ieee E 1 80 0 0 0 None None None)%float
       (@roche_ineg ieee E 0 80 0 0 0 None None None)%float)
  /\
  (raised (@roche_vstream ieee E N 1%float None None None)
     = Some PyExc_ValueError /\
   raised (@roche_vstream ieee E N 0%float None None None)
     = Some PyExc_ValueError /\
   ~ distinguishable
       (@roche_vstream ieee E N 1%float None None None)
       (@roche_vstream ieee E N 0%float None None None)).
Proof.
  intros E N. unfold distinguishable.
  repeat split; try (vm_compute; reflexivity);
    intros H; apply H; vm_compute; reflexivity.
Qed.

(* ================================================================== *)
(** ** findq in binary64 *)

(** On doubles the loop need not end.  With [dq = 1e-17], a test that is
    true above 1 and the bracket [1, 2] (false at [qlo], true at [qhi],
    and all arguments valid), 52 halvings lead to the bracket
    [1, 1 + 2^-52], whose midpoint rounds to 1: the bracket no longer
    changes and its width stays above [dq]. *)
Remark findq_binary64_may_not_return :
  let E := stub_engine ieee (fun q => PrimFloat.ltb 1 q) None None in
  @findq_checks_pass ieee (of_int 80) (dec 1 1) (dec 1 4) (dec 1 17) /\
  @findq_blink ieee E (of_int 80) (dec 1 1) (dec 1 4) 1%float = false /\
  @findq_blink ieee E (of_int 80) (dec 1 1) (dec 1 4) 2%float = true /\
  forall fuel,
    outcome (@roche_findq ieee E fuel (of_int 80) (dec 1 1)
               (Some (dec 1 4)) (Some (dec 1 17))
               (Some 1%float) (Some 2%float)) = Diverges.
Proof.
  intros E.
  assert (Hpass : @findq_checks_pass ieee (of_int 80) (dec 1 1) (dec 1 4)
                    (dec 1 17))
    by (repeat split; vm_compute; reflexivity).
  split; [exact Hpass|]. split; [reflexivity|]. split; [reflexivity|].
  intros fuel.
  apply (@roche_findq_diverges ieee E fuel (of_int 80) (dec 1 1)
           (Some (dec 1 4)) (Some (dec 1 17)) (Some 1%float) (Some 2%float)
           Hpass).
  - vm_compute. discriminate.
  - apply findq_loop_less_fuel with (fuel' := (52 + fuel)%nat); [|lia].
    refine (eq_trans
              (@findq_loop_advance ieee E 52 fuel (of_int 80) (dec 1 1)
                 (dec 1 4) (dec 1 17) (1, 2)%float
                 (1%float, PrimFloat.next_up 1%float) _) _).
    + vm_compute. reflexivity.
    + apply (@findq_loop_stuck ieee E fuel (of_int 80) (dec 1 1) (dec 1 4)
               (dec 1 17) (1%float, PrimFloat.next_up 1%float));
      vm_compute; reflexivity.
Qed.

(** The bound on [dq] cannot be lowered.  On the bracket [1, 2] the
    spacing of the doubles is [2^-52]; with the double just below [2^-52]
    as [dq] and a test that is false at 1 and true above, the arguments
    being valid and the bracket in order, the loop reaches the bracket
    [1, 1 + 2^-52] and stays there. *)
Remark findq_dq_bound_is_sharp :
  let E := stub_engine ieee (fun q => PrimFloat.ltb 1 q) None None in
  let dq := PrimFloat.next_down (two_to (-52)) in
  @findq_checks_pass ieee (of_int 80) (dec 1 1) (dec 1 4) dq /\
  @findq_blink ieee E (of_int 80) (dec 1 1) (dec 1 4) 1%float = false /\
  @findq_blink ieee E (of_int 80) (dec 1 1) (dec 1 4) 2%float = true /\
  (0 <? 1)%float = true /\ (1 <=? 2)%float = true /\
  (2 <=? two_to 1)%float = true /\
  (two_to (1 - 53) <=? dq)%float = false /\
  (two_to (1 - 53) <=? PrimFloat.next_up dq)%float = true /\
  forall fuel,
    outcome (@roche_findq ieee E fuel (of_int 80) (dec 1 1)
               (Some (dec 1 4)) (Some dq) (Some 1%float) (Some 2%float))
    = Diverges.
Proof.
  intros E dq.
  assert (Hpass : @findq_checks_pass ieee (of_int 80) (dec 1 1) (dec 1 4) dq)
    by (repeat split; vm_compute; reflexivity).
  split; [exact Hpass|].
  do 7 (split; [vm_compute; reflexivity|]).
  intros fuel.
  apply (@roche_findq_diverges ieee E fuel (of_int 80) (dec 1 1)
           (Some (dec 1 4)) (Some dq) (Some 1%float) (Some 2%float) Hpass).
  - vm_compute. discriminate.
  - apply findq_loop_less_fuel with (fuel' := (52 + fuel)%nat); [|lia].
    refine (eq_trans
              (@findq_loop_advance ieee E 52 fuel (of_int 80) (dec 1 1)
                 (dec 1 4) dq (1, 2)%float
                 (1%float, PrimFloat.next_up 1%float) _) _).
    + vm_compute. reflexivity.
    + apply (@findq_loop_stuck ieee E fuel (of_int 80) (dec 1 1) (dec 1 4)
               dq (1%float, PrimFloat.next_up 1%float));
      vm_compute; reflexivity.
Qed.

(** Nor can the bound on the bracket be dropped.  On the bracket
    [1e308, 1.7e308], with the default [dq] and a test that is true above
    1.5e308, the sum of the two ends overflows: the midpoint is infinity,
    which becomes the upper end and remains it. *)
Remark findq_bracket_bound_is_needed :
  let E := stub_engine ieee (fun q => PrimFloat.ltb 1.5e308 q) None None in
  @findq_checks_pass ieee (of_int 80) (dec 1 1) (dec 1 4) (dec 1 5) /\
  @findq_blink ieee E (of_int 80) (dec 1 1) (dec 1 4) 1e308%float = false /\
  @findq_blink ieee E (of_int 80) (dec 1 1) (dec 1 4) 1.7e308%float = true /\
  (0 <? 1e308)%float = true /\ (1e308 <=? 1.7e308)%float = true /\
  (two_to 1022 <? 1.7e308)%float = true /\
  forall fuel,
    outcome (@roche_findq ieee E fuel (of_int 80) (dec 1 1)
               None None (Some 1e308%float) (Some 1.7e308%float))
    = Diverges.
Proof.
  intros E.
  assert (Hpass : @findq_checks_pass ieee (of_int 80) (dec 1 1) (dec 1 4)
                    (dec 1 5))
    by (repeat split; vm_compute; reflexivity).
  split; [exact Hpass|].
  do 5 (split; [vm_compute; reflexivity|]).
  intros fuel.
  apply (@roche_findq_diverges ieee E fuel (of_int 80) (dec 1 1)
           None None (Some 1e308%float) (Some 1.7e308%float) Hpass).
  - vm_compute. discriminate.
  - apply findq_loop_less_fuel with (fuel' := (1 + fuel)%nat); [|lia].
    refine (eq_trans
              (@findq_loop_advance ieee E 1 fuel (of_int 80) (dec 1 1)
                 (dec 1 4) (dec 1 5) (1e308, 1.7e308)%float
                 (1e308%float, infinity) _) _).
    + vm_compute. reflexivity.
    + apply (@findq_loop_stuck ieee E fuel (of_int 80) (dec 1 1) (dec 1 4)
               (dec 1 5) (1e308%float, infinity));
      vm_compute; reflexivity.
Qed.

(* ================================================================== *)
(** ** More of the binding: fblink and ineg *)

Section Eclipse.

Context {A : Arith} {E : Engine A}.

Local Open Scope dbl_scope.

Lemma star_check (star : Z) :
  (star <? 1)%Z || (star >? 2)%Z = false <-> (star = 1 \/ star = 2)%Z.
Proof. rewrite orb_false_iff. lia. Qed.

Lemma star_check_dec (star : Z) :
  (star = 1 \/ star = 2)%Z \/ (star <? 1)%Z || (star >? 2)%Z = true.
Proof.
  destruct ((star <? 1)%Z || (star >? 2)%Z) eqn:H; [now right|].
  left. now apply star_check.
Qed.

(** [roche_fblink] has two ways to end.  When a range check fires it
    raises ValueError and the engine is not called.  When all pass, the
    engine is called exactly once, on the point [(x, y, z)], with star 1
    read as the primary and star 2 as the secondary, and the result is the
    integer 1 if the engine answers true and 0 if it answers false. *)
Theorem fblink_checked_then_called (q iangle phi x y z : double)
    (ffac_arg acc_arg : option double) (star_arg : option Z) :
  let ffac := optional (of_int 1) ffac_arg in
  let acc := optional (dec 1 4) acc_arg in
  let star := optional 2%Z star_arg in
  let r := Vec3_xyz x y z in
  (fblink_checks_pass q iangle ffac acc star ->
   roche_fblink q iangle phi x y z ffac_arg acc_arg star_arg
     = (Returns (PyInt (if Roche_fblink q iangle phi r (star_of star) ffac acc
                        then 1 else 0)),
        [Call_fblink q iangle phi r (star_of star) ffac acc]))
  /\
  (~ fblink_checks_pass q iangle ffac acc star ->
   rejected (roche_fblink q iangle phi x y z ffac_arg acc_arg star_arg)).
Proof.
  intros ffac acc star r. unfold roche_fblink, fblink_checks_pass.
  fold ffac acc star r. split.
  - intros (H1 & H2 & H3 & H4 & H5).
    apply star_check in H5. rewrite H1, H2, H3, H4, H5.
    unfold call, bind, ret, star_of.
    destruct (Roche_fblink _ _ _ _ _ _ _); reflexivity.
  - intros Hfail.
    destruct (q <=? of_int 0); [eexists; reflexivity|].
    destruct ((iangle <=? of_int 0) || (iangle >? of_int 90));
      [eexists; reflexivity|].
    destruct ((ffac <=? of_int 0) || (ffac >? of_int 1));
      [eexists; reflexivity|].
    destruct ((acc <=? of_int 0) || (acc >? dec 1 1));
      [eexists; reflexivity|].
    destruct (star_check_dec star) as [Hs|Hs].
    + exfalso. apply Hfail. repeat split; trivial.
    + rewrite Hs. eexists; reflexivity.
Qed.

(** [roche_ineg] likewise: a range check that fires raises ValueError
    without calling the engine.  When all pass, [Roche::ingress_egress] is
    called exactly once, with the arguments in the engine's order
    (q, ffac, iangle, point, delta, star); the phases it finds are returned
    as the pair (ingress, egress), and a point that is never eclipsed
    raises ValueError. *)
Theorem ineg_checked_then_called (q iangle x y z : double)
    (ffac_arg delta_arg : option double) (star_arg : option Z) :
  let ffac := optional (of_int 1) ffac_arg in
  let delta := optional (dec 1 7) delta_arg in
  let star := optional 2%Z star_arg in
  let r := Vec3_xyz x y z in
  (ineg_checks_pass q iangle ffac delta star ->
   roche_ineg q iangle x y z ffac_arg delta_arg star_arg
     = (match Roche_ingress_egress q ffac iangle r delta (star_of star) with
        | Some (ingress, egress) => Returns (PyTuple [ingress; egress])
        | None => Raises PyExc_ValueError "roche.ineg: point is not eclipsed"
        end,
        [Call_ingress_egress q ffac iangle r delta (star_of star)]))
  /\
  (~ ineg_checks_pass q iangle ffac delta star ->
   rejected (roche_ineg q iangle x y z ffac_arg delta_arg star_arg)).
Proof.
  intros ffac delta star r. unfold roche_ineg, ineg_checks_pass.
  fold ffac delta star r. split.
  - intros (H1 & H2 & H3 & H4 & H5).
    apply star_check in H5. rewrite H1, H2, H3, H4, H5.
    unfold call, bind, ret, raise, star_of.
    destruct (Roche_ingress_egress _ _ _ _ _ _) as [[i o]|]; reflexivity.
  - intros Hfail.
    destruct (q <=? of_int 0); [eexists; reflexivity|].
    destruct ((iangle <=? of_int 0) || (iangle >? of_int 90));
      [eexists; reflexivity|].
    destruct ((ffac <=? of_int 0) || (ffac >? of_int 1));
      [eexists; reflexivity|].
    destruct (delta <=? of_int 0); [eexists; reflexivity|].
    destruct (star_check_dec star) as [Hs|Hs].
    + exfalso. apply Hfail. repeat split; trivial.
    + rewrite Hs. eexists; reflexivity.
Qed.

(** Whatever its arguments and however long it runs, every engine call
    [roche_findq] makes is the eclipse test of the secondary star, for the
    default point, at phase [pwidth/2], with fill factor 1 and the caller's
    accuracy: only the mass ratio varies from call to call. *)
Lemma findq_loop_probes_only (fuel : nat) (iangle pwidth acc dq qlo qhi : double) :
  probes_only iangle pwidth acc
    (trace (findq_loop fuel iangle (pwidth / of_int 2) Vec3_new acc dq qlo qhi)).
Proof.
  revert qlo qhi. induction fuel as [|fuel IH]; intros qlo qhi; simpl;
    destruct (dq <? qhi - qlo); try constructor.
  unfold call, bind.
  destruct (Roche_fblink _ _ _ _ _ _ _).
  - specialize (IH qlo ((qlo + qhi) / of_int 2)).
    destruct (findq_loop fuel _ _ _ _ _ qlo _) as [o t]. simpl in IH |- *.
    constructor; [now eexists | exact IH].
  - specialize (IH ((qlo + qhi) / of_int 2) qhi).
    destruct (findq_loop fuel _ _ _ _ _ _ qhi) as [o t]. simpl in IH |- *.
    constructor; [now eexists | exact IH].
Qed.

Theorem findq_calls_are_probes (fuel : nat) (iangle pwidth : double)
    (acc_arg dq_arg qlo_arg qhi_arg : option double) :
  probes_only iangle pwidth (optional (dec 1 4) acc_arg)
    (trace (roche_findq fuel iangle pwidth acc_arg dq_arg qlo_arg qhi_arg)).
Proof.
  unfold roche_findq.
  repeat match goal with
         | |- context [if ?c then _ else _] => destruct c; [constructor|]
         end.
  unfold call, bind, ret.
  pose proof (findq_loop_probes_only fuel iangle pwidth
                (optional (dec 1 4) acc_arg) (optional (dec 1 5) dq_arg)
                (optional (dec 1 3) qlo_arg) (optional (of_int 2) qhi_arg))
    as Hloop.
  destruct (Roche_fblink (optional (dec 1 3) qlo_arg) _ _ _ _ _ _),
           (Roche_fblink (optional (of_int 2) qhi_arg) _ _ _ _ _ _); simpl;
    try (repeat constructor; now eexists);
    destruct (findq_loop fuel _ _ _ _ _ _ _) as [[[lo hi]| | |] t];
    simpl in Hloop |- *;
    (constructor; [now eexists|]); (constructor; [now eexists|]);
    rewrite ?app_nil_r; exact Hloop.
Qed.

End Eclipse.

(* ================================================================== *)
(** ** More of the binding: what the arrays hold *)

Lemma store_all {T : Type} (data vals : list T) :
  List.length vals = List.length data -> store data 0 vals = vals.
Proof.
  revert vals. induction data as [|d ds IH]; intros [|v vs] Hlen;
    simpl in *; try discriminate; trivial.
  now rewrite IH by lia.
Qed.

Lemma store_app {T : Type} (pre data vals : list T) :
  store (pre ++ data) (List.length pre) vals = pre ++ store data 0 vals.
Proof.
  induction pre as [|p ps IH]; simpl; [|now rewrite IH].
  destruct data; reflexivity.
Qed.

Lemma store_prefix {T : Type} (data vals : list T) :
  (List.length vals <= List.length data)%nat ->
  store data 0 vals = vals ++ skipn (List.length vals) data.
Proof.
  revert vals. induction data as [|d ds IH]; intros [|v vs] Hlen;
    simpl in *; trivial; try lia.
  now rewrite IH by lia.
Qed.

Section ArrayContents.

Context {A : Arith} {L : ArithLaws A} {E : Engine A} {N : Numpy E}.

Local Open Scope dbl_scope.

(** When the engine stores [n] values through each pointer, the block
    holds the [x] values followed by the [y] values. *)
Lemma fill_stores_n (n : Z) (data : list cfloat) (xy : list cfloat * list cfloat) :
  (0 <= n)%Z -> List.length data = (2 * Z.to_nat n)%nat -> stores_n n xy ->
  fill data n xy = fst xy ++ snd xy.
Proof.
  intros Hn Hdata [Hx Hy]. unfold fill.
  rewrite (store_prefix data (fst xy)) by lia.
  rewrite <- Hx, store_app.
  rewrite store_all; [reflexivity|].
  rewrite length_skipn. lia.
Qed.

Lemma pairs_app (n : Z) (xs ys : list cfloat) :
  List.length xs = Z.to_nat n -> pairs n (xs ++ ys) = combine xs ys.
Proof.
  intros Hx. unfold pairs. rewrite <- Hx.
  rewrite firstn_app, skipn_app, Nat.sub_diag, firstn_all, skipn_all.
  simpl. now rewrite app_nil_r.
Qed.

Lemma filled_with_points (n : Z) (ev : Event) (xy : list cfloat * list cfloat) :
  (2 <= n)%Z -> stores_n n xy ->
  returns_points n xy
    (Returns
       (PyArray [2%Z; n] (fill (map fresh_cell (seq 0 (Z.to_nat (2 * n)))) n xy)),
     [Call_SimpleNew [2%Z; n]; ev]).
Proof.
  intros Hn Hxy. unfold returns_points, outcome. cbn [fst].
  rewrite fill_stores_n; trivial; try lia.
  - split; [reflexivity|]. apply pairs_app. apply Hxy.
  - rewrite length_map, length_seq. lia.
Qed.

Ltac allocate Hq Hn Hok :=
  rewrite ?(ltb_not_leb _ _ Hq); rewrite (proj2 (Z.ltb_ge _ _) Hn);
  unfold bind; rewrite (SimpleNew_spec _ Hok); unfold call, ret.

(** For [q > 0], [n >= 2] and a successful allocation: when the engine
    stores [n] abscissae and [n] ordinates, the array returned by the lobe,
    velocity-space lobe, stream and velocity-space stream operations holds
    exactly those values, row 0 the abscissae and row 1 the ordinates, so
    that column [i] is the engine's [i]-th point; nothing of the fresh
    block is left in it. *)
Theorem arrays_hold_engine_points (q : double) (n : Z) :
  (of_int 0 <? q) = true -> (2 <= n)%Z -> SimpleNew_ok [2%Z; n] = true ->
  (stores_n n (Roche_lobe1 q n) ->
   returns_points n (Roche_lobe1 q n) (roche_lobe1 q (Some n)))
  /\
  (stores_n n (Roche_lobe2 q n) ->
   returns_points n (Roche_lobe2 q n) (roche_lobe2 q (Some n)))
  /\
  (stores_n n (Roche_vlobe1 q n) ->
   returns_points n (Roche_vlobe1 q n) (roche_vlobe1 q (Some n)))
  /\
  (stores_n n (Roche_vlobe2 q n) ->
   returns_points n (Roche_vlobe2 q n) (roche_vlobe2 q (Some n)))
  /\
  (forall rad,
     (of_int 0 <=? rad) = true -> (rad <=? of_int 1) = true ->
     stores_n n (Roche_streamr q rad n) ->
     returns_points n (Roche_streamr q rad n) (roche_stream q rad (Some n)))
  /\
  (forall step stype xy,
     (of_int 0 <? step) = true -> (step <? of_int 1) = true ->
     Roche_vstrreg q step n stype = inr xy -> stores_n n xy ->
     returns_points n xy (roche_vstream q (Some step) (Some stype) (Some n))).
Proof.
  intros Hq Hn Hok. splits.
  - intros Hxy. unfold roche_lobe1, optional. allocate Hq Hn Hok.
    now apply filled_with_points.
  - intros Hxy. unfold roche_lobe2, optional. allocate Hq Hn Hok.
    now apply filled_with_points.
  - intros Hxy. unfold roche_vlobe1, optional. allocate Hq Hn Hok.
    now apply filled_with_points.
  - intros Hxy. unfold roche_vlobe2, optional. allocate Hq Hn Hok.
    now apply filled_with_points.
  - intros rad H0 H1 Hxy. unfold roche_stream, optional.
    rewrite (leb_not_ltb _ _ H0), (leb_not_ltb _ _ H1). simpl orb.
    allocate Hq Hn Hok. now apply filled_with_points.
  - intros step stype xy H0 H1 Hrun Hxy. unfold roche_vstream, optional.
    rewrite (ltb_not_leb _ _ H0), (ltb_not_leb _ _ H1). simpl orb.
    rewrite stype_check_never_fires.
    allocate Hq Hn Hok. rewrite Hrun. now apply filled_with_points.
Qed.

(** For [q > 0] and [n >= 2]: when [PyArray_SimpleNew] fails, each of
    these operations returns NULL at once, leaving the allocator's error
    in place; the engine is not called. *)
Theorem failed_allocation_returns_null (q : double) (n : Z) :
  (of_int 0 <? q) = true -> (2 <= n)%Z -> SimpleNew_ok [2%Z; n] = false ->
  roche_lobe1 q (Some n) = (Null, [Call_SimpleNew [2%Z; n]]) /\
  roche_lobe2 q (Some n) = (Null, [Call_SimpleNew [2%Z; n]]) /\
  roche_vlobe1 q (Some n) = (Null, [Call_SimpleNew [2%Z; n]]) /\
  roche_vlobe2 q (Some n) = (Null, [Call_SimpleNew [2%Z; n]]) /\
  (forall rad,
     (of_int 0 <=? rad) = true -> (rad <=? of_int 1) = true ->
     roche_stream q rad (Some n) = (Null, [Call_SimpleNew [2%Z; n]])) /\
  (forall step stype,
     (of_int 0 <? step) = true -> (step <? of_int 1) = true ->
     roche_vstream q (Some step) (Some stype) (Some n)
       = (Null, [Call_SimpleNew [2%Z; n]])).
Proof.
  intros Hq Hn Hok.
  assert (Hnew : PyArray_SimpleNew [2%Z; n]
                 = (Returns None, [Call_SimpleNew [2%Z; n]]))
    by (unfold PyArray_SimpleNew, call; now rewrite Hok).
  splits.
  - unfold roche_lobe1, optional.
    rewrite (ltb_not_leb _ _ Hq), (proj2 (Z.ltb_ge _ _) Hn).
    unfold bind. now rewrite Hnew.
  - unfold roche_lobe2, optional.
    rewrite (ltb_not_leb _ _ Hq), (proj2 (Z.ltb_ge _ _) Hn).
    unfold bind. now rewrite Hnew.
  - unfold roche_vlobe1, optional.
    rewrite (ltb_not_leb _ _ Hq), (proj2 (Z.ltb_ge _ _) Hn).
    unfold bind. now rewrite Hnew.
  - unfold roche_vlobe2, optional.
    rewrite (ltb_not_leb _ _ Hq), (proj2 (Z.ltb_ge _ _) Hn).
    unfold bind. now rewrite Hnew.
  - intros rad H0 H1. unfold roche_stream, optional.
    rewrite (ltb_not_leb _ _ Hq), (leb_not_ltb _ _ H0), (leb_not_ltb _ _ H1),
      (proj2 (Z.ltb_ge _ _) Hn).
    unfold bind. now rewrite Hnew.
  - intros step stype H0 H1. unfold roche_vstream, optional.
    rewrite (ltb_not_leb _ _ Hq), (ltb_not_leb _ _ H0), (ltb_not_leb _ _ H1),
      stype_check_never_fires, (proj2 (Z.ltb_ge _ _) Hn).
    unfold bind. now rewrite Hnew.
Qed.

End ArrayContents.

(* ================================================================== *)
(** ** The boundary q = 0 *)

Section ZeroMassRatio.

Context {A : Arith} {L : ArithLaws A} {E : Engine A} {N : Numpy E}
        {X : Lagrange E}.

Local Open Scope dbl_scope.

Lemma trace_bind_call {T U : Type} (ev : Event) (v : T) (k : T -> M U) :
  trace (bind (call ev v) k) = ev :: trace (k v).
Proof. unfold bind, call, trace. destruct (k v); reflexivity. Qed.

(** The entry points do not agree on [q = 0].  For a [q] that is both
    [<= 0] and [>= 0]: the eclipse test, the ingress/egress search, the
    lobes, the stream and the velocity-space operations reject it with
    ValueError before any call, while [roche_strmnx], [roche_xl1],
    [roche_xl2] and [roche_xl3], whose check is [q < 0] (under messages
    that read "q <= 0"), accept it and call the engine with it. *)
Theorem zero_mass_ratio (q : double) :
  (q <=? of_int 0) = true -> (of_int 0 <=? q) = true ->
  (forall phi iangle x y z ffac acc star,
     rejected (roche_fblink q iangle phi x y z ffac acc star)) /\
  (forall iangle x y z ffac delta star,
     rejected (roche_ineg q iangle x y z ffac delta star)) /\
  (forall n, rejected (roche_lobe1 q n) /\ rejected (roche_lobe2 q n) /\
             rejected (roche_vlobe1 q n) /\ rejected (roche_vlobe2 q n)) /\
  (forall rad n, rejected (roche_stream q rad n)) /\
  (forall step stype n, rejected (roche_vstream q step stype n)) /\
  (forall n acc,
     (1 <= n)%Z -> (of_int 0 <? acc) = true ->
     exists t, trace (roche_strmnx q (Some n) (Some acc))
               = Call_strinit q Vec3_new Vec3_new :: t) /\
  roche_xl1 q = (Returns (Py_BuildValue_f (Roche_xl1 q)), [Call_xl1 q]) /\
  roche_xl2 q = (Returns (Py_BuildValue_f (Roche_xl2 q)), [Call_xl2 q]) /\
  roche_xl3 q = (Returns (Py_BuildValue_f (Roche_xl3 q)), [Call_xl3 q]).
Proof.
  intros Hneg Hpos. pose proof (leb_not_ltb _ _ Hpos) as Hlt.
  splits; intros; splits.
  - unfold roche_fblink. rewrite Hneg. unfold raise. eexists; reflexivity.
  - unfold roche_ineg. rewrite Hneg. unfold raise. eexists; reflexivity.
  - unfold roche_lobe1. rewrite Hneg. unfold raise. eexists; reflexivity.
  - unfold roche_lobe2. rewrite Hneg. unfold raise. eexists; reflexivity.
  - unfold roche_vlobe1. rewrite Hneg. unfold raise. eexists; reflexivity.
  - unfold roche_vlobe2. rewrite Hneg. unfold raise. eexists; reflexivity.
  - unfold roche_stream. rewrite Hneg. unfold raise. eexists; reflexivity.
  - unfold roche_vstream. rewrite Hneg. unfold raise. eexists; reflexivity.
  - unfold roche_strmnx, optional.
    match goal with
    | Hn : (1 <= _)%Z, Hacc : _ = true |- _ =>
        rewrite Hlt, (ltb_not_leb _ _ Hacc), (proj2 (Z.ltb_ge _ _) Hn)
    end.
    rewrite trace_bind_call. now eexists.
  - unfold roche_xl1. now rewrite Hlt.
  - unfold roche_xl2. now rewrite Hlt.
  - unfold roche_xl3. now rewrite Hlt.
Qed.

End ZeroMassRatio.

(* ================================================================== *)
(** ** Not-a-number arguments *)

Section NotANumber.

Context {E : Engine ieee} {N : Numpy E}.

Ltac decide_checks :=
  repeat match goal with
         | |- context [if ?c then _ else _] =>
             let b := eval vm_compute in c in
             match b with
             | true => change c with true; cbv iota
             | false => change c with false; cbv iota
             end
         end.

(** On binary64 every comparison with a NaN is false, so a NaN passes each
    range check, all of which are written as "reject if out of range":
    with NaN for the mass ratio, the inclination, the fill factor and the
    accuracy the eclipse test and the ingress/egress search call the
    engine; [roche_findq] with NaN inclination, width, accuracy and step
    probes both bracket ends and, as [qhi - qlo > NaN] is false, returns
    without a bisection step; the lobe with a NaN mass ratio is allocated
    and computed. *)
Theorem nan_passes_validation :
  let nan := PrimFloat.nan in
  (forall phi x y z star,
     (star = 1 \/ star = 2)%Z ->
     trace (roche_fblink nan nan phi x y z (Some nan) (Some nan) (Some star))
     = [Call_fblink nan nan phi (Vec3_xyz x y z) (star_of star) nan nan])
  /\
  (forall x y z star,
     (star = 1 \/ star = 2)%Z ->
     trace (roche_ineg nan nan x y z (Some nan) (Some nan) (Some star))
     = [Call_ingress_egress nan nan nan (Vec3_xyz x y z) nan (star_of star)])
  /\
  (forall fuel qlo qhi,
     exists v,
       roche_findq fuel nan nan (Some nan) (Some nan) (Some qlo) (Some qhi)
       = (Returns (PyFloat v),
          [findq_probe nan nan nan qlo; findq_probe nan nan nan qhi]))
  /\
  (forall n,
     (2 <= n)%Z ->
     trace (roche_lobe1 nan (Some n))
     = Call_SimpleNew [2%Z; n]
         :: (if SimpleNew_ok [2%Z; n] then [Call_lobe1 nan n] else [])).
Proof.
  intros nan. splits.
  - intros phi x y z star Hstar. apply star_check in Hstar.
    unfold roche_fblink, optional. decide_checks. rewrite Hstar.
    unfold call, bind, ret, trace, star_of.
    destruct (Roche_fblink _ _ _ _ _ _ _); reflexivity.
  - intros x y z star Hstar. apply star_check in Hstar.
    unfold roche_ineg, optional. decide_checks. rewrite Hstar.
    unfold call, bind, ret, raise, trace, star_of.
    destruct (Roche_ingress_egress _ _ _ _ _ _) as [[i o]|]; reflexivity.
  - intros fuel qlo qhi.
    unfold roche_findq, optional. decide_checks.
    assert (Hloop : @findq_loop ieee E fuel nan (@div ieee nan (@of_int ieee 2))
                      Vec3_new nan nan qlo qhi = (Returns (qlo, qhi), [])).
    { assert (Hg : @ltb ieee nan (@sub ieee qhi qlo) = false).
      { change (PrimFloat.ltb nan (PrimFloat.sub qhi qlo) = false).
        rewrite ltb_spec. unfold SFltb.
        change (Prim2SF nan) with S754_nan. reflexivity. }
      destruct fuel; cbn [findq_loop]; now rewrite Hg. }
    unfold call, bind, ret, findq_probe.
    rewrite Hloop.
    destruct (Roche_fblink qlo _ _ _ _ _ _), (Roche_fblink qhi _ _ _ _ _ _);
      eexists; reflexivity.
  - intros n Hn. unfold roche_lobe1, optional. decide_checks.
    rewrite (proj2 (Z.ltb_ge _ _) Hn).
    unfold PyArray_SimpleNew, call, bind, ret, trace.
    destruct (SimpleNew_ok [2%Z; n]); reflexivity.
Qed.

End NotANumber.

(* ================================================================== *)
(** ** The Lagrangian points: the value delivered *)

Section LagrangeBinary64.

Context {E : Engine ieee} {X : Lagrange E}.

Lemma PyFloat_inj (a b : float) :
  Returns (@PyFloat ieee E a) = Returns (PyFloat b) <-> a = b.
Proof. split; [intros [= H]; exact H | intros ->; reflexivity]. Qed.

(** C10, as the code has it.  For every [q >= 0], [xl1], [xl2] and [xl3]
    call the engine once and deliver its double-precision result
    unchanged as a Python float; the value delivered is the result
    rounded to single precision only when the result is a single already. *)
Theorem lagrange_points_unrounded (q : float) :
  builds_float_as_cpython X ->
  (0 <=? q)%float = true ->
  (roche_xl1 q = (Returns (PyFloat (Roche_xl1 q)), [@Call_xl1 ieee q]) /\
   roche_xl2 q = (Returns (PyFloat (Roche_xl2 q)), [@Call_xl2 ieee q]) /\
   roche_xl3 q = (Returns (PyFloat (Roche_xl3 q)), [@Call_xl3 ieee q]))
  /\
  ((fst (roche_xl1 q) = Returns (PyFloat (to_single (Roche_xl1 q)))
    <-> Roche_xl1 q = to_single (Roche_xl1 q)) /\
   (fst (roche_xl2 q) = Returns (PyFloat (to_single (Roche_xl2 q)))
    <-> Roche_xl2 q = to_single (Roche_xl2 q)) /\
   (fst (roche_xl3 q) = Returns (PyFloat (to_single (Roche_xl3 q)))
    <-> Roche_xl3 q = to_single (Roche_xl3 q))).
Proof.
  intros Hb Hq.
  assert (Hlt : @ltb ieee q (@of_int ieee 0) = false)
    by exact (@leb_not_ltb ieee ieee_laws (@of_int ieee 0) q Hq).
  assert (H1 : roche_xl1 q = (Returns (PyFloat (Roche_xl1 q)), [@Call_xl1 ieee q]))
    by (unfold roche_xl1; now rewrite Hlt, Hb).
  assert (H2 : roche_xl2 q = (Returns (PyFloat (Roche_xl2 q)), [@Call_xl2 ieee q]))
    by (unfold roche_xl2; now rewrite Hlt, Hb).
  assert (H3 : roche_xl3 q = (Returns (PyFloat (Roche_xl3 q)), [@Call_xl3 ieee q]))
    by (unfold roche_xl3; now rewrite Hlt, Hb).
  split; [now repeat split|].
  rewrite H1, H2, H3. cbn [fst]. repeat split; apply PyFloat_inj.
Qed.

End LagrangeBinary64.

(** The stand-in engine, whose [xl1] is the identity, asked for the
    point at [q = 0.1]: the caller receives the double 0.1, not the single
    nearest to it, 0.100000001490116. *)
Lemma lagrange_single_precision_counterexample :
  let E := stub_engine ieee (fun _ => true) None None in
  let X := stub_lagrange ieee (fun _ => true) None None in
  builds_float_as_cpython X /\
  @roche_xl1 ieee E X 0.1%float
    = (Returns (@PyFloat ieee E 0.1%float), [@Call_xl1 ieee 0.1%float]) /\
  to_single 0.1%float = 0.100000001490116119384765625%float /\
  (0.1 <? to_single 0.1)%float = true /\
  ~ single_precision_claim X.
Proof.
  intros E X.
  assert (Hne : (0.1 <? to_single 0.1)%float = true) by (vm_compute; reflexivity).
  split; [intros x; reflexivity|].
  split; [vm_compute; reflexivity|].
  split; [vm_compute; reflexivity|].
  split; [exact Hne|].
  intros H. destruct (H 0.1%float eq_refl) as [H1 _].
  change (fst (@roche_xl1 ieee E X 0.1%float))
    with (Returns (@PyFloat ieee E 0.1%float)) in H1.
  change (@Roche_xl1 ieee E X 0.1%float) with 0.1%float in H1.
  apply (f_equal (fun o : Outcome (@PyObject ieee E) => match o with
                           | Returns (PyFloat d) => PrimFloat.ltb 0.1 d
                           | _ => false
                           end)) in H1.
  vm_compute in H1. discriminate.
Qed.

Lemma lagrange_points_unrounded_witness :
  let E := stub_engine ieee (fun _ => true) None None in
  let X := stub_lagrange ieee (fun _ => true) None None in
  @roche_xl1 ieee E X 0.1%float
    = (Returns (@PyFloat ieee E 0.1%float), [@Call_xl1 ieee 0.1%float]) /\
  @roche_xl2 ieee E X 0.1%float
    = (Returns (@PyFloat ieee E 1.1%float), [@Call_xl2 ieee 0.1%float]) /\
  @roche_xl3 ieee E X 0.1%float
    = (Returns (@PyFloat ieee E (-0.9)%float), [@Call_xl3 ieee 0.1%float]).
Proof.
  intros E X.
  exact (proj1 (@lagrange_points_unrounded E X 0.1%float
                  (fun x => eq_refl) eq_refl)).
Defined.

(* ================================================================== *)
(** ** More runs on concrete arguments *)

(** Three points of the stand-in lobe. *)
Lemma arrays_hold_engine_points_witness :
  let E := stub_engine ieee (fun _ => true) None None in
  let N := stub_numpy ieee (fun _ => true) None None true in
  @outcome ieee E _ (@roche_lobe1 ieee E N 1%float (Some 3%Z))
    = Returns (PyArray [2%Z; 3%Z] [1; 1; 1; 1; 1; 1]%float) /\
  @pairs ieee E 3 [1; 1; 1; 1; 1; 1]%float
    = [(1, 1); (1, 1); (1, 1)]%float /\
  @outcome ieee E _
     (@roche_stream ieee E N 1%float 0.5%float (Some 3%Z))
    = Returns (PyArray [2%Z; 3%Z] [1; 1; 1; 0.5; 0.5; 0.5]%float).
Proof.
  intros E N.
  pose proof (@arrays_hold_engine_points ieee ieee_laws E N 1%float 3
                eq_refl ltac:(lia) eq_refl) as (H1 & _ & _ & _ & H5 & _).
  destruct (H1 (conj eq_refl eq_refl)) as [Ha Hb].
  destruct (H5 0.5%float eq_refl eq_refl (conj eq_refl eq_refl)) as [Hc _].
  exact (conj Ha (conj Hb Hc)).
Defined.

(** An allocator that fails. *)
Lemma failed_allocation_returns_null_witness :
  let E := stub_engine ieee (fun _ => true) None None in
  let N := stub_numpy ieee (fun _ => true) None None false in
  @roche_lobe1 ieee E N 1%float (Some 3%Z)
    = (Null, [Call_SimpleNew (E := E) [2%Z; 3%Z]]) /\
  @roche_vstream ieee E N 1%float (Some 0.01%float) (Some 1%Z) (Some 3%Z)
    = (Null, [Call_SimpleNew (E := E) [2%Z; 3%Z]]).
Proof.
  intros E N.
  pose proof (@failed_allocation_returns_null ieee ieee_laws E N 1%float 3
                eq_refl ltac:(lia) eq_refl) as (H1 & _ & _ & _ & _ & H6).
  exact (conj H1 (H6 0.01%float 1%Z eq_refl eq_refl)).
Defined.

(** The mass ratio 0. *)
Lemma zero_mass_ratio_witness :
  let E := stub_engine ieee (fun _ => true) None None in
  let N := stub_numpy ieee (fun _ => true) None None true in
  let X := stub_lagrange ieee (fun _ => true) None None in
  @rejected ieee E _ (@roche_lobe1 ieee E N 0%float None) /\
  @roche_xl1 ieee E X 0%float
    = (Returns (@PyFloat ieee E 0%float), [@Call_xl1 ieee 0%float]) /\
  exists t,
    @trace ieee E _ (@roche_strmnx ieee E 0%float (Some 1%Z) (Some 0.5%float))
      = Call_strinit (E := E) 0%float (0, 0, 0)%float (0, 0, 0)%float :: t.
Proof.
  intros E N X.
  pose proof (@zero_mass_ratio ieee ieee_laws E N X 0%float eq_refl eq_refl)
    as (_ & _ & H3 & _ & _ & H6 & H7 & _).
  exact (conj (proj1 (H3 None))
           (conj H7 (H6 1%Z 0.5%float ltac:(lia) eq_refl))).
Defined.

(* ================================================================== *)
(** ** More of the binding: strmnx *)

Section TurningPointChecks.

Context {A : Arith} {E : Engine A}.

Local Open Scope dbl_scope.

(** [roche_strmnx] has two ways to end.  When a check fires ([q < 0],
    [n < 1], which includes [n = 0] and negative counts, or [acc <= 0]) it
    raises ValueError and the engine is not called.  When all pass it
    returns a 6-tuple after exactly [n + 3] engine calls: one [strinit],
    [n] searches and two frame transforms. *)
Theorem strmnx_checked_then_called (q : double)
    (n_arg : option Z) (acc_arg : option double) :
  let n := optional 1%Z n_arg in
  let acc := optional (dec 1 7) acc_arg in
  (strmnx_checks_pass q n acc ->
   List.length (trace (roche_strmnx q n_arg acc_arg)) = (Z.to_nat n + 3)%nat /\
   exists x y vx1 vy1 vx2 vy2,
     outcome (roche_strmnx q n_arg acc_arg)
       = Returns (PyTuple [x; y; vx1; vy1; vx2; vy2]))
  /\
  (~ strmnx_checks_pass q n acc -> rejected (roche_strmnx q n_arg acc_arg)).
Proof.
  intros n acc. unfold roche_strmnx, strmnx_checks_pass. fold n acc. split.
  - intros (H1 & H2 & H3).
    rewrite H1, H3, (proj2 (Z.ltb_ge _ _) H2).
    unfold call, bind, ret, trace, outcome.
    destruct (Roche_strinit q Vec3_new Vec3_new) as [r0 v0].
    rewrite !strmnx_loop_spec.
    destruct (Nat.iter (Z.to_nat n) (search q acc) (r0, v0)) as [r v].
    destruct (Roche_vtrans q 1 _ _ _ _) as [tvx1 tvy1].
    destruct (Roche_vtrans q 2 _ _ _ _) as [tvx2 tvy2].
    simpl. split.
    + rewrite length_app, length_map, length_search_starts. simpl. lia.
    + now eexists _, _, _, _, _, _.
  - intros Hfail.
    destruct (q <? of_int 0); [unfold raise; eexists; reflexivity|].
    destruct (n <? 1)%Z eqn:Hn; [unfold raise; eexists; reflexivity|].
    destruct (acc <=? of_int 0); [unfold raise; eexists; reflexivity|].
    exfalso. apply Hfail. repeat split; trivial. now apply Z.ltb_ge.
Qed.

End TurningPointChecks.
